(** * CustomAllocator: a first-fit allocator over [sbrk]

    Shallow embedding of [src/malloc.c] and the properties of its four public
    operations ([custom_malloc], [custom_realloc], [custom_calloc],
    [custom_free]).

    Machine model: LP64, little endian.  [size_t] and pointers are 64-bit
    values kept in [Z] with the wrap-around written out ([wrap64]);
    [sizeof(header_t)] is 24: [dsize] at offset 0 (8 bytes), [magic] at
    offset 8 (4 bytes, followed by 4 bytes of padding), [next] at offset 16
    (8 bytes).  Memory is a byte store indexed by address; a field access at
    [p + off] is not wrapped, pointer values are.  [assert] failures stop the
    program ([Abort]); the two [for]/[while] loops run on fuel.

    Which addresses a process may touch is the business of the collaborator
    behind [sbrk] ([accessible]).  The library calls [memset] and [memcpy],
    whose length comes from the caller, are checked against it and kill the
    process ([Fault]) when their range is not accessible; the loads and
    stores of single header fields are not checked: there the model follows
    the allocator's own view of its heap. *)

From Stdlib Require Import ZArith List Lia Bool.
Import ListNotations.
Local Open Scope Z_scope.

(** ** Integers and pointers *)

Definition wrap64 (z : Z) : Z := z mod 2 ^ 64.

(** The cast [(int) x] of a [size_t]: the low 32 bits, read as signed. *)
Definition to_int (z : Z) : Z :=
  let y := z mod 2 ^ 32 in if y <? 2 ^ 31 then y else y - 2 ^ 32.

Definition NULL : Z := 0.
(** [(void * ) -1] *)
Definition MINUS_ONE : Z := 2 ^ 64 - 1.
Definition MAGIC : Z := 0xDEADC0DE.
Definition sizeof_header : Z := 24.

(** ** Byte memory *)

Definition memory := Z -> Z.

Fixpoint load_le (m : memory) (a : Z) (n : nat) : Z :=
  match n with
  | O => 0
  | S k => (m a) mod 256 + 256 * load_le m (a + 1) k
  end.

Fixpoint store_le (m : memory) (a : Z) (n : nat) (v : Z) : memory :=
  match n with
  | O => m
  | S k => fun x => if x =? a then v mod 256 else store_le m (a + 1) k (v / 256) x
  end.

(** The bytes [memset(dst, c, n)] and [memcpy(dst, src, n)] leave in memory
    when they run to the end, on regions that do not overlap (the source is
    read in the memory before the call). *)
Definition filled (m : memory) (dst c n : Z) : memory :=
  fun x => if (dst <=? x) && (x <? dst + n) then c mod 256 else m x.

Definition copied (m : memory) (dst src n : Z) : memory :=
  fun x => if (dst <=? x) && (x <? dst + n) then m (src + (x - dst)) else m x.

(** Fields of [header_t]. *)
Definition get_dsize (m : memory) (h : Z) : Z := load_le m h 8.
Definition get_magic (m : memory) (h : Z) : Z := load_le m (h + 8) 4.
Definition get_next (m : memory) (h : Z) : Z := load_le m (h + 16) 8.
Definition set_dsize (m : memory) (h v : Z) : memory := store_le m h 8 v.
Definition set_magic (m : memory) (h v : Z) : memory := store_le m (h + 8) 4 v.
Definition set_next (m : memory) (h v : Z) : memory := store_le m (h + 16) 8 v.

(** ** The address-space-growth collaborator

    [sbrk incr w] returns the previous program break, or [(void * ) -1] when
    the request is refused, and the collaborator's next state;
    [accessible w a n] tells whether the [n] bytes from address [a] may be
    read and written. *)
Class Sbrk := {
  world : Type;
  sbrk : Z -> world -> Z * world;
  accessible : world -> Z -> Z -> bool
}.

(** A collaborator with a hard limit: the break may move anywhere between
    [brk_min] and [brk_max], and the bytes from [brk_min] up to the break
    are the accessible ones.  (A kernel maps whole pages, so that a process
    may survive an access a little beyond the break; this instance takes
    the break itself for the limit.) *)
Record brk_state := mkBrk { brk : Z; brk_min : Z; brk_max : Z }.

Definition sbrk_limited (incr : Z) (w : brk_state) : Z * brk_state :=
  if (brk_min w <=? brk w + incr) && (brk w + incr <=? brk_max w)
  then (brk w, mkBrk (brk w + incr) (brk_min w) (brk_max w))
  else (MINUS_ONE, w).

Definition accessible_limited (w : brk_state) (a n : Z) : bool :=
  (brk_min w <=? a) && (a + n <=? brk w).

Definition limited : Sbrk :=
  {| world := brk_state; sbrk := sbrk_limited;
     accessible := accessible_limited |}.

Section Allocator.
Context {E : Sbrk}.

(** ** Program state: the two globals, the memory, the collaborator *)

Record state := mkState {
  heap_start : Z;
  heap_end : Z;
  mem : memory;
  env : world
}.

(** How a run ends: with a value and the state left behind, on a failed
    [assert], for lack of fuel, or killed on an access to memory that is
    not accessible. *)
Inductive result (A : Type) : Type :=
| Done (a : A) (st : state)
| Abort
| OutOfFuel
| Fault.
Arguments Done {A} a st.
Arguments Abort {A}.
Arguments OutOfFuel {A}.
Arguments Fault {A}.

Definition M (A : Type) : Type := state -> result A.

Definition ret {A} (a : A) : M A := fun st => Done a st.

Definition bind {A B} (c : M A) (k : A -> M B) : M B :=
  fun st => match c st with
            | Done a st' => k a st'
            | Abort => Abort
            | OutOfFuel => OutOfFuel
            | Fault => Fault
            end.

Notation "x <- c ;; k" := (bind c (fun x => k))
  (at level 61, c at next level, right associativity).
Notation "c ;; k" := (bind c (fun _ => k))
  (at level 61, right associativity).

Definition assert (b : bool) : M unit :=
  fun st => if b then Done tt st else Abort.

Definition read {A} (f : state -> A) : M A := fun st => Done (f st) st.

Definition set_heap_start (v : Z) : M unit :=
  fun st => Done tt (mkState v (heap_end st) (mem st) (env st)).
Definition set_heap_end (v : Z) : M unit :=
  fun st => Done tt (mkState (heap_start st) v (mem st) (env st)).
Definition write (f : memory -> memory) : M unit :=
  fun st => Done tt (mkState (heap_start st) (heap_end st) (f (mem st)) (env st)).

Definition call_sbrk (incr : Z) : M Z :=
  fun st => let (r, w) := sbrk incr (env st) in
            Done (wrap64 r) (mkState (heap_start st) (heap_end st) (mem st) w).

(** [memset(dst, c, n)] and [memcpy(dst, src, n)] of the C library.  A call
    of length 0 touches nothing; any other call kills the process unless
    every byte it reads or writes is accessible. *)
Definition memset (dst c n : Z) : M unit :=
  fun st =>
    if (n =? 0) || accessible (env st) dst n
    then Done tt (mkState (heap_start st) (heap_end st)
                    (filled (mem st) dst c n) (env st))
    else Fault.

Definition memcpy (dst src n : Z) : M unit :=
  fun st =>
    if (n =? 0) || (accessible (env st) dst n && accessible (env st) src n)
    then Done tt (mkState (heap_start st) (heap_end st)
                    (copied (mem st) dst src n) (env st))
    else Fault.

(** ** malloc.c *)

Definition insert_block (addr dsize prev next : Z) : M unit :=
  assert (negb (addr =? NULL)) ;;
  hs <- read heap_start ;;
  assert (negb (hs =? NULL)) ;;
  let block := addr in
  write (fun m => set_dsize m block dsize) ;;
  write (fun m => set_magic m block MAGIC) ;;
  write (fun m => set_next m block next) ;;
  if negb (prev =? NULL) then write (fun m => set_next m prev block)
  else ret tt.

Definition init_heap (bsize : Z) : M unit :=
  let initial_size := wrap64 (sizeof_header + bsize) in
  r <- call_sbrk (to_int initial_size) ;;
  set_heap_start r ;;
  if r =? MINUS_ONE then set_heap_start NULL
  else
    insert_block r 0 NULL NULL ;;
    set_heap_end (wrap64 (r + initial_size)).

(** Returns 0 on success and -1 on failure. *)
Definition expand_heap (block_start bsize : Z) : M Z :=
  assert (negb (block_start =? NULL)) ;;
  hs <- read heap_start ;;
  assert (negb (hs =? NULL)) ;;
  he <- read heap_end ;;
  let block_end := wrap64 (block_start + bsize) in
  if he <? block_end then
    let expansion := wrap64 (block_end - he) in
    res <- call_sbrk (to_int expansion) ;;
    if res =? MINUS_ONE then ret (-1)
    else set_heap_end (wrap64 (he + expansion)) ;; ret 0
  else ret 0.

Definition valid_header (st : state) (hptr : Z) : bool :=
  if hptr =? NULL then true
  else if (heap_start st <=? hptr) && (hptr <=? wrap64 (heap_end st - sizeof_header))
       then get_magic (mem st) hptr =? MAGIC
       else false.

(** What [find_opening] hands back: the address it returns and the two
    out-parameters, or [NULL] with the out-parameters left unwritten. *)
Inductive opening : Type :=
| Opening (addr prev next : Z)
| NoOpening.

Fixpoint find_opening_loop (fuel : nat) (st : state) (bsize curr : Z)
  : option opening :=
  match fuel with
  | O => None
  | S fuel' =>
      let curr_block_size := wrap64 (sizeof_header + get_dsize (mem st) curr) in
      let next := get_next (mem st) curr in
      if next =? NULL then
        Some (Opening (wrap64 (curr + curr_block_size)) curr NULL)
      else
        let curr_block_end := wrap64 (curr + curr_block_size) in
        let open_space := wrap64 (next - curr_block_end) in
        if bsize <=? open_space then Some (Opening curr_block_end curr next)
        else
          let curr' := next in
          if negb (valid_header st curr') then Some NoOpening
          else find_opening_loop fuel' st bsize curr'
  end.

Definition find_opening (fuel : nat) (bsize : Z) : M opening :=
  hs <- read heap_start ;;
  assert (negb (hs =? NULL)) ;;
  fun st => match find_opening_loop fuel st bsize hs with
            | Some o => Done o st
            | None => OutOfFuel
            end.

Definition can_expand (block s : Z) : M bool :=
  assert (negb (block =? NULL)) ;;
  hs <- read heap_start ;;
  assert (negb (hs =? NULL)) ;;
  let new_block_end := wrap64 (block + sizeof_header + s) in
  next <- read (fun st => get_next (mem st) block) ;;
  if next =? NULL then
    expand_heap block (wrap64 (s + sizeof_header)) ;;
    ret true
  else
    let next_block_start := next in
    ret (0 <=? wrap64 (next_block_start - new_block_end)).

(** [find_block] returns the block, [NULL] or [(void * ) -1], and the
    out-parameter [prev], which is written only once the loop has moved past
    the head. *)
Fixpoint find_block_loop (fuel : nat) (st : state) (target curr : Z)
  (prev : option Z) : option (Z * option Z) :=
  match fuel with
  | O => None
  | S fuel' =>
      if curr =? NULL then Some (NULL, prev)
      else if curr =? target then Some (curr, prev)
      else
        let prev' := Some curr in
        let curr' := get_next (mem st) curr in
        if negb (valid_header st curr') then Some (MINUS_ONE, prev')
        else find_block_loop fuel' st target curr' prev'
  end.

Definition find_block (fuel : nat) (target : Z) : M (Z * option Z) :=
  hs <- read heap_start ;;
  assert (negb (hs =? NULL)) ;;
  assert (negb (target =? NULL)) ;;
  fun st => match find_block_loop fuel st target hs None with
            | Some r => Done r st
            | None => OutOfFuel
            end.

(** The part of [custom_malloc] that follows the lazy initialisation. *)
Definition malloc_place (fuel : nat) (s bsize : Z) (just_initialized : bool)
  : M Z :=
  o <- find_opening fuel bsize ;;
  match o with
  | NoOpening => ret NULL
  | Opening malloc_block_start prev next =>
      if malloc_block_start =? NULL then ret NULL
      else
        r <- (if (next =? NULL) && negb just_initialized
              then expand_heap malloc_block_start bsize else ret 0) ;;
        if r =? -1 then ret NULL
        else
          insert_block malloc_block_start s prev next ;;
          ret (wrap64 (malloc_block_start + sizeof_header))
  end.

Definition custom_malloc (fuel : nat) (s : Z) : M Z :=
  let bsize := wrap64 (sizeof_header + s) in
  hs <- read heap_start ;;
  if hs =? NULL then
    init_heap bsize ;;
    hs' <- read heap_start ;;
    if hs' =? NULL then ret NULL
    else malloc_place fuel s bsize true
  else malloc_place fuel s bsize false.

Definition custom_free (fuel : nat) (p : Z) : M unit :=
  if p =? NULL then ret tt
  else
    hs <- read heap_start ;;
    if (hs =? NULL) || (wrap64 (p - sizeof_header) =? hs) then ret tt
    else
      let target := wrap64 (p - sizeof_header) in
      r <- find_block fuel target ;;
      let (block, prev) := r in
      if block =? NULL then ret tt
      else if block =? MINUS_ONE then ret tt
      else
        match prev with
        | Some prev =>
            next <- read (fun st => get_next (mem st) block) ;;
            write (fun m => set_next m prev next)
        | None => fun _ => Abort  (* [prev] read before it was written *)
        end.

(** The [else] branch of [custom_realloc]: allocate, copy, free. *)
Definition realloc_copy (fuel : nat) (p s old : Z) : M Z :=
  new <- custom_malloc fuel s ;;
  if new =? NULL then ret NULL
  else
    n <- read (fun st => get_dsize (mem st) old) ;;
    memcpy new p n ;;
    custom_free fuel p ;;
    ret new.

Definition custom_realloc (fuel : nat) (p s : Z) : M Z :=
  if p =? NULL then custom_malloc fuel s
  else if s =? 0 then custom_free fuel p ;; ret NULL
  else
    let target := wrap64 (p - sizeof_header) in
    r <- find_block fuel target ;;
    let old := fst r in
    if old =? NULL then ret NULL
    else if old =? MINUS_ONE then ret NULL
    else
      b <- can_expand old s ;;
      if b : bool then
        write (fun m => set_dsize m old s) ;;
        let data := wrap64 (old + sizeof_header) in
        ret data
      else realloc_copy fuel p s old.

Definition custom_calloc (fuel : nat) (nmemb s : Z) : M Z :=
  if (nmemb =? 0) || (s =? 0) then ret NULL
  else
    let size := wrap64 (nmemb * s) in
    array <- custom_malloc fuel size ;;
    if array =? NULL then ret NULL
    else
      memset array 0 size ;;
      ret array.

(** ** The public interface as a transition system *)

Inductive op : Type :=
| Malloc (s : Z)
| Realloc (p s : Z)
| Calloc (nmemb s : Z)
| Free (p : Z).

Definition exec (fuel : nat) (o : op) : M Z :=
  match o with
  | Malloc s => custom_malloc fuel s
  | Realloc p s => custom_realloc fuel p s
  | Calloc nmemb s => custom_calloc fuel nmemb s
  | Free p => custom_free fuel p ;; ret 0
  end.



(** The two globals and every byte of memory agree. *)
Definition same_heap (st st' : state) : Prop :=
  heap_start st' = heap_start st /\ heap_end st' = heap_end st /\
  mem st' = mem st.

(** The situations in which [custom_free] declines to act: a null pointer,
    an uninitialised heap, the dummy head, a block lookup that answers
    [NULL] (not in the list) or [(void * ) -1] (corrupted heap). *)
Definition release_refuses (fuel : nat) (p : Z) (st : state) : Prop :=
  p = NULL \/ heap_start st = NULL \/
  wrap64 (p - sizeof_header) = heap_start st \/
  (exists prev,
      find_block fuel (wrap64 (p - sizeof_header)) st = Done (NULL, prev) st) \/
  (exists prev,
      find_block fuel (wrap64 (p - sizeof_header)) st
      = Done (MINUS_ONE, prev) st).





(** ** Uncorrupted heaps and their gaps

    [layout st h rest] reads the header list from header [h] on: [rest] are
    the headers that follow [h], each the [next] of the one before, each
    valid, each block ending no later than the next header starts, the last
    one with [next = NULL] and ending no later than [heap_end]. *)

Definition block_end (st : state) (h : Z) : Z :=
  h + sizeof_header + get_dsize (mem st) h.

Fixpoint layout (st : state) (h : Z) (rest : list Z) : bool :=
  match rest with
  | [] => (get_next (mem st) h =? NULL) && (block_end st h <=? heap_end st)
  | n :: rest' =>
      (get_next (mem st) h =? n) && negb (n =? NULL) && valid_header st n
      && (block_end st h <=? n) && layout st n rest'
  end.

Definition uncorrupted (st : state) (rest : list Z) : Prop :=
  0 < heap_start st /\ heap_end st < 2 ^ 64 /\
  layout st (heap_start st) rest = true.

(** The gaps between consecutive headers, lowest address first, each with
    its start and its size; and the start of the trailing gap. *)
Fixpoint gaps (st : state) (h : Z) (rest : list Z) : list (Z * Z) :=
  match rest with
  | [] => []
  | n :: rest' => (block_end st h, n - block_end st h) :: gaps st n rest'
  end.

Fixpoint last_end (st : state) (h : Z) (rest : list Z) : Z :=
  match rest with
  | [] => block_end st h
  | n :: rest' => last_end st n rest'
  end.

(** First fit, for the data pointer [q] returned by an allocation of [s]
    bytes on the heap [st], [st'] being the heap afterwards: the new header
    sits at the start of a gap, every gap at a lower address is too small
    for header and data, and the gap is either one between two headers that
    is large enough, or the trailing one, the heap then reaching at least
    to the end of the new block. *)
Definition placed_first_fit (st st' : state) (rest : list Z) (s q : Z) : Prop :=
  let need := sizeof_header + s in
  let a := q - sizeof_header in
  let gs := gaps st (heap_start st) rest in
  (forall b sz, In (b, sz) gs -> b < a -> sz < need) /\
  ((exists sz, In (a, sz) gs /\ need <= sz) \/
   (a = last_end st (heap_start st) rest /\
    (forall b sz, In (b, sz) gs -> sz < need) /\
    a + need <= heap_end st')).

(** How [expand_heap] leaves the heap, [r] being its result and [block_end]
    the end of the block it was asked to fit: nothing to do, growth refused,
    or [heap_end] moved. *)
Definition expanded (st st1 : state) (block_end : Z) (r : Z) : Prop :=
  heap_start st1 = heap_start st /\ mem st1 = mem st /\
  ((r = 0 /\ ~ heap_end st < block_end /\ st1 = st) \/
   (r = -1 /\ heap_end st < block_end /\ heap_end st1 = heap_end st) \/
   (r = 0 /\ heap_end st < block_end /\
    heap_end st1 = wrap64 (heap_end st + wrap64 (block_end - heap_end st)))).

(** ** Header lists after an operation

    [insert_after prev a h rest]: the headers that follow [h] once the new
    header [a] is linked behind [prev]; [unlink target rest]: the headers
    left once [target] is taken out; [pred_of target h rest]: the header in
    front of [target]. *)
Fixpoint insert_after (prev a h : Z) (rest : list Z) : list Z :=
  if h =? prev then a :: rest
  else match rest with
       | [] => []
       | n :: rest' => n :: insert_after prev a n rest'
       end.

Fixpoint unlink (target : Z) (rest : list Z) : list Z :=
  match rest with
  | [] => []
  | n :: rest' => if n =? target then rest' else n :: unlink target rest'
  end.

Fixpoint pred_of (target h : Z) (rest : list Z) : Z :=
  match rest with
  | [] => h
  | n :: rest' => if n =? target then h else pred_of target n rest'
  end.

Fixpoint last_header (h : Z) (rest : list Z) : Z :=
  match rest with
  | [] => h
  | n :: rest' => last_header n rest'
  end.

(** ** Failed calls

    The placement search does not pick the last 24 bytes of the address
    space (a header there has its data pointer wrap around to [NULL]). *)
Definition no_top_opening (fuel : nat) (s : Z) (st : state) : Prop :=
  forall prev next,
    find_opening_loop fuel st (wrap64 (sizeof_header + s)) (heap_start st)
    <> Some (Opening (2 ^ 64 - sizeof_header) prev next).

(** Side condition on a null result of [custom_malloc]: the heap was and
    stays uninitialised, or it was initialised and the search stayed below
    the top of the address space. *)
Definition alloc_guard (fuel : nat) (s : Z) (st st' : state) : Prop :=
  (heap_start st = NULL /\ heap_start st' = NULL) \/
  (heap_start st <> NULL /\ no_top_opening fuel s st).

(** A call that reports failure: [custom_malloc] returning null,
    [custom_realloc] with a non-zero size returning null, [custom_free]
    declining to act. *)
Inductive failed_call (fuel : nat) (st st' : state) : Prop :=
| failed_malloc (s : Z) :
    custom_malloc fuel s st = Done NULL st' ->
    alloc_guard fuel s st st' ->
    failed_call fuel st st'
| failed_realloc (p s : Z) :
    0 <= p < 2 ^ 64 -> s <> 0 ->
    custom_realloc fuel p s st = Done NULL st' ->
    (p = NULL -> alloc_guard fuel s st st') ->
    failed_call fuel st st'
| refused_free (p : Z) :
    release_refuses fuel p st ->
    custom_free fuel p st = Done tt st' ->
    failed_call fuel st st'.

(** ** A list that runs into a broken header

    [chain st h pre]: the headers [pre] follow [h], each the [next] of the
    one before and each valid; nothing is said about what comes after the
    last of them. *)
Fixpoint chain (st : state) (h : Z) (pre : list Z) : bool :=
  match pre with
  | [] => true
  | n :: pre' =>
      (get_next (mem st) h =? n) && negb (n =? NULL) && valid_header st n
      && chain st n pre'
  end.

(** ** Sequences of calls without [custom_realloc]

    [room s st]: a request for [s] bytes stays inside the address space,
    on an initialised heap because [heap_end] is far enough from the top,
    on the first call because [sbrk] either refuses or hands out an
    address with that much space above it.  [served fuel n st]: [st] is
    reached from an uninitialised heap by [n] calls of [custom_malloc],
    [custom_calloc] and [custom_free] that returned.  [heap_ok n st]: the
    heap is still uninitialised, or uncorrupted with at most [n] blocks. *)
Definition room (s : Z) (st : state) : Prop :=
  0 <= s /\
  (heap_start st <> NULL -> heap_end st + sizeof_header + s < 2 ^ 64) /\
  (heap_start st = NULL ->
   forall r w,
     sbrk (to_int (wrap64 (sizeof_header + wrap64 (sizeof_header + s))))
          (env st) = (r, w) ->
     wrap64 r = MINUS_ONE \/ (0 < r /\ r + 2 * sizeof_header + s < 2 ^ 64)).

Definition plain_call (o : op) (st : state) : Prop :=
  match o with
  | Malloc s => room s st
  | Calloc nmemb s => room (wrap64 (nmemb * s)) st
  | Free p => 0 <= p < 2 ^ 64
  | Realloc _ _ => False
  end.

Inductive served (fuel : nat) : nat -> state -> Prop :=
| served_initial st : heap_start st = NULL -> served fuel O st
| served_step n st o r st' :
    served fuel n st -> plain_call o st -> exec fuel o st = Done r st' ->
    served fuel (S n) st'.

Definition heap_ok (n : nat) (st : state) : Prop :=
  heap_start st = NULL \/
  exists rest, uncorrupted st rest /\ (length rest <= n)%nat.

End Allocator.

Arguments Done {E A} a st.
Arguments Abort {E A}.
Arguments OutOfFuel {E A}.
Arguments Fault {E A}.

(** ** Concrete heaps

    Built by running the operations themselves over the limited
    collaborator, from a program break at 4096 and memory holding stale
    bytes. *)

Definition final_state {E : Sbrk} {A} (c : M A) (st : state) : state :=
  match c st with
  | Done _ st' => st'
  | _ => st
  end.

Definition returned {E : Sbrk} {A} (c : M A) (st : state) (d : A) : A :=
  match c st with
  | Done a _ => a
  | _ => d
  end.

Definition is_done {E : Sbrk} {A} (c : M A) (st : state) : bool :=
  match c st with
  | Done _ _ => true
  | _ => false
  end.

Definition fresh : @state limited :=
  @mkState limited NULL NULL (fun a => a mod 251) (mkBrk 4096 4096 8192).

(** [a = malloc(10)] gives 4144; then [b = malloc(20)] gives 4178. *)
Definition heap_a : @state limited := final_state (custom_malloc 4 10) fresh.
Definition heap_ab : @state limited := final_state (custom_malloc 4 20) heap_a.
(** ... and [free(a)] leaves a gap of 34 bytes in front of [b]'s header. *)
Definition heap_b : @state limited := final_state (custom_free 4 4144) heap_ab.

(** [a = malloc(10)], [b = malloc(20)], [c = malloc(5)], [free(b)], then
    [realloc(a, 40)]: headers at 4120 and 4198, and between them a gap of
    14 bytes from 4184. *)
Definition heap_abc : @state limited := final_state (custom_malloc 4 5) heap_ab.
Definition heap_ac : @state limited := final_state (custom_free 4 4178) heap_abc.
Definition heap_tight : @state limited :=
  final_state (custom_realloc 4 4144 40) heap_ac.

(** The heap of [a] and [b] after a write that ran over the magic number of
    [b]'s header at 4154. *)
Definition heap_smashed : @state limited :=
  @mkState limited (heap_start heap_ab) (heap_end heap_ab)
    (set_magic (mem heap_ab) 4154 0) (env heap_ab).

(** * Properties *)

(** ** Arithmetic on 64-bit values *)

Lemma wrap64_range (z : Z) : 0 <= wrap64 z < 2 ^ 64.
Proof. unfold wrap64. apply Z.mod_pos_bound. lia. Qed.

Lemma wrap64_small (z : Z) : 0 <= z < 2 ^ 64 -> wrap64 z = z.
Proof. intros H. unfold wrap64. apply Z.mod_small. exact H. Qed.

Lemma wrap64_idem (z : Z) : wrap64 (wrap64 z) = wrap64 z.
Proof. apply wrap64_small, wrap64_range. Qed.

(** The cast to [int] keeps a value below 2^31. *)
Lemma to_int_small (z : Z) : 0 <= z < 2 ^ 31 -> to_int z = z.
Proof.
  intros H. unfold to_int. cbv zeta.
  rewrite Z.mod_small by lia.
  destruct (Z.ltb_spec z (2 ^ 31)); [reflexivity | lia].
Qed.

(** [(char * ) p - sizeof(header_t) + sizeof(header_t)] is [p] again. *)
Lemma header_of_data_roundtrip (p : Z) :
  0 <= p < 2 ^ 64 -> wrap64 (wrap64 (p - sizeof_header) + sizeof_header) = p.
Proof.
  intros H. unfold wrap64, sizeof_header.
  rewrite Zplus_mod_idemp_l.
  replace (p - 24 + 24) with p by lia.
  apply Z.mod_small. exact H.
Qed.

(** ** Loads and stores *)

Lemma load_le_ext (m1 m2 : memory) (n : nat) : forall a,
  (forall x, a <= x < a + Z.of_nat n -> m1 x = m2 x) ->
  load_le m1 a n = load_le m2 a n.
Proof.
  induction n as [|k IH]; intros a H; cbn [load_le]; [reflexivity|].
  rewrite (H a) by lia.
  rewrite (IH (a + 1)); [reflexivity|].
  intros x Hx. apply H. lia.
Qed.

Lemma store_le_other (m : memory) (n : nat) : forall a v x,
  x < a \/ a + Z.of_nat n <= x -> store_le m a n v x = m x.
Proof.
  induction n as [|k IH]; intros a v x H; cbn [store_le]; [reflexivity|].
  destruct (Z.eqb_spec x a) as [->|Hne]; [lia|].
  apply IH. lia.
Qed.

Lemma load_le_range (m : memory) (n : nat) : forall a,
  0 <= load_le m a n < 256 ^ Z.of_nat n.
Proof.
  induction n as [|k IH]; intros a.
  - simpl. lia.
  - rewrite Nat2Z.inj_succ, Z.pow_succ_r by lia.
    cbn [load_le].
    specialize (IH (a + 1)).
    assert (0 <= m a mod 256 < 256) by (apply Z.mod_pos_bound; lia).
    lia.
Qed.

Lemma load_store_same (m : memory) (n : nat) : forall a v,
  load_le (store_le m a n v) a n = v mod 256 ^ Z.of_nat n.
Proof.
  induction n as [|k IH]; intros a v.
  - simpl. rewrite Z.mod_1_r. reflexivity.
  - rewrite Nat2Z.inj_succ, Z.pow_succ_r by lia.
    rewrite Z.rem_mul_r by lia.
    cbn [load_le store_le].
    rewrite Z.eqb_refl, Z.mod_mod by lia.
    rewrite (load_le_ext _ (store_le m (a + 1) k (v / 256))).
    + rewrite IH. reflexivity.
    + intros x Hx. cbn [store_le].
      destruct (Z.eqb_spec x a); [lia | reflexivity].
Qed.

Lemma load_store_disjoint (m : memory) (n k : nat) (a b v : Z) :
  a + Z.of_nat n <= b \/ b + Z.of_nat k <= a ->
  load_le (store_le m b k v) a n = load_le m a n.
Proof.
  intros H. apply load_le_ext. intros x Hx.
  apply store_le_other. lia.
Qed.

Lemma get_dsize_range (m : memory) (h : Z) : 0 <= get_dsize m h < 2 ^ 64.
Proof. apply (load_le_range m 8 h). Qed.

Lemma get_set_dsize (m : memory) (h v : Z) :
  get_dsize (set_dsize m h v) h = wrap64 v.
Proof. apply (load_store_same m 8 h v). Qed.

Lemma get_set_next (m : memory) (h v : Z) :
  get_next (set_next m h v) h = wrap64 v.
Proof. apply (load_store_same m 8 (h + 16) v). Qed.

Lemma get_set_magic (m : memory) (h v : Z) :
  get_magic (set_magic m h v) h = v mod 2 ^ 32.
Proof. apply (load_store_same m 4 (h + 8) v). Qed.

Section Properties.
Context {E : Sbrk}.

Ltac proj_red :=
  repeat match goal with
    | |- context [heap_start (mkState ?a ?b ?c ?d)] =>
        change (heap_start (mkState a b c d)) with a
    | |- context [heap_end (mkState ?a ?b ?c ?d)] =>
        change (heap_end (mkState a b c d)) with b
    | |- context [mem (mkState ?a ?b ?c ?d)] =>
        change (mem (mkState a b c d)) with c
    | |- context [env (mkState ?a ?b ?c ?d)] =>
        change (env (mkState a b c d)) with d
    | |- context [fst (?a, ?b)] => change (fst (a, b)) with a
    | |- context [snd (?a, ?b)] => change (snd (a, b)) with b
    | H : context [heap_start (mkState ?a ?b ?c ?d)] |- _ =>
        change (heap_start (mkState a b c d)) with a in H
    | H : context [heap_end (mkState ?a ?b ?c ?d)] |- _ =>
        change (heap_end (mkState a b c d)) with b in H
    | H : context [mem (mkState ?a ?b ?c ?d)] |- _ =>
        change (mem (mkState a b c d)) with c in H
    | H : context [env (mkState ?a ?b ?c ?d)] |- _ =>
        change (env (mkState a b c d)) with d in H
    | H : context [fst (?a, ?b)] |- _ => change (fst (a, b)) with a in H
    | H : context [snd (?a, ?b)] |- _ => change (snd (a, b)) with b in H
    end.

Ltac mred :=
  unfold bind, ret, read, assert, write, set_heap_start, set_heap_end in *;
  cbv beta zeta iota in *;
  proj_red;
  change (negb false) with true in *; change (negb true) with false in *;
  cbv beta iota in *.

Lemma eqb_NULL_false (z : Z) : z <> NULL -> (z =? NULL) = false.
Proof. intros H. apply Z.eqb_neq. exact H. Qed.

(** ** [expand_heap] and [can_expand] *)

Lemma expand_heap_done (block_start bsize : Z) (st : state) :
  block_start <> NULL -> heap_start st <> NULL ->
  exists r st1, expand_heap block_start bsize st = Done r st1 /\
                expanded st st1 (wrap64 (block_start + bsize)) r.
Proof.
  intros Hb Hs. unfold expand_heap, expanded. mred.
  rewrite (eqb_NULL_false _ Hb); mred.
  rewrite (eqb_NULL_false _ Hs); mred.
  destruct (Z.ltb_spec (heap_end st) (wrap64 (block_start + bsize))) as [Hlt|Hge].
  - unfold call_sbrk.
    destruct (sbrk _ (env st)) as [r w]. cbn [heap_start heap_end mem env].
    destruct (wrap64 r =? MINUS_ONE).
    + eexists _, _. split; [reflexivity|]. cbn. intuition auto.
    + eexists _, _. split; [reflexivity|]. cbn. intuition auto.
  - eexists _, _. split; [reflexivity|].
    repeat split; auto. left. repeat split; auto. lia.
Qed.


Lemma can_expand_done (block s : Z) (st : state) :
  block <> NULL -> heap_start st <> NULL ->
  exists st1, can_expand block s st = Done true st1 /\
              heap_start st1 = heap_start st /\ mem st1 = mem st /\
              (get_next (mem st) block <> NULL -> st1 = st) /\
              (get_next (mem st) block = NULL ->
               exists r, expanded st st1
                           (wrap64 (block + wrap64 (s + sizeof_header))) r).
Proof.
  intros Hb Hs. unfold can_expand. mred.
  rewrite (eqb_NULL_false _ Hb); mred.
  rewrite (eqb_NULL_false _ Hs); mred.
  destruct (Z.eqb_spec (get_next (mem st) block) NULL) as [Hn|Hn].
  - destruct (expand_heap_done block (wrap64 (s + sizeof_header)) st Hb Hs)
      as (r & st1 & Hexp & Hx).
    rewrite Hexp. exists st1. split; [reflexivity|].
    destruct Hx as (H1 & H2 & H3). repeat split; auto.
    + intros; contradiction.
    + intros _. exists r. repeat split; auto.
  - exists st. split.
    + f_equal. apply Z.leb_le. apply wrap64_range.
    + repeat split; auto. intros; contradiction.
Qed.

(** ** [find_block] *)

Lemma find_block_loop_result (fuel : nat) (st : state) (target : Z) :
  forall curr prev r prev',
    find_block_loop fuel st target curr prev = Some (r, prev') ->
    r = NULL \/ r = MINUS_ONE \/ r = target.
Proof.
  induction fuel as [|n IH]; intros curr prev r prev' H; cbn [find_block_loop] in H.
  - discriminate.
  - destruct (curr =? NULL); [inversion H; auto|].
    destruct (Z.eqb_spec curr target); [inversion H; subst; auto|].
    destruct (negb (valid_header st (get_next (mem st) curr)));
      [inversion H; auto|].
    eapply IH; eauto.
Qed.

Lemma find_block_inv (fuel : nat) (target : Z) (st st' : state) r :
  find_block fuel target st = Done r st' ->
  st' = st /\ heap_start st <> NULL /\ target <> NULL /\
  find_block_loop fuel st target (heap_start st) None = Some r.
Proof.
  unfold find_block. mred.
  destruct (Z.eqb_spec (heap_start st) NULL); mred; [discriminate|].
  destruct (Z.eqb_spec target NULL); mred; [discriminate|].
  destruct (find_block_loop fuel st target (heap_start st) None);
    [|discriminate].
  intros H; inversion H; subst. auto.
Qed.

Lemma find_block_result (fuel : nat) (target : Z) (st st' : state) r prev :
  find_block fuel target st = Done (r, prev) st' ->
  r = NULL \/ r = MINUS_ONE \/ r = target.
Proof.
  intros H. apply find_block_inv in H. destruct H as (_ & _ & _ & H).
  eapply find_block_loop_result; eauto.
Qed.


(** ** Resize in place *)

Lemma realloc_in_place (fuel : nat) (p s old : Z) (prev : option Z)
    (st st0 : state) :
  0 < p < 2 ^ 64 -> s <> 0 ->
  find_block fuel (wrap64 (p - sizeof_header)) st = Done (old, prev) st0 ->
  old <> NULL -> old <> MINUS_ONE ->
  exists st1,
    can_expand old s st = Done true st1 /\
    custom_realloc fuel p s st
    = Done p (mkState (heap_start st1) (heap_end st1)
                      (set_dsize (mem st1) old s) (env st1)) /\
    heap_start st1 = heap_start st /\ mem st1 = mem st /\
    old = wrap64 (p - sizeof_header).
Proof.
  intros Hp Hs Hfb Hn Hm.
  pose proof (find_block_result _ _ _ _ _ _ Hfb) as Hr.
  destruct Hr as [Hr|[Hr|Hr]]; try contradiction.
  pose proof (find_block_inv _ _ _ _ _ Hfb) as (-> & Hhs & Ht & _).
  destruct (can_expand_done old s st Hn Hhs) as (st1 & Hce & Hst & Hmem & _).
  exists st1. split; [exact Hce|]. split; [|auto].
  unfold custom_realloc.
  rewrite (eqb_NULL_false p) by (unfold NULL; lia).
  replace (s =? 0) with false by (symmetry; apply Z.eqb_neq; exact Hs).
  unfold bind at 1. rewrite Hfb. cbn [fst].
  rewrite (eqb_NULL_false _ Hn).
  replace (old =? MINUS_ONE) with false by (symmetry; apply Z.eqb_neq; exact Hm).
  unfold bind at 1. rewrite Hce. mred.
  rewrite Hr, header_of_data_roundtrip by lia. reflexivity.
Qed.



(** ** Release *)

(** In each of the five situations it tests for, [custom_free] returns with
    the whole state as it was. *)
Lemma custom_free_refuses (fuel : nat) (p : Z) (st : state) :
  release_refuses fuel p st -> custom_free fuel p st = Done tt st.
Proof.
  intros H. unfold custom_free.
  destruct (Z.eqb_spec p NULL) as [|Hp]; [reflexivity|].
  mred.
  destruct ((heap_start st =? NULL)
            || (wrap64 (p - sizeof_header) =? heap_start st)) eqn:Hg;
    [reflexivity|].
  apply orb_false_iff in Hg. destruct Hg as [Hg1 Hg2].
  apply Z.eqb_neq in Hg1, Hg2.
  destruct H as [H|[H|[H|[[prev H]|[prev H]]]]]; try contradiction.
  - rewrite H. reflexivity.
  - rewrite H. reflexivity.
Qed.

(** ** The globals over sequences of operations *)













Lemma expand_heap_inv (block_start bsize r : Z) (st st' : state) :
  expand_heap block_start bsize st = Done r st' ->
  block_start <> NULL /\ heap_start st <> NULL /\
  expanded st st' (wrap64 (block_start + bsize)) r.
Proof.
  intros H.
  destruct (Z.eq_dec block_start NULL) as [Hb|Hb].
  { unfold expand_heap in H. mred. rewrite Hb in H. discriminate. }
  destruct (Z.eq_dec (heap_start st) NULL) as [Hs|Hs].
  { unfold expand_heap in H. mred.
    rewrite (eqb_NULL_false _ Hb) in H. mred. rewrite Hs in H. discriminate. }
  destruct (expand_heap_done block_start bsize st Hb Hs) as (r' & st1 & H1 & Hx).
  rewrite H in H1. inversion H1; subst. auto.
Qed.







Lemma insert_block_inv (addr dsize prev next : Z) (st st' : state) u :
  insert_block addr dsize prev next st = Done u st' ->
  addr <> NULL /\ heap_start st <> NULL /\
  heap_start st' = heap_start st /\ heap_end st' = heap_end st /\
  env st' = env st /\
  mem st' =
    let m := set_next (set_magic (set_dsize (mem st) addr dsize) addr MAGIC)
                      addr next in
    if prev =? NULL then m else set_next m prev addr.
Proof.
  unfold insert_block. mred.
  destruct (Z.eqb_spec addr NULL); mred; [discriminate|].
  destruct (Z.eqb_spec (heap_start st) NULL); mred; [discriminate|].
  destruct (prev =? NULL); mred; intros H; inversion H; subst;
    cbn [heap_start heap_end mem env]; auto 10.
Qed.












(** ** Zero-initialised allocation *)

Lemma filled_inside (m : memory) (dst c n x : Z) :
  dst <= x < dst + n -> filled m dst c n x = c mod 256.
Proof.
  intros H. unfold filled.
  destruct (Z.leb_spec dst x); [|lia].
  destruct (Z.ltb_spec x (dst + n)); [reflexivity | lia].
Qed.

Lemma filled_outside (m : memory) (dst c n x : Z) :
  x < dst \/ dst + n <= x -> filled m dst c n x = m x.
Proof.
  intros H. unfold filled.
  destruct (Z.leb_spec dst x); [|reflexivity].
  destruct (Z.ltb_spec x (dst + n)); [lia | reflexivity].
Qed.

Lemma custom_calloc_eq (fuel : nat) (nmemb s : Z) (st : state) :
  nmemb <> 0 -> s <> 0 ->
  custom_calloc fuel nmemb s st =
  match custom_malloc fuel (wrap64 (nmemb * s)) st with
  | Done array st1 =>
      if array =? NULL then Done NULL st1
      else if (wrap64 (nmemb * s) =? 0)
              || accessible (env st1) array (wrap64 (nmemb * s))
      then Done array (mkState (heap_start st1) (heap_end st1)
                         (filled (mem st1) array 0 (wrap64 (nmemb * s)))
                         (env st1))
      else Fault
  | Abort => Abort
  | OutOfFuel => OutOfFuel
  | Fault => Fault
  end.
Proof.
  intros Hn Hs. unfold custom_calloc.
  replace ((nmemb =? 0) || (s =? 0)) with false.
  2:{ symmetry. apply orb_false_iff. split; apply Z.eqb_neq; assumption. }
  cbv zeta. unfold bind at 1.
  destruct (custom_malloc fuel (wrap64 (nmemb * s)) st) as [array st1| | |];
    try reflexivity.
  destruct (array =? NULL); [reflexivity|].
  unfold bind, memset, ret.
  destruct ((wrap64 (nmemb * s) =? 0)
            || accessible (env st1) array (wrap64 (nmemb * s)));
    reflexivity.
Qed.



(** ** Placement on an uncorrupted heap *)

Lemma block_end_lower (st : state) (h : Z) : h + sizeof_header <= block_end st h.
Proof. unfold block_end. pose proof (get_dsize_range (mem st) h). lia. Qed.

Lemma layout_cons (st : state) (h n : Z) (rest : list Z) :
  layout st h (n :: rest) = true ->
  get_next (mem st) h = n /\ n <> NULL /\ valid_header st n = true /\
  block_end st h <= n /\ layout st n rest = true.
Proof.
  cbn [layout]. intros H.
  apply andb_prop in H. destruct H as [H H5].
  apply andb_prop in H. destruct H as [H H4].
  apply andb_prop in H. destruct H as [H H3].
  apply andb_prop in H. destruct H as [H1 H2].
  apply Z.eqb_eq in H1. apply Z.leb_le in H4.
  apply negb_true_iff in H2. apply Z.eqb_neq in H2. auto.
Qed.

Lemma layout_nil (st : state) (h : Z) :
  layout st h [] = true ->
  get_next (mem st) h = NULL /\ block_end st h <= heap_end st.
Proof.
  cbn [layout]. intros H. apply andb_prop in H. destruct H as [H1 H2].
  apply Z.eqb_eq in H1. apply Z.leb_le in H2. auto.
Qed.

Lemma layout_block_end_le (st : state) (rest : list Z) : forall h,
  layout st h rest = true -> block_end st h <= heap_end st.
Proof.
  induction rest as [|n rest IH]; intros h H.
  - apply layout_nil in H. tauto.
  - apply layout_cons in H. destruct H as (_ & _ & _ & Hle & Hl).
    specialize (IH n Hl). pose proof (block_end_lower st n).
    unfold sizeof_header in *. lia.
Qed.

Lemma gaps_above (st : state) (rest : list Z) : forall h b sz,
  layout st h rest = true -> In (b, sz) (gaps st h rest) -> h < b.
Proof.
  induction rest as [|n rest IH]; intros h b sz Hl Hin; cbn [gaps] in Hin.
  - contradiction.
  - apply layout_cons in Hl. destruct Hl as (_ & _ & _ & Hle & Hl).
    pose proof (block_end_lower st h). unfold sizeof_header in *.
    destruct Hin as [Heq|Hin].
    + inversion Heq; subst. lia.
    + specialize (IH n b sz Hl Hin). lia.
Qed.

Lemma find_opening_layout (st : state) (bsize : Z) :
  heap_end st < 2 ^ 64 ->
  forall rest h fuel,
    0 < h -> layout st h rest = true -> (length rest < fuel)%nat ->
    exists a prev next,
      find_opening_loop fuel st bsize h = Some (Opening a prev next) /\
      h < a <= heap_end st /\
      (forall b sz, In (b, sz) (gaps st h rest) -> b < a -> sz < bsize) /\
      ((next <> NULL /\ exists sz, In (a, sz) (gaps st h rest) /\ bsize <= sz) \/
       (next = NULL /\ a = last_end st h rest /\
        forall b sz, In (b, sz) (gaps st h rest) -> sz < bsize)).
Proof.
  intros Hhe. induction rest as [|n rest IH]; intros h fuel Hh Hl Hf.
  - destruct fuel as [|fuel]; [cbn in Hf; lia|].
    apply layout_nil in Hl. destruct Hl as [Hn Hle].
    pose proof (get_dsize_range (mem st) h) as Hd.
    assert (Hbe : wrap64 (h + wrap64 (sizeof_header + get_dsize (mem st) h))
                  = block_end st h).
    { unfold block_end in *. unfold sizeof_header in *.
      rewrite (wrap64_small (24 + _)) by lia.
      rewrite wrap64_small by lia. lia. }
    cbn [find_opening_loop]. cbv zeta. rewrite Hn, Z.eqb_refl, Hbe.
    eexists _, _, _. split; [reflexivity|].
    pose proof (block_end_lower st h). unfold sizeof_header in *.
    split; [lia|]. split.
    + intros b sz Hin. contradiction.
    + right. split; [reflexivity|]. split; [reflexivity|].
      intros b sz Hin. contradiction.
  - destruct fuel as [|fuel]; [cbn in Hf; lia|].
    pose proof (layout_block_end_le _ _ _ Hl) as Hle0.
    apply layout_cons in Hl. destruct Hl as (Hn & Hn0 & Hv & Hle & Hl).
    pose proof (layout_block_end_le _ _ _ Hl) as Hlen.
    pose proof (block_end_lower st n) as Hbn.
    pose proof (block_end_lower st h) as Hbh.
    pose proof (get_dsize_range (mem st) h) as Hd.
    assert (Hbe : wrap64 (h + wrap64 (sizeof_header + get_dsize (mem st) h))
                  = block_end st h).
    { unfold block_end in *. unfold sizeof_header in *.
      rewrite (wrap64_small (24 + _)) by lia.
      rewrite wrap64_small by lia. lia. }
    assert (Hos : wrap64 (n - block_end st h) = n - block_end st h).
    { apply wrap64_small. unfold sizeof_header in *. lia. }
    cbn [find_opening_loop]. cbv zeta.
    rewrite Hn, (eqb_NULL_false _ Hn0), Hbe, Hos.
    destruct (Z.leb_spec bsize (n - block_end st h)) as [Hfit|Hsmall].
    + eexists _, _, _. split; [reflexivity|].
      unfold sizeof_header in *. split; [lia|]. split.
      * intros b sz Hin Hlt. cbn [gaps] in Hin. destruct Hin as [Heq|Hin].
        -- inversion Heq; subst. lia.
        -- pose proof (gaps_above _ _ _ _ _ Hl Hin). lia.
      * left. split; [exact Hn0|]. exists (n - block_end st h).
        split; [left; reflexivity | exact Hfit].
    + rewrite Hv. cbn [negb].
      assert (Hn1 : 0 < n) by (unfold sizeof_header in *; lia).
      assert (Hf' : (length rest < fuel)%nat) by (cbn in Hf; lia).
      destruct (IH n fuel Hn1 Hl Hf') as (a & prev & next & Hfo & Ha & Hlow & Hc).
      exists a, prev, next. split; [exact Hfo|].
      unfold sizeof_header in *. split; [lia|]. split.
      * intros b sz Hin Hlt. cbn [gaps] in Hin. destruct Hin as [Heq|Hin].
        -- inversion Heq; subst. lia.
        -- eapply Hlow; eauto.
      * destruct Hc as [(Hnn & sz & Hin & Hsz)|(Hnn & Hlast & Hall)].
        -- left. split; [exact Hnn|]. exists sz. split; [right; exact Hin | exact Hsz].
        -- right. split; [exact Hnn|]. split; [exact Hlast|].
           intros b sz Hin. cbn [gaps] in Hin. destruct Hin as [Heq|Hin].
           ++ inversion Heq; subst. lia.
           ++ eapply Hall; eauto.
Qed.


Lemma insert_block_done (addr dsize prev next : Z) (st : state) :
  addr <> NULL -> heap_start st <> NULL ->
  exists st', insert_block addr dsize prev next st = Done tt st' /\
              heap_start st' = heap_start st /\ heap_end st' = heap_end st.
Proof.
  intros Ha Hs. unfold insert_block. mred.
  rewrite (eqb_NULL_false _ Ha). mred.
  rewrite (eqb_NULL_false _ Hs). mred.
  destruct (prev =? NULL); mred; eexists; (split; [reflexivity|]);
    proj_red; auto.
Qed.

(** The header [insert_block] writes reads back as written, provided the
    predecessor's header does not overlap it. *)
Lemma insert_block_header (addr dsize prev next : Z) (st st' : state) u :
  insert_block addr dsize prev next st = Done u st' ->
  prev = NULL \/ prev + sizeof_header <= addr \/ addr + sizeof_header <= prev ->
  get_dsize (mem st') addr = wrap64 dsize /\
  get_magic (mem st') addr = MAGIC /\
  get_next (mem st') addr = wrap64 next /\
  (prev <> NULL -> get_next (mem st') prev = wrap64 addr).
Proof.
  intros H Hp. apply insert_block_inv in H.
  destruct H as (_ & _ & _ & _ & _ & Hm). rewrite Hm. cbv zeta.
  unfold sizeof_header in Hp.
  destruct (Z.eqb_spec prev NULL) as [Hn|Hn].
  - split; [|split; [|split]].
    + unfold get_dsize, set_next, set_magic.
      rewrite !load_store_disjoint by (cbn; lia). apply get_set_dsize.
    + unfold get_magic at 1, set_next.
      rewrite load_store_disjoint by (cbn; lia). apply get_set_magic.
    + apply get_set_next.
    + intros; contradiction.
  - destruct Hp as [Hp|Hp]; [contradiction|].
    split; [|split; [|split]].
    + unfold get_dsize, set_next, set_magic.
      rewrite !load_store_disjoint by (cbn; lia). apply get_set_dsize.
    + unfold get_magic at 1, set_next.
      rewrite !load_store_disjoint by (cbn; lia). apply get_set_magic.
    + unfold get_next at 1, set_next at 1.
      rewrite load_store_disjoint by (cbn; lia). apply get_set_next.
    + intros _. apply get_set_next.
Qed.

Lemma find_opening_eq (fuel : nat) (bsize : Z) (st : state) :
  heap_start st <> NULL ->
  find_opening fuel bsize st =
  match find_opening_loop fuel st bsize (heap_start st) with
  | Some o => Done o st
  | None => OutOfFuel
  end.
Proof.
  intros Hs. unfold find_opening. mred.
  rewrite (eqb_NULL_false _ Hs). mred. reflexivity.
Qed.

Lemma custom_malloc_initialised (fuel : nat) (s : Z) (st : state) :
  heap_start st <> NULL ->
  custom_malloc fuel s st
  = malloc_place fuel s (wrap64 (sizeof_header + s)) false st.
Proof.
  intros Hs. unfold custom_malloc. cbv zeta.
  unfold bind at 1. unfold read at 1.
  rewrite (eqb_NULL_false _ Hs). reflexivity.
Qed.

(** ** Failure leaves the heap alone *)

Lemma same_heap_refl (st : state) : same_heap st st.
Proof. unfold same_heap. auto. Qed.

Lemma find_opening_loop_range (fuel : nat) (st : state) (bsize : Z) :
  forall curr a prev next,
    find_opening_loop fuel st bsize curr = Some (Opening a prev next) ->
    0 <= a < 2 ^ 64.
Proof.
  induction fuel as [|n IH]; intros curr a prev next H;
    cbn [find_opening_loop] in H; cbv zeta in H.
  - discriminate.
  - destruct (get_next (mem st) curr =? NULL).
    + inversion H. apply wrap64_range.
    + destruct (bsize <=? _).
      * inversion H. apply wrap64_range.
      * destruct (negb (valid_header st (get_next (mem st) curr)));
          [discriminate | eapply IH; eauto].
Qed.

Lemma wraps_to_null (a : Z) :
  0 <= a < 2 ^ 64 -> wrap64 (a + sizeof_header) = NULL ->
  a = 2 ^ 64 - sizeof_header.
Proof.
  unfold wrap64, NULL, sizeof_header. intros Ha H.
  destruct (Z_lt_ge_dec (a + 24) (2 ^ 64)) as [Hlt|Hge].
  - rewrite Z.mod_small in H by lia. lia.
  - assert (Hm : (a + 24) mod 2 ^ 64 = a + 24 - 2 ^ 64).
    { symmetry. apply (Z.mod_unique_pos _ _ 1); lia. }
    lia.
Qed.

Lemma malloc_place_null (fuel : nat) (s bsize : Z) (ji : bool)
    (st st' : state) :
  malloc_place fuel s bsize ji st = Done NULL st' ->
  heap_start st' = heap_start st /\
  (same_heap st st' \/
   exists prev next,
     find_opening_loop fuel st bsize (heap_start st)
     = Some (Opening (2 ^ 64 - sizeof_header) prev next)).
Proof.
  intros H. unfold malloc_place in H. unfold bind at 1 in H.
  destruct (Z.eq_dec (heap_start st) NULL) as [Hs|Hs].
  { unfold find_opening in H. mred. rewrite Hs in H. discriminate. }
  rewrite (find_opening_eq _ _ _ Hs) in H.
  destruct (find_opening_loop fuel st bsize (heap_start st)) as [o|] eqn:Hfo;
    [|discriminate].
  destruct o as [a prev next|].
  2:{ inversion H; subst. split; [reflexivity | left; apply same_heap_refl]. }
  pose proof (find_opening_loop_range _ _ _ _ _ _ _ Hfo) as Ha.
  destruct (Z.eqb_spec a NULL) as [Ha0|Ha0].
  { inversion H; subst. split; [reflexivity | left; apply same_heap_refl]. }
  unfold bind at 1 in H.
  destruct ((next =? NULL) && negb ji).
  - destruct (expand_heap a bsize st) as [r st1| | |] eqn:Hex; try discriminate.
    apply expand_heap_inv in Hex.
    destruct Hex as (_ & _ & Hst1 & Hm1 & Hcase).
    destruct (Z.eqb_spec r (-1)) as [Hr|Hr].
    + inversion H; subst st1. split; [exact Hst1|]. left.
      unfold same_heap. split; [exact Hst1|]. split; [|exact Hm1].
      destruct Hcase as [(Hr0 & _)|[(_ & _ & He)|(Hr0 & _)]];
        [lia | exact He | lia].
    + unfold bind at 1 in H.
      destruct (insert_block a s prev next st1) as [u st2| | |] eqn:Hib;
        try discriminate.
      apply insert_block_inv in Hib. destruct Hib as (_ & _ & Hst2 & _).
      unfold ret in H. injection H as Hq <-.
      split; [congruence|]. right. exists prev, next.
      rewrite (wraps_to_null a Ha Hq) in *. reflexivity.
  - unfold ret at 1 in H. change (0 =? -1) with false in H. cbv iota in H.
    unfold bind at 1 in H.
    destruct (insert_block a s prev next st) as [u st2| | |] eqn:Hib;
      try discriminate.
    apply insert_block_inv in Hib. destruct Hib as (_ & _ & Hst2 & _).
    unfold ret in H. injection H as Hq <-.
    split; [congruence|]. right. exists prev, next.
    rewrite (wraps_to_null a Ha Hq) in *. reflexivity.
Qed.

Lemma init_heap_inv (bsize : Z) (st st1 : state) u :
  init_heap bsize st = Done u st1 ->
  (heap_start st1 = NULL /\ heap_end st1 = heap_end st /\ mem st1 = mem st)
  \/ heap_start st1 <> NULL.
Proof.
  intros H. unfold init_heap in H. cbv zeta in H.
  unfold bind at 1 in H. unfold call_sbrk in H.
  destruct (sbrk _ (env st)) as [r w].
  unfold bind at 1 in H. unfold set_heap_start at 1 in H.
  destruct (wrap64 r =? MINUS_ONE).
  - unfold set_heap_start in H. injection H as _ <-. left. auto.
  - unfold bind at 1 in H.
    destruct (insert_block _ _ _ _ _) as [u1 st2| | |] eqn:Hib; try discriminate.
    apply insert_block_inv in Hib. proj_red.
    destruct Hib as (Hr0 & _ & Hst2 & _).
    unfold set_heap_end in H. injection H as _ <-. right.
    proj_red. rewrite Hst2. exact Hr0.
Qed.

Lemma malloc_uninitialised_null (fuel : nat) (s : Z) (st st' : state) :
  heap_start st = NULL -> heap_start st' = NULL ->
  custom_malloc fuel s st = Done NULL st' -> same_heap st st'.
Proof.
  intros Hs Hs' H. unfold custom_malloc in H. cbv zeta in H.
  unfold bind at 1 in H. unfold read at 1 in H.
  rewrite Hs in H. change (NULL =? NULL) with true in H. cbv iota in H.
  unfold bind at 1 in H.
  destruct (init_heap _ st) as [u st1| | |] eqn:Hi; try discriminate.
  apply init_heap_inv in Hi.
  unfold bind at 1 in H. unfold read at 1 in H.
  destruct (Z.eqb_spec (heap_start st1) NULL) as [H1|H1].
  - unfold ret in H. injection H as <-.
    destruct Hi as [(A & B & C)|Hi]; [|contradiction].
    unfold same_heap. rewrite Hs. auto.
  - apply malloc_place_null in H. destruct H as [H _]. congruence.
Qed.

Lemma malloc_null_guarded (fuel : nat) (s : Z) (st st' : state) :
  custom_malloc fuel s st = Done NULL st' -> alloc_guard fuel s st st' ->
  same_heap st st'.
Proof.
  intros H [[Hs Hs']|[Hs Hnt]].
  - eapply malloc_uninitialised_null; eauto.
  - rewrite custom_malloc_initialised in H by exact Hs.
    apply malloc_place_null in H.
    destruct H as [_ [H|(prev & next & H)]]; [exact H|].
    exfalso. exact (Hnt prev next H).
Qed.

Lemma realloc_null_unchanged (fuel : nat) (p s : Z) (st st' : state) :
  0 < p < 2 ^ 64 -> s <> 0 ->
  custom_realloc fuel p s st = Done NULL st' -> st' = st.
Proof.
  intros Hp Hs H. pose proof H as H0. unfold custom_realloc in H.
  rewrite (eqb_NULL_false p) in H by (unfold NULL; lia).
  replace (s =? 0) with false in H by (symmetry; apply Z.eqb_neq; exact Hs).
  cbv zeta in H. unfold bind at 1 in H.
  destruct (find_block fuel (wrap64 (p - sizeof_header)) st)
    as [[old prev] st1| | |] eqn:Hfb; try discriminate.
  pose proof (find_block_inv _ _ _ _ _ Hfb) as (-> & _).
  proj_red.
  destruct (Z.eqb_spec old NULL) as [Hn|Hn].
  { unfold ret in H. injection H as <-. reflexivity. }
  destruct (Z.eqb_spec old MINUS_ONE) as [Hm|Hm].
  { unfold ret in H. injection H as <-. reflexivity. }
  destruct (realloc_in_place fuel p s old prev st st Hp Hs Hfb Hn Hm)
    as (st1 & _ & Hre & _).
  rewrite Hre in H0. injection H0 as Hp0 _. unfold NULL in Hp0. lia.
Qed.

(** C2, amended: a call that reports failure leaves [heap_start],
    [heap_end] and every byte of memory as they were: [custom_malloc]
    returning null (on a heap that stays uninitialised, or on an initialised
    one whose placement search stays below the top of the address space),
    [custom_realloc] with a non-zero size returning null, and [custom_free]
    declining to act. *)
Theorem failure_preserves_heap (fuel : nat) (st st' : state) :
  failed_call fuel st st' -> same_heap st st'.
Proof.
  intros [s H G|p s Hp Hs H G|p Hr H].
  - eapply malloc_null_guarded; eauto.
  - destruct (Z.eq_dec p NULL) as [Hp0|Hp0].
    + subst p. unfold custom_realloc in H.
      change (NULL =? NULL) with true in H. cbv iota in H.
      eapply malloc_null_guarded; eauto.
    + assert (Hp' : 0 < p < 2 ^ 64) by (unfold NULL in Hp0; lia).
      rewrite (realloc_null_unchanged fuel p s st st' Hp' Hs H).
      apply same_heap_refl.
  - rewrite (custom_free_refuses fuel p st Hr) in H.
    injection H as <-. apply same_heap_refl.
Qed.

(** An uncorrupted heap that ends below the top of the address space meets
    the side condition of [alloc_guard]. *)
Lemma uncorrupted_no_top_opening (fuel : nat) (s : Z) (st : state)
    (rest : list Z) :
  uncorrupted st rest -> heap_end st < 2 ^ 64 - sizeof_header ->
  (length rest < fuel)%nat -> no_top_opening fuel s st.
Proof.
  intros (Hs & He & Hl) Hb Hf prev next H.
  destruct (find_opening_layout st (wrap64 (sizeof_header + s)) He rest
              (heap_start st) fuel Hs Hl Hf)
    as (a & prev' & next' & Hfo & Ha & _).
  rewrite Hfo in H. injection H as Ha0 _ _.
  unfold sizeof_header in *. lia.
Qed.


(** ** The copy branch of resize *)

Lemma copied_inside (m : memory) (dst src n x : Z) :
  dst <= x < dst + n -> copied m dst src n x = m (src + (x - dst)).
Proof.
  intros H. unfold copied.
  destruct (Z.leb_spec dst x); [|lia].
  destruct (Z.ltb_spec x (dst + n)); [reflexivity | lia].
Qed.

Lemma copied_outside (m : memory) (dst src n x : Z) :
  x < dst \/ dst + n <= x -> copied m dst src n x = m x.
Proof.
  intros H. unfold copied.
  destruct (Z.leb_spec dst x); [|reflexivity].
  destruct (Z.ltb_spec x (dst + n)); [lia | reflexivity].
Qed.

(** What the [else] branch does when it runs: a block of [s] bytes from
    [custom_malloc], null and nothing else when that fails; otherwise
    [old->dsize] bytes, read after the allocation, copied from [p] to the
    new data (the process is killed when source or destination is not
    accessible), [p] released with [custom_free], the new pointer
    returned. *)
Lemma realloc_copy_steps (fuel : nat) (p s old new : Z)
    (st st1 : state) :
  custom_malloc fuel s st = Done new st1 ->
  (new = NULL -> realloc_copy fuel p s old st = Done NULL st1) /\
  (new <> NULL ->
   let n := get_dsize (mem st1) old in
   if (n =? 0) || (accessible (env st1) new n && accessible (env st1) p n)
   then
     exists st2,
       heap_start st2 = heap_start st1 /\ heap_end st2 = heap_end st1 /\
       env st2 = env st1 /\
       (forall i, 0 <= i < n -> mem st2 (new + i) = mem st1 (p + i)) /\
       (forall x, x < new \/ new + n <= x -> mem st2 x = mem st1 x) /\
       realloc_copy fuel p s old st =
       match custom_free fuel p st2 with
       | Done _ st3 => Done new st3
       | Abort => Abort
       | OutOfFuel => OutOfFuel
       | Fault => Fault
       end
   else realloc_copy fuel p s old st = Fault).
Proof.
  intros Hm. split.
  - intros ->. unfold realloc_copy. unfold bind at 1. rewrite Hm. reflexivity.
  - intros Hn. cbv zeta.
    assert (Hrc : realloc_copy fuel p s old st =
                  match memcpy new p (get_dsize (mem st1) old) st1 with
                  | Done _ st2 =>
                      match custom_free fuel p st2 with
                      | Done _ st3 => Done new st3
                      | Abort => Abort
                      | OutOfFuel => OutOfFuel
                      | Fault => Fault
                      end
                  | Abort => Abort
                  | OutOfFuel => OutOfFuel
                  | Fault => Fault
                  end).
    { unfold realloc_copy. unfold bind at 1. rewrite Hm.
      rewrite (eqb_NULL_false _ Hn).
      unfold bind at 1. unfold read at 1.
      unfold bind at 1.
      destruct (memcpy new p (get_dsize (mem st1) old) st1); reflexivity. }
    rewrite Hrc. unfold memcpy.
    destruct ((get_dsize (mem st1) old =? 0)
              || (accessible (env st1) new (get_dsize (mem st1) old)
                  && accessible (env st1) p (get_dsize (mem st1) old)));
      [|reflexivity].
    exists (mkState (heap_start st1) (heap_end st1)
              (copied (mem st1) new p (get_dsize (mem st1) old)) (env st1)).
    proj_red. repeat (split; [reflexivity|]). split; [|split].
    + intros i Hi. rewrite copied_inside by lia. f_equal. lia.
    + intros x Hx. apply copied_outside. exact Hx.
    + reflexivity.
Qed.

Lemma run_done {A} (c : M A) (st : state) (a : A) :
  is_done c st = true -> returned c st a = a ->
  c st = Done a (final_state c st).
Proof.
  unfold is_done, returned, final_state.
  destruct (c st); intros H1 H2; try discriminate. subst. reflexivity.
Qed.

(** * More of the allocator *)

(** ** Memory frames *)

Lemma get_dsize_frame (m m' : memory) (k : Z) :
  (forall x, k <= x < k + 8 -> m' x = m x) -> get_dsize m' k = get_dsize m k.
Proof.
  intros H. unfold get_dsize. apply load_le_ext.
  intros x Hx. apply H. change (Z.of_nat 8) with 8 in Hx. lia.
Qed.

Lemma get_magic_frame (m m' : memory) (k : Z) :
  (forall x, k + 8 <= x < k + 12 -> m' x = m x) ->
  get_magic m' k = get_magic m k.
Proof.
  intros H. unfold get_magic. apply load_le_ext.
  intros x Hx. apply H. change (Z.of_nat 4) with 4 in Hx. lia.
Qed.

Lemma get_next_frame (m m' : memory) (k : Z) :
  (forall x, k + 16 <= x < k + 24 -> m' x = m x) ->
  get_next m' k = get_next m k.
Proof.
  intros H. unfold get_next. apply load_le_ext.
  intros x Hx. apply H. change (Z.of_nat 8) with 8 in Hx. lia.
Qed.

Lemma set_next_other (m : memory) (k v x : Z) :
  x < k + 16 \/ k + 24 <= x -> set_next m k v x = m x.
Proof.
  intros H. unfold set_next. apply store_le_other.
  change (Z.of_nat 8) with 8. lia.
Qed.

Lemma set_dsize_other (m : memory) (k v x : Z) :
  x < k \/ k + 8 <= x -> set_dsize m k v x = m x.
Proof.
  intros H. unfold set_dsize. apply store_le_other.
  change (Z.of_nat 8) with 8. lia.
Qed.

Lemma set_magic_other (m : memory) (k v x : Z) :
  x < k + 8 \/ k + 12 <= x -> set_magic m k v x = m x.
Proof.
  intros H. unfold set_magic. apply store_le_other.
  change (Z.of_nat 4) with 4. lia.
Qed.

Lemma insert_block_frame (addr dsize prev next : Z) (st st' : state) u :
  insert_block addr dsize prev next st = Done u st' ->
  forall x,
    x < addr \/ addr + sizeof_header <= x ->
    prev = NULL \/ x < prev + 16 \/ prev + sizeof_header <= x ->
    mem st' x = mem st x.
Proof.
  intros H x Ha Hp. apply insert_block_inv in H.
  destruct H as (_ & _ & _ & _ & _ & Hm). rewrite Hm. cbv zeta.
  unfold sizeof_header in *.
  assert (Hin : set_next (set_magic (set_dsize (mem st) addr dsize) addr MAGIC)
                  addr next x = mem st x).
  { rewrite set_next_other by lia. rewrite set_magic_other by lia.
    apply set_dsize_other. lia. }
  destruct (Z.eqb_spec prev NULL) as [Hn|Hn]; [exact Hin|].
  rewrite set_next_other; [exact Hin|].
  destruct Hp as [Hp|Hp]; [contradiction | lia].
Qed.

(** ** Order of the headers of an uncorrupted heap *)

Lemma layout_In_above (st : state) (rest : list Z) : forall h k,
  layout st h rest = true -> In k rest -> block_end st h <= k.
Proof.
  induction rest as [|n rest IH]; intros h k Hl Hin; [contradiction|].
  apply layout_cons in Hl. destruct Hl as (_ & _ & _ & Hle & Hl).
  destruct Hin as [->|Hin]; [exact Hle|].
  specialize (IH n k Hl Hin). pose proof (block_end_lower st n).
  unfold sizeof_header in *. lia.
Qed.

Lemma layout_In_valid (st : state) (rest : list Z) : forall h k,
  layout st h rest = true -> In k rest ->
  k <> NULL /\ valid_header st k = true.
Proof.
  induction rest as [|n rest IH]; intros h k Hl Hin; [contradiction|].
  apply layout_cons in Hl. destruct Hl as (_ & Hn & Hv & _ & Hl).
  destruct Hin as [->|Hin]; [auto | eapply IH; eauto].
Qed.

Lemma layout_In_block_end (st : state) (rest : list Z) : forall h k,
  layout st h rest = true -> In k (h :: rest) -> block_end st k <= heap_end st.
Proof.
  induction rest as [|n rest IH]; intros h k Hl Hin.
  - destruct Hin as [<-|[]]. apply layout_nil in Hl. tauto.
  - destruct Hin as [<-|Hin].
    + eapply layout_block_end_le; eauto.
    + apply layout_cons in Hl. destruct Hl as (_ & _ & _ & _ & Hl).
      eapply IH; eauto.
Qed.

Lemma valid_header_bounds (st : state) (k : Z) :
  sizeof_header <= heap_end st < 2 ^ 64 ->
  k <> NULL -> valid_header st k = true ->
  heap_start st <= k /\ k + sizeof_header <= heap_end st /\
  get_magic (mem st) k = MAGIC.
Proof.
  intros He Hk Hv. unfold valid_header in Hv.
  rewrite (eqb_NULL_false _ Hk) in Hv.
  rewrite wrap64_small in Hv by (unfold sizeof_header in *; lia).
  destruct (Z.leb_spec (heap_start st) k); cbn [andb] in Hv; [|discriminate].
  destruct (Z.leb_spec k (heap_end st - sizeof_header)); [|discriminate].
  apply Z.eqb_eq in Hv. repeat split; auto; lia.
Qed.

Lemma valid_header_intro (st : state) (k : Z) :
  sizeof_header <= heap_end st < 2 ^ 64 ->
  heap_start st <= k -> k + sizeof_header <= heap_end st ->
  get_magic (mem st) k = MAGIC -> valid_header st k = true.
Proof.
  intros He H1 H2 Hm. unfold valid_header.
  destruct (k =? NULL); [reflexivity|].
  rewrite wrap64_small by (unfold sizeof_header in *; lia).
  destruct (Z.leb_spec (heap_start st) k); [|lia].
  destruct (Z.leb_spec k (heap_end st - sizeof_header)); [|lia].
  cbn [andb]. apply Z.eqb_eq. exact Hm.
Qed.

Lemma valid_header_frame (st st' : state) (k : Z) :
  heap_start st' = heap_start st ->
  sizeof_header <= heap_end st -> heap_end st <= heap_end st' ->
  heap_end st' < 2 ^ 64 ->
  get_magic (mem st') k = get_magic (mem st) k ->
  valid_header st k = true -> valid_header st' k = true.
Proof.
  intros Hs He1 He2 He3 Hm Hv.
  destruct (Z.eq_dec k NULL) as [->|Hk]; [reflexivity|].
  assert (He : sizeof_header <= heap_end st < 2 ^ 64) by lia.
  destruct (valid_header_bounds st k He Hk Hv) as (A & B & C).
  apply valid_header_intro; lia.
Qed.

(** A heap that agrees with [st] on the globals (the end may have moved up)
    and on every byte from [h] upwards has the same header list from [h]. *)
Lemma layout_above (st st' : state) (rest : list Z) : forall h,
  heap_start st' = heap_start st ->
  heap_end st <= heap_end st' -> heap_end st' < 2 ^ 64 ->
  0 <= h ->
  (forall x, h <= x -> mem st' x = mem st x) ->
  layout st h rest = true -> layout st' h rest = true.
Proof.
  induction rest as [|n rest IH]; intros h Hs He1 He2 Hh Hm Hl.
  - apply layout_nil in Hl. destruct Hl as [Hn Hle].
    cbn [layout]. unfold block_end in *.
    rewrite (get_next_frame (mem st)) by (intros; apply Hm; lia).
    rewrite (get_dsize_frame (mem st)) by (intros; apply Hm; lia).
    rewrite Hn. cbn [andb Z.eqb NULL]. apply Z.leb_le. lia.
  - pose proof (layout_block_end_le _ _ _ Hl) as Hbe.
    pose proof (block_end_lower st h) as Hlo.
    apply layout_cons in Hl. destruct Hl as (Hn & Hn0 & Hv & Hle & Hl).
    cbn [layout]. unfold block_end in *.
    rewrite (get_next_frame (mem st)) by (intros; apply Hm; lia).
    rewrite (get_dsize_frame (mem st)) by (intros; apply Hm; lia).
    rewrite Hn, Z.eqb_refl, (eqb_NULL_false _ Hn0). cbn [negb andb].
    unfold sizeof_header in *.
    rewrite (valid_header_frame st st' n); auto; try (unfold sizeof_header; lia).
    2:{ apply get_magic_frame. intros; apply Hm; lia. }
    cbn [andb].
    replace (h + 24 + get_dsize (mem st) h <=? n) with true
      by (symmetry; apply Z.leb_le; lia).
    cbn [andb]. apply IH; auto; try lia.
    intros x Hx. apply Hm. lia.
Qed.

Lemma get_next_range (m : memory) (h : Z) : 0 <= get_next m h < 2 ^ 64.
Proof. apply (load_le_range m 8 (h + 16)). Qed.

Lemma layout_cons_intro (st : state) (h n : Z) (rest : list Z) :
  get_next (mem st) h = n -> n <> NULL -> valid_header st n = true ->
  block_end st h <= n -> layout st n rest = true ->
  layout st h (n :: rest) = true.
Proof.
  intros H1 H2 H3 H4 H5. cbn [layout].
  rewrite H1, Z.eqb_refl, (eqb_NULL_false _ H2), H3, H5.
  replace (block_end st h <=? n) with true by (symmetry; apply Z.leb_le; exact H4).
  reflexivity.
Qed.

Lemma layout_nil_intro (st : state) (h : Z) :
  get_next (mem st) h = NULL -> block_end st h <= heap_end st ->
  layout st h [] = true.
Proof.
  intros H1 H2. cbn [layout]. rewrite H1.
  replace (block_end st h <=? heap_end st) with true
    by (symmetry; apply Z.leb_le; exact H2).
  reflexivity.
Qed.

(** ** Block lookup on an uncorrupted heap *)

Lemma find_block_eq (fuel : nat) (target : Z) (st : state) :
  heap_start st <> NULL -> target <> NULL ->
  find_block fuel target st =
  match find_block_loop fuel st target (heap_start st) None with
  | Some r => Done r st
  | None => OutOfFuel
  end.
Proof.
  intros Hs Ht. unfold find_block. mred.
  rewrite (eqb_NULL_false _ Hs). mred.
  rewrite (eqb_NULL_false _ Ht). mred. reflexivity.
Qed.

Lemma find_block_loop_layout (st : state) (target : Z) :
  forall rest h fuel prev0,
    layout st h rest = true -> h <> NULL -> (length rest + 1 < fuel)%nat ->
    find_block_loop fuel st target h prev0 =
    if h =? target then Some (h, prev0)
    else if existsb (Z.eqb target) rest
         then Some (target, Some (pred_of target h rest))
         else Some (NULL, Some (last_header h rest)).
Proof.
  induction rest as [|n rest IH]; intros h fuel prev0 Hl Hh Hf.
  - destruct fuel as [|[|fuel]]; [cbn in Hf; lia | cbn in Hf; lia |].
    apply layout_nil in Hl. destruct Hl as [Hn _].
    cbn [find_block_loop]. cbv zeta.
    rewrite (eqb_NULL_false _ Hh).
    destruct (h =? target); [reflexivity|].
    rewrite Hn. reflexivity.
  - destruct fuel as [|fuel]; [cbn in Hf; lia|].
    apply layout_cons in Hl. destruct Hl as (Hn & Hn0 & Hv & _ & Hl).
    cbn [find_block_loop]. cbv zeta.
    rewrite (eqb_NULL_false _ Hh).
    destruct (h =? target); [reflexivity|].
    rewrite Hn, Hv. cbn [negb].
    rewrite (IH n fuel (Some h) Hl Hn0) by (cbn in Hf; lia).
    cbn [existsb pred_of last_header].
    rewrite (Z.eqb_sym target n).
    destruct (Z.eqb_spec n target) as [->|Hne]; reflexivity.
Qed.

Lemma existsb_eqb_In (target : Z) (l : list Z) :
  existsb (Z.eqb target) l = true <-> In target l.
Proof.
  rewrite existsb_exists. split.
  - intros (x & Hin & Hx). apply Z.eqb_eq in Hx. subst. exact Hin.
  - intros H. exists target. split; [exact H | apply Z.eqb_refl].
Qed.

Lemma pred_of_In (st : state) (target : Z) (rest : list Z) : forall h,
  layout st h rest = true -> In target rest ->
  In (pred_of target h rest) (h :: rest) /\
  get_next (mem st) (pred_of target h rest) = target.
Proof.
  induction rest as [|n rest IH]; intros h Hl Hin; [contradiction|].
  apply layout_cons in Hl. destruct Hl as (Hn & _ & _ & _ & Hl).
  cbn [pred_of].
  destruct (Z.eqb_spec n target) as [->|Hne].
  - split; [left; reflexivity | exact Hn].
  - destruct Hin as [Heq|Hin]; [contradiction|].
    destruct (IH n Hl Hin) as [A B]. split; [right; exact A | exact B].
Qed.

Lemma uncorrupted_In (st : state) (rest : list Z) (k : Z) :
  uncorrupted st rest -> In k rest ->
  heap_start st + sizeof_header <= k /\ k + sizeof_header <= heap_end st /\
  get_magic (mem st) k = MAGIC.
Proof.
  intros (Hs & He & Hl) Hin.
  pose proof (layout_In_above _ _ _ _ Hl Hin) as Ha.
  pose proof (block_end_lower st (heap_start st)) as Hlo.
  pose proof (layout_block_end_le _ _ _ Hl) as Hbe.
  destruct (layout_In_valid _ _ _ _ Hl Hin) as [Hk Hv].
  destruct (valid_header_bounds st k) as (A & B & C); auto.
  { unfold sizeof_header in *. lia. }
  unfold sizeof_header in *. repeat split; lia.
Qed.

Lemma find_block_uncorrupted (fuel : nat) (target : Z) (st : state)
    (rest : list Z) :
  uncorrupted st rest -> target <> NULL -> (length rest + 1 < fuel)%nat ->
  (target = heap_start st ->
   find_block fuel target st = Done (target, None) st) /\
  (In target rest ->
   find_block fuel target st
   = Done (target, Some (pred_of target (heap_start st) rest)) st) /\
  (target <> heap_start st -> ~ In target rest ->
   find_block fuel target st
   = Done (NULL, Some (last_header (heap_start st) rest)) st).
Proof.
  intros Hu Ht Hf. pose proof Hu as (Hs & He & Hl).
  assert (Hsn : heap_start st <> NULL) by (unfold NULL; lia).
  rewrite (find_block_eq _ _ _ Hsn Ht).
  rewrite (find_block_loop_layout st target rest (heap_start st) fuel None
             Hl Hsn Hf).
  split; [|split].
  - intros ->. rewrite Z.eqb_refl. reflexivity.
  - intros Hin.
    pose proof (uncorrupted_In _ _ _ Hu Hin) as (A & _).
    destruct (Z.eqb_spec (heap_start st) target) as [Heq|_].
    { unfold sizeof_header in A. lia. }
    apply existsb_eqb_In in Hin. rewrite Hin. reflexivity.
  - intros Hne Hnin.
    destruct (Z.eqb_spec (heap_start st) target) as [Heq|_]; [congruence|].
    destruct (existsb (Z.eqb target) rest) eqn:Hex; [|reflexivity].
    apply existsb_eqb_In in Hex. contradiction.
Qed.

(** ** Release on an uncorrupted heap *)

Lemma layout_unlink (st st' : state) (target : Z) :
  heap_start st' = heap_start st -> heap_end st' = heap_end st ->
  heap_end st < 2 ^ 64 ->
  forall rest h,
    0 <= h -> layout st h rest = true -> In target rest ->
    (forall x, x < pred_of target h rest + 16
               \/ pred_of target h rest + 24 <= x -> mem st' x = mem st x) ->
    get_next (mem st') (pred_of target h rest) = get_next (mem st) target ->
    layout st' h (unlink target rest) = true.
Proof.
  intros Hs He He2.
  induction rest as [|n rest IH]; intros h Hh Hl Hin F1 F2; [contradiction|].
  pose proof (layout_block_end_le _ _ _ Hl) as Hbe.
  pose proof (block_end_lower st h) as Hlo.
  pose proof (block_end_lower st n) as Hlon.
  apply layout_cons in Hl. destruct Hl as (Hn & Hn0 & Hv & Hle & Hl).
  assert (Hd : forall pv, h + 16 <= pv + 16 ->
                 (forall x, x < pv + 16 \/ pv + 24 <= x -> mem st' x = mem st x) ->
                 block_end st' h = block_end st h).
  { intros pv Hpv F. unfold block_end. f_equal.
    apply get_dsize_frame. intros x Hx. apply F. lia. }
  unfold sizeof_header in *.
  cbn [unlink pred_of] in *.
  destruct (Z.eqb_spec n target) as [Heq|Hne].
  - subst target. clear IH.
    destruct rest as [|m rest].
    + apply layout_nil in Hl. destruct Hl as [Hnn _].
      apply layout_nil_intro; [congruence|].
      rewrite (Hd h) by (auto; lia). lia.
    + pose proof (layout_block_end_le _ _ _ Hl) as Hbet.
      apply layout_cons in Hl. destruct Hl as (Hm & Hm0 & Hvm & Hlem & Hlm).
      apply layout_cons_intro; auto.
      * congruence.
      * apply (valid_header_frame st st' m Hs);
          [unfold sizeof_header; lia | lia | lia | | exact Hvm].
        apply get_magic_frame. intros x Hx. apply F1. lia.
      * rewrite (Hd h) by (auto; lia). lia.
      * apply (layout_above st st'); auto; try lia.
        intros x Hx. apply F1. lia.
  - destruct Hin as [Heq|Hin]; [contradiction|].
    destruct (pred_of_In st target rest n Hl Hin) as [Hpin _].
    assert (Hpv : n <= pred_of target n rest).
    { destruct Hpin as [<-|Hpin]; [lia|].
      pose proof (layout_In_above _ _ _ _ Hl Hpin). lia. }
    assert (Hpv' : pred_of target n rest = n \/ n + 24 <= pred_of target n rest).
    { destruct Hpin as [<-|Hpin]; [auto|].
      pose proof (layout_In_above _ _ _ _ Hl Hpin). lia. }
    apply layout_cons_intro; auto.
    + rewrite <- Hn. apply get_next_frame. intros x Hx. apply F1. lia.
    + apply (valid_header_frame st st' n Hs);
        [unfold sizeof_header; lia | lia | lia | | exact Hv].
      apply get_magic_frame. intros x Hx. apply F1. lia.
    + rewrite (Hd (pred_of target n rest)) by (auto; lia). lia.
    + apply IH; auto. lia.
Qed.

Lemma unlink_not_In (st : state) (target : Z) (rest : list Z) : forall h,
  layout st h rest = true -> ~ In target (unlink target rest).
Proof.
  induction rest as [|n rest IH]; intros h Hl Hin; [contradiction|].
  apply layout_cons in Hl. destruct Hl as (_ & _ & _ & _ & Hl).
  cbn [unlink] in Hin.
  destruct (Z.eqb_spec n target) as [->|Hne].
  - pose proof (layout_In_above _ _ _ _ Hl Hin).
    pose proof (block_end_lower st target). unfold sizeof_header in *. lia.
  - destruct Hin as [Heq|Hin]; [contradiction|]. eapply IH; eauto.
Qed.

Lemma length_unlink (target : Z) (rest : list Z) :
  (length (unlink target rest) <= length rest)%nat.
Proof.
  induction rest as [|n rest IH]; cbn [unlink length]; [lia|].
  destruct (n =? target); cbn [length]; lia.
Qed.

(** The block at [target] is taken out of the list by rewriting the [next]
    of the header in front of it, and nothing else. *)
Lemma custom_free_unlinks (fuel : nat) (target : Z) (st : state)
    (rest : list Z) :
  uncorrupted st rest -> In target rest -> (length rest + 1 < fuel)%nat ->
  exists st',
    custom_free fuel (target + sizeof_header) st = Done tt st' /\
    heap_start st' = heap_start st /\ heap_end st' = heap_end st /\
    env st' = env st /\
    (forall x, x < pred_of target (heap_start st) rest + 16
               \/ pred_of target (heap_start st) rest + 24 <= x ->
               mem st' x = mem st x) /\
    get_next (mem st') (pred_of target (heap_start st) rest)
    = get_next (mem st) target /\
    uncorrupted st' (unlink target rest).
Proof.
  intros Hu Hin Hf. pose proof Hu as (Hs & He & Hl).
  pose proof (uncorrupted_In _ _ _ Hu Hin) as (A & B & _).
  unfold sizeof_header in A, B.
  assert (Ht : target <> NULL) by (unfold NULL; lia).
  assert (Hw : wrap64 (target + sizeof_header - sizeof_header) = target).
  { replace (target + sizeof_header - sizeof_header) with target by lia.
    apply wrap64_small. lia. }
  destruct (find_block_uncorrupted fuel target st rest Hu Ht Hf)
    as (_ & Hfb & _).
  specialize (Hfb Hin).
  set (pv := pred_of target (heap_start st) rest) in *.
  exists (mkState (heap_start st) (heap_end st)
            (set_next (mem st) pv (get_next (mem st) target)) (env st)).
  assert (F1 : forall x, x < pv + 16 \/ pv + 24 <= x ->
                 set_next (mem st) pv (get_next (mem st) target) x = mem st x).
  { intros x Hx. apply set_next_other. exact Hx. }
  assert (F2 : get_next (set_next (mem st) pv (get_next (mem st) target)) pv
               = get_next (mem st) target).
  { rewrite get_set_next. apply wrap64_small. apply get_next_range. }
  proj_red. split; [|repeat (split; [reflexivity|]); split; [exact F1|];
                     split; [exact F2|]].
  - unfold custom_free.
    rewrite (eqb_NULL_false (target + sizeof_header))
      by (unfold NULL, sizeof_header; lia).
    unfold bind at 1. unfold read at 1. rewrite Hw.
    rewrite (eqb_NULL_false (heap_start st)) by (unfold NULL; lia).
    replace (target =? heap_start st) with false
      by (symmetry; apply Z.eqb_neq; lia).
    cbn [orb]. cbv zeta. unfold bind at 1. rewrite Hfb.
    rewrite (eqb_NULL_false _ Ht).
    replace (target =? MINUS_ONE) with false
      by (symmetry; apply Z.eqb_neq; unfold MINUS_ONE; lia).
    reflexivity.
  - split; [exact Hs|]. split; [exact He|]. proj_red.
    apply (layout_unlink st _ target); auto; lia.
Qed.

(** ** Allocation on an uncorrupted heap *)

Lemma layout_succ (st : state) (rest : list Z) : forall h p k,
  layout st h rest = true -> In p (h :: rest) -> In k (h :: rest) -> p < k ->
  get_next (mem st) p <> NULL /\
  block_end st p <= get_next (mem st) p /\ get_next (mem st) p <= k.
Proof.
  induction rest as [|n rest IH]; intros h p k Hl Hp Hk Hlt.
  - destruct Hp as [<-|[]]. destruct Hk as [<-|[]]. lia.
  - pose proof (block_end_lower st h) as Hlo.
    pose proof (block_end_lower st n) as Hlon.
    assert (Habove : forall q, In q (n :: rest) -> block_end st h <= q)
      by (intros q Hq; eapply layout_In_above; eauto).
    apply layout_cons in Hl. destruct Hl as (Hn & Hn0 & _ & Hle & Hl).
    unfold sizeof_header in *.
    destruct Hp as [<-|Hp].
    + destruct Hk as [<-|Hk]; [lia|].
      rewrite Hn. split; [exact Hn0|]. split; [exact Hle|].
      destruct Hk as [<-|Hk]; [lia|].
      pose proof (layout_In_above _ _ _ _ Hl Hk). lia.
    + destruct Hk as [<-|Hk].
      * pose proof (Habove p Hp). lia.
      * eapply IH; eauto.
Qed.

Lemma find_opening_prev (st : state) (bsize : Z) :
  heap_end st < 2 ^ 64 ->
  forall rest h fuel a prev next,
    0 < h -> layout st h rest = true ->
    find_opening_loop fuel st bsize h = Some (Opening a prev next) ->
    In prev (h :: rest) /\ a = block_end st prev /\
    next = get_next (mem st) prev /\ (next <> NULL -> a + bsize <= next).
Proof.
  intros Hhe. induction rest as [|n rest IH];
    intros h fuel a prev next Hh Hl Hfo.
  - destruct fuel as [|fuel]; [discriminate|].
    apply layout_nil in Hl. destruct Hl as [Hn Hle].
    pose proof (get_dsize_range (mem st) h) as Hd.
    assert (Hbe : wrap64 (h + wrap64 (sizeof_header + get_dsize (mem st) h))
                  = block_end st h).
    { unfold block_end in *. unfold sizeof_header in *.
      rewrite (wrap64_small (24 + _)) by lia.
      rewrite wrap64_small by lia. lia. }
    cbn [find_opening_loop] in Hfo. cbv zeta in Hfo.
    rewrite Hn, Z.eqb_refl, Hbe in Hfo.
    assert (Ha : a = block_end st h) by congruence.
    assert (Hp : prev = h) by congruence.
    assert (Hx : next = NULL) by congruence.
    subst a prev next.
    split; [left; reflexivity|]. split; [reflexivity|].
    split; [congruence | intros; contradiction].
  - destruct fuel as [|fuel]; [discriminate|].
    pose proof (layout_block_end_le _ _ _ Hl) as Hle0.
    apply layout_cons in Hl. destruct Hl as (Hn & Hn0 & Hv & Hle & Hl).
    pose proof (layout_block_end_le _ _ _ Hl) as Hlen.
    pose proof (block_end_lower st n) as Hbn.
    pose proof (block_end_lower st h) as Hbh.
    pose proof (get_dsize_range (mem st) h) as Hd.
    assert (Hbe : wrap64 (h + wrap64 (sizeof_header + get_dsize (mem st) h))
                  = block_end st h).
    { unfold block_end in *. unfold sizeof_header in *.
      rewrite (wrap64_small (24 + _)) by lia.
      rewrite wrap64_small by lia. lia. }
    assert (Hos : wrap64 (n - block_end st h) = n - block_end st h).
    { apply wrap64_small. unfold sizeof_header in *. lia. }
    cbn [find_opening_loop] in Hfo. cbv zeta in Hfo.
    rewrite Hn, (eqb_NULL_false _ Hn0), Hbe, Hos in Hfo.
    destruct (Z.leb_spec bsize (n - block_end st h)) as [Hfit|Hsmall].
    + assert (Ha : a = block_end st h) by congruence.
      assert (Hp : prev = h) by congruence.
      assert (Hx : next = n) by congruence.
      subst a prev next.
      split; [left; reflexivity|]. split; [reflexivity|].
      split; [congruence | intros _; lia].
    + rewrite Hv in Hfo. cbn [negb] in Hfo.
      assert (Hn1 : 0 < n) by (unfold sizeof_header in *; lia).
      destruct (IH n fuel a prev next Hn1 Hl Hfo) as (A & B & C & D).
      split; [right; exact A | auto].
Qed.

(** Linking a new header [a] of size [s] at the end of the block of [prev]
    keeps the list well formed, when the block fits in front of what follows
    and only the new header and the [next] of [prev] were written. *)
Lemma layout_insert (st st' : state) (s a prev next : Z) :
  heap_start st' = heap_start st ->
  heap_end st <= heap_end st' -> heap_end st' < 2 ^ 64 -> 0 <= s ->
  a = block_end st prev -> next = get_next (mem st) prev ->
  (next <> NULL -> a + sizeof_header + s <= next) ->
  (next = NULL -> a + sizeof_header + s <= heap_end st') ->
  (forall x, x < a \/ a + 24 <= x -> x < prev + 16 \/ prev + 24 <= x ->
             mem st' x = mem st x) ->
  get_dsize (mem st') a = s -> get_magic (mem st') a = MAGIC ->
  get_next (mem st') a = next -> get_next (mem st') prev = a ->
  forall rest h,
    0 < h -> heap_start st <= h -> layout st h rest = true ->
    In prev (h :: rest) ->
    layout st' h (insert_after prev a h rest) = true.
Proof.
  intros Hs He1 He2 Hs0 Ha Hnx Hfit Hlast F1 Fd Fm Fn Fp.
  pose proof (block_end_lower st prev) as Hlop.
  induction rest as [|n rest IH]; intros h Hh Hhs Hl Hin.
  - destruct Hin as [<-|[]].
    cbn [insert_after]. rewrite Z.eqb_refl.
    pose proof (layout_nil _ _ Hl) as [Hn Hle].
    assert (Hnull : next = NULL) by congruence.
    specialize (Hlast Hnull). unfold sizeof_header in *.
    assert (Hbe : block_end st' h = a).
    { rewrite Ha. unfold block_end. f_equal.
      apply get_dsize_frame. intros x Hx. apply F1; lia. }
    apply layout_cons_intro; auto.
    + unfold NULL; lia.
    + apply valid_header_intro; unfold sizeof_header; try lia.
    + lia.
    + apply layout_nil_intro; [congruence|].
      unfold block_end, sizeof_header. lia.
  - pose proof (layout_block_end_le _ _ _ Hl) as Hle0.
    pose proof (block_end_lower st h) as Hloh.
    pose proof (block_end_lower st n) as Hlon.
    pose proof (layout_cons _ _ _ _ Hl) as (Hn & Hn0 & Hv & Hle & Hl').
    pose proof (layout_block_end_le _ _ _ Hl') as Hlen.
    assert (Hvb : heap_start st <= n /\ n + sizeof_header <= heap_end st /\
                  get_magic (mem st) n = MAGIC).
    { apply valid_header_bounds; auto. unfold sizeof_header in *. lia. }
    destruct Hvb as (Hvb1 & Hvb2 & Hvb3).
    unfold sizeof_header in *.
    cbn [insert_after].
    destruct (Z.eqb_spec h prev) as [Heq|Hne].
    + subst h.
      assert (Hnn : next = n) by congruence.
      assert (Hnz : next <> NULL) by congruence.
      specialize (Hfit Hnz).
      assert (Hbe : block_end st' prev = a).
      { rewrite Ha. unfold block_end. f_equal.
        apply get_dsize_frame. intros x Hx. apply F1; lia. }
      apply layout_cons_intro; auto.
      * unfold NULL; lia.
      * apply valid_header_intro; unfold sizeof_header; try lia.
      * lia.
      * apply layout_cons_intro; auto.
        -- congruence.
        -- apply (valid_header_frame st st' n Hs);
             [unfold sizeof_header; lia | lia | lia | | exact Hv].
           apply get_magic_frame. intros x Hx. apply F1; lia.
        -- unfold block_end, sizeof_header. lia.
        -- apply (layout_above st st'); auto; try lia.
           intros x Hx. apply F1; lia.
    + destruct Hin as [Heq|Hin]; [contradiction|].
      assert (Hpn : prev = n \/ n + 24 <= prev).
      { destruct Hin as [<-|Hin]; [auto|].
        pose proof (layout_In_above _ _ _ _ Hl' Hin). lia. }
      apply layout_cons_intro; auto.
      * rewrite <- Hn. apply get_next_frame. intros x Hx. apply F1; lia.
      * apply (valid_header_frame st st' n Hs);
          [unfold sizeof_header; lia | lia | lia | | exact Hv].
        apply get_magic_frame. intros x Hx. apply F1; lia.
      * replace (block_end st' h) with (block_end st h); [lia|].
        unfold block_end. f_equal. symmetry.
        apply get_dsize_frame. intros x Hx. apply F1; lia.
      * apply IH; auto; lia.
Qed.

Lemma layout_next_In (st : state) (rest : list Z) : forall h p,
  layout st h rest = true -> In p (h :: rest) ->
  get_next (mem st) p <> NULL -> In (get_next (mem st) p) rest.
Proof.
  induction rest as [|n rest IH]; intros h p Hl Hp Hne.
  - destruct Hp as [<-|[]]. apply layout_nil in Hl. tauto.
  - apply layout_cons in Hl. destruct Hl as (Hn & _ & _ & _ & Hl).
    destruct Hp as [<-|Hp]; [left; congruence|].
    right. apply (IH n p Hl Hp Hne).
Qed.

Lemma malloc_place_eq (fuel : nat) (s bsize a prev next : Z) (ji : bool)
    (st : state) :
  heap_start st <> NULL -> a <> NULL ->
  find_opening_loop fuel st bsize (heap_start st)
  = Some (Opening a prev next) ->
  malloc_place fuel s bsize ji st =
  match (if (next =? NULL) && negb ji
         then expand_heap a bsize st else Done 0 st) with
  | Done r st1 =>
      if r =? -1 then Done NULL st1
      else match insert_block a s prev next st1 with
           | Done _ st' => Done (wrap64 (a + sizeof_header)) st'
           | Abort => Abort
           | OutOfFuel => OutOfFuel
           | Fault => Fault
           end
  | Abort => Abort
  | OutOfFuel => OutOfFuel
  | Fault => Fault
  end.
Proof.
  intros Hs Ha Hfo. unfold malloc_place. unfold bind at 1.
  rewrite (find_opening_eq _ _ _ Hs), Hfo, (eqb_NULL_false _ Ha).
  unfold bind at 1.
  destruct ((next =? NULL) && negb ji).
  - destruct (expand_heap a bsize st) as [r st1| | |]; try reflexivity.
    destruct (r =? -1); [reflexivity|].
    unfold bind. destruct (insert_block a s prev next st1); reflexivity.
  - unfold ret at 1. change (0 =? -1) with false. cbv iota.
    unfold bind. destruct (insert_block a s prev next st); reflexivity.
Qed.

Lemma malloc_place_steps (fuel : nat) (s : Z) (st : state) (rest : list Z) :
  uncorrupted st rest -> 0 <= s -> heap_end st + sizeof_header + s < 2 ^ 64 ->
  (length rest < fuel)%nat ->
  exists a prev next,
    find_opening_loop fuel st (sizeof_header + s) (heap_start st)
    = Some (Opening a prev next) /\
    ((exists st1,
         malloc_place fuel s (wrap64 (sizeof_header + s)) false st
         = Done NULL st1) \/
     (exists st1 st',
         malloc_place fuel s (wrap64 (sizeof_header + s)) false st
         = Done (a + sizeof_header) st' /\
         insert_block a s prev next st1 = Done tt st' /\
         heap_start st1 = heap_start st /\ mem st1 = mem st /\
         heap_end st <= heap_end st1 /\ heap_end st1 < 2 ^ 64 /\
         (next = NULL -> a + sizeof_header + s <= heap_end st1))).
Proof.
  intros (Hs & He & Hl) Hs0 Hb Hf.
  assert (Hsn : heap_start st <> NULL) by (unfold NULL; lia).
  pose proof (layout_block_end_le _ _ _ Hl) as Hle.
  pose proof (block_end_lower st (heap_start st)) as Hlo.
  assert (Hbs : wrap64 (sizeof_header + s) = sizeof_header + s).
  { apply wrap64_small. unfold sizeof_header in *. lia. }
  destruct (find_opening_layout st (sizeof_header + s) He rest (heap_start st)
              fuel Hs Hl Hf) as (a & prev & next & Hfo & Ha & _ & _).
  exists a, prev, next. split; [exact Hfo|].
  assert (Han : a <> NULL) by (unfold NULL; lia).
  assert (Hq : wrap64 (a + sizeof_header) = a + sizeof_header).
  { apply wrap64_small. unfold sizeof_header in *. lia. }
  rewrite Hbs.
  rewrite (malloc_place_eq fuel s (sizeof_header + s) a prev next false st
             Hsn Han Hfo), Hq.
  cbn [negb]. rewrite andb_true_r.
  destruct (Z.eqb_spec next NULL) as [Hnn|Hnn].
  - destruct (expand_heap_done a (sizeof_header + s) st Han Hsn)
      as (r & st1 & Hex & Hst1 & Hm1 & Hcase).
    rewrite Hex.
    assert (Hbe : wrap64 (a + (sizeof_header + s)) = a + (sizeof_header + s)).
    { apply wrap64_small. unfold sizeof_header in *. lia. }
    rewrite Hbe in Hcase.
    assert (Hs1 : heap_start st1 <> NULL) by (rewrite Hst1; exact Hsn).
    destruct (insert_block_done a s prev next st1 Han Hs1)
      as (st' & Hib & _ & _).
    destruct Hcase as [(-> & Hnlt & Heq)|[(-> & Hlt & Heq)|(-> & Hlt & Heq)]].
    + change (0 =? -1) with false. cbv iota. rewrite Hib.
      right. exists st1, st'. subst st1.
      split; [reflexivity|]. split; [exact Hib|].
      split; [reflexivity|]. split; [reflexivity|].
      split; [lia|]. split; [lia|]. intros _. lia.
    + change (-1 =? -1) with true. cbv iota.
      left. exists st1. reflexivity.
    + change (0 =? -1) with false. cbv iota. rewrite Hib.
      assert (Hend : heap_end st1 = a + (sizeof_header + s)).
      { rewrite Heq.
        rewrite (wrap64_small (_ - _)) by (unfold sizeof_header in *; lia).
        replace (heap_end st + (a + (sizeof_header + s) - heap_end st))
          with (a + (sizeof_header + s)) by lia.
        exact Hbe. }
      right. exists st1, st'.
      split; [reflexivity|]. split; [exact Hib|].
      split; [exact Hst1|]. split; [exact Hm1|].
      unfold sizeof_header in *. split; [lia|]. split; [lia|].
      intros _. lia.
  - destruct (insert_block_done a s prev next st Han Hsn) as (st' & Hib & _ & _).
    change (0 =? -1) with false. cbv iota. rewrite Hib.
    right. exists st, st'.
    split; [reflexivity|]. split; [exact Hib|].
    split; [reflexivity|]. split; [reflexivity|].
    split; [lia|]. split; [lia|]. intros; contradiction.
Qed.

(** What a successful [custom_malloc] leaves behind on an uncorrupted heap:
    the new header behind [prev], written where the block of [prev] ends,
    the list still well formed, and memory changed only in the new header
    and in the [next] field of [prev]. *)
Lemma malloc_links_block (fuel : nat) (s q : Z) (st st' : state)
    (rest : list Z) :
  uncorrupted st rest -> 0 <= s -> heap_end st + sizeof_header + s < 2 ^ 64 ->
  (length rest < fuel)%nat ->
  custom_malloc fuel s st = Done q st' -> q <> NULL ->
  exists prev,
    In prev (heap_start st :: rest) /\
    q = block_end st prev + sizeof_header /\
    (get_next (mem st) prev <> NULL ->
     q + s <= get_next (mem st) prev) /\
    heap_start st' = heap_start st /\ heap_end st <= heap_end st' /\
    q + s <= heap_end st' /\
    get_dsize (mem st') (q - sizeof_header) = s /\
    get_next (mem st') (q - sizeof_header) = get_next (mem st) prev /\
    get_next (mem st') prev = q - sizeof_header /\
    (forall x, x < q - sizeof_header \/ q <= x ->
               x < prev + 16 \/ prev + 24 <= x -> mem st' x = mem st x) /\
    uncorrupted st'
      (insert_after prev (q - sizeof_header) (heap_start st) rest).
Proof.
  intros Hu Hs0 Hb Hf Hm Hq. pose proof Hu as (Hs & He & Hl).
  assert (Hsn : heap_start st <> NULL) by (unfold NULL; lia).
  rewrite (custom_malloc_initialised _ _ _ Hsn) in Hm.
  destruct (malloc_place_steps fuel s st rest Hu Hs0 Hb Hf)
    as (a & prev & next & Hfo & [(st1 & Hnull)|(st1 & st2 & Hdone & Hib & Hst1
                                               & Hm1 & He1 & He2 & Hlast)]).
  { rewrite Hnull in Hm. injection Hm as Hq0 _. congruence. }
  rewrite Hdone in Hm.
  assert (Hq0 : q = a + sizeof_header) by congruence.
  assert (Hst : st' = st2) by congruence.
  subst q st'. clear Hm.
  destruct (find_opening_prev st (sizeof_header + s) He rest (heap_start st)
              fuel a prev next Hs Hl Hfo) as (Hin & Ha & Hnx & Hfit).
  pose proof (block_end_lower st prev) as Hlop.
  pose proof (insert_block_inv _ _ _ _ _ _ _ Hib)
    as (_ & _ & Hs2 & He3 & _ & _).
  assert (Hprev0 : 0 < prev).
  { destruct Hin as [<-|Hin]; [lia|].
    pose proof (layout_In_above _ _ _ _ Hl Hin).
    pose proof (block_end_lower st (heap_start st)).
    unfold sizeof_header in *. lia. }
  assert (Hhdr : get_dsize (mem st2) a = wrap64 s /\
                 get_magic (mem st2) a = MAGIC /\
                 get_next (mem st2) a = wrap64 next /\
                 (prev <> NULL -> get_next (mem st2) prev = wrap64 a)).
  { apply (insert_block_header _ _ _ _ _ _ _ Hib). right. left. lia. }
  destruct Hhdr as (Hd & Hmg & Hn & Hp).
  pose proof (layout_In_block_end _ _ _ _ Hl Hin) as Hpe.
  rewrite wrap64_small in Hd by (unfold sizeof_header in *; lia).
  rewrite wrap64_small in Hn by (subst next; apply get_next_range).
  rewrite wrap64_small in Hp by (unfold sizeof_header in *; lia).
  assert (Hpn : prev <> NULL) by (unfold NULL; lia).
  specialize (Hp Hpn).
  assert (F1 : forall x, x < a \/ a + 24 <= x -> x < prev + 16 \/ prev + 24 <= x ->
                 mem st2 x = mem st x).
  { intros x Hx1 Hx2. rewrite <- Hm1.
    apply (insert_block_frame _ _ _ _ _ _ _ Hib); unfold sizeof_header; lia. }
  assert (Hlast' : next = NULL -> a + sizeof_header + s <= heap_end st2).
  { intros Hx. rewrite He3. auto. }
  assert (Hfit' : next <> NULL -> a + sizeof_header + s <= next).
  { intros Hx. specialize (Hfit Hx). lia. }
  replace (a + sizeof_header - sizeof_header) with a by lia.
  exists prev. split; [exact Hin|]. split; [lia|].
  split; [rewrite <- Hnx; intros Hx; specialize (Hfit Hx); lia|].
  split; [congruence|]. split; [lia|].
  split.
  { destruct (Z.eq_dec next NULL) as [Hx|Hx].
    - specialize (Hlast' Hx). lia.
    - specialize (Hfit' Hx).
      assert (Hnin : In next rest).
      { rewrite Hnx. apply (layout_next_In st rest (heap_start st) prev Hl Hin).
        congruence. }
      pose proof (uncorrupted_In _ _ _ Hu Hnin) as (_ & B & _).
      unfold sizeof_header in *. lia. }
  split; [exact Hd|]. split; [congruence|]. split; [exact Hp|].
  split.
  { intros x Hx1 Hx2. apply F1; unfold sizeof_header in *; lia. }
  split; [lia|]. split; [lia|].
  rewrite Hs2, Hst1.
  apply (layout_insert st st2 s a prev next); auto; try lia.
Qed.

(** ** Properties of the single functions *)


(** X2: [expand_heap] either reports 0, and then the block ends inside the
    heap, which has not shrunk and has not been touched at all when the
    block already fitted; or it reports -1, and then [heap_end] is as it
    was.  Memory and [heap_start] are never changed. *)
Theorem expand_heap_fits_or_refuses (block_start bsize : Z) (st : state) :
  block_start <> NULL -> heap_start st <> NULL ->
  0 <= heap_end st < 2 ^ 64 ->
  exists r st',
    expand_heap block_start bsize st = Done r st' /\
    heap_start st' = heap_start st /\ mem st' = mem st /\
    ((r = 0 /\ heap_end st <= heap_end st' /\
      wrap64 (block_start + bsize) <= heap_end st' /\
      (wrap64 (block_start + bsize) <= heap_end st -> st' = st)) \/
     (r = -1 /\ heap_end st' = heap_end st /\
      heap_end st < wrap64 (block_start + bsize))).
Proof.
  intros Hb Hs He.
  destruct (expand_heap_done block_start bsize st Hb Hs)
    as (r & st' & Hex & Hst & Hm & Hc).
  exists r, st'. split; [exact Hex|]. split; [exact Hst|]. split; [exact Hm|].
  pose proof (wrap64_range (block_start + bsize)) as Hr.
  destruct Hc as [(-> & Hn & ->)|[(-> & Hlt & Heq)|(-> & Hlt & Heq)]].
  - left. split; [reflexivity|]. split; [lia|]. split; [lia | reflexivity].
  - right. auto.
  - left. split; [reflexivity|].
    assert (Hend : heap_end st' = wrap64 (block_start + bsize)).
    { rewrite Heq. rewrite (wrap64_small (_ - _)) by lia.
      replace (heap_end st + (wrap64 (block_start + bsize) - heap_end st))
        with (wrap64 (block_start + bsize)) by lia.
      apply wrap64_idem. }
    split; [lia|]. split; [lia|]. intros H. lia.
Qed.

(** X3: on an uncorrupted heap, with enough fuel for the list, [find_block]
    answers exactly: the dummy head for the heap start, a listed header
    together with the header in front of it (whose [next] is the target),
    and [NULL] for any other address; it does not report corruption. *)
Theorem find_block_is_exact (fuel : nat) (target : Z) (st : state)
    (rest : list Z) :
  uncorrupted st rest -> target <> NULL -> (length rest + 1 < fuel)%nat ->
  (target = heap_start st ->
   find_block fuel target st = Done (target, None) st) /\
  (In target rest ->
   find_block fuel target st
   = Done (target, Some (pred_of target (heap_start st) rest)) st /\
   In (pred_of target (heap_start st) rest) (heap_start st :: rest) /\
   get_next (mem st) (pred_of target (heap_start st) rest) = target) /\
  (target <> heap_start st -> ~ In target rest ->
   find_block fuel target st
   = Done (NULL, Some (last_header (heap_start st) rest)) st).
Proof.
  intros Hu Ht Hf.
  destruct (find_block_uncorrupted fuel target st rest Hu Ht Hf) as (A & B & C).
  split; [exact A|]. split; [|exact C].
  intros Hin. split; [exact (B Hin)|].
  destruct Hu as (_ & _ & Hl). apply (pred_of_In st target rest _ Hl Hin).
Qed.

(** X8: whatever the state of the heap, a [custom_free] that returns has
    not called [sbrk], has not moved [heap_start] or [heap_end], and has
    written at most the eight bytes of one header's [next] field. *)
Theorem free_writes_one_link_at_most (fuel : nat) (p : Z) (st st' : state) u :
  custom_free fuel p st = Done u st' ->
  heap_start st' = heap_start st /\ heap_end st' = heap_end st /\
  env st' = env st /\
  (st' = st \/
   exists prev, forall x, x < prev + 16 \/ prev + 24 <= x ->
                          mem st' x = mem st x).
Proof.
  unfold custom_free. intros H.
  destruct (p =? NULL).
  { unfold ret in H. injection H as _ <-. auto. }
  unfold bind at 1 in H. unfold read at 1 in H.
  destruct ((heap_start st =? NULL)
            || (wrap64 (p - sizeof_header) =? heap_start st)).
  { unfold ret in H. injection H as _ <-. auto. }
  cbv zeta in H. unfold bind at 1 in H.
  destruct (find_block fuel (wrap64 (p - sizeof_header)) st)
    as [[block prev] st1| | |] eqn:Hfb; try discriminate.
  apply find_block_inv in Hfb. destruct Hfb as (-> & _).
  destruct (block =? NULL).
  { unfold ret in H. injection H as _ <-. auto. }
  destruct (block =? MINUS_ONE).
  { unfold ret in H. injection H as _ <-. auto. }
  destruct prev as [prev|]; [|discriminate].
  unfold bind, read, write in H. injection H as _ <-. proj_red.
  repeat (split; [reflexivity|]). right. exists prev.
  intros x Hx. apply set_next_other. exact Hx.
Qed.


(** ** Blocks do not overlap *)

(** A block of the list lies wholly below the end of the block of [prev],
    or wholly above what is placed in the gap behind [prev]. *)
Lemma gap_disjoint (st : state) (rest : list Z) (h prev k need : Z) :
  layout st h rest = true -> In prev (h :: rest) -> In k (h :: rest) ->
  (get_next (mem st) prev <> NULL ->
   block_end st prev + need <= get_next (mem st) prev) ->
  (k = prev \/ block_end st k <= prev) \/ block_end st prev + need <= k.
Proof.
  intros Hl Hp Hk Hfit.
  destruct (Z.lt_trichotomy k prev) as [Hlt|[Heq|Hgt]].
  - left. right.
    destruct (layout_succ st rest h k prev Hl Hk Hp Hlt) as (_ & A & B). lia.
  - left. left. exact Heq.
  - right.
    destruct (layout_succ st rest h prev k Hl Hp Hk Hgt) as (A & _ & B).
    specialize (Hfit A). lia.
Qed.

(** The [next] field of a listed header is outside the [dsize] field and
    the data of every listed block. *)
Lemma link_field_disjoint (st : state) (rest : list Z) (h pv k x : Z) :
  layout st h rest = true -> In pv (h :: rest) -> In k (h :: rest) ->
  k <= x < k + 16 \/ k + 24 <= x < block_end st k ->
  x < pv + 16 \/ pv + 24 <= x.
Proof.
  intros Hl Hp Hk Hx.
  pose proof (block_end_lower st k) as Hlo.
  pose proof (block_end_lower st pv) as Hlop.
  unfold sizeof_header in *.
  destruct (Z.lt_trichotomy k pv) as [Hlt|[Heq|Hgt]].
  - destruct (layout_succ st rest h k pv Hl Hk Hp Hlt) as (_ & A & B). lia.
  - subst. lia.
  - destruct (layout_succ st rest h pv k Hl Hp Hk Hgt) as (_ & A & B). lia.
Qed.

Lemma In_insert_after (prev a : Z) (rest : list Z) : forall h,
  In prev (h :: rest) -> In a (insert_after prev a h rest).
Proof.
  induction rest as [|n rest IH]; intros h Hin; cbn [insert_after].
  - destruct Hin as [<-|[]]. rewrite Z.eqb_refl. left; reflexivity.
  - destruct (Z.eqb_spec h prev) as [_|Hne]; [left; reflexivity|].
    destruct Hin as [Heq|Hin]; [contradiction|].
    right. apply IH. exact Hin.
Qed.

Lemma length_insert_after (prev a : Z) (rest : list Z) : forall h,
  (length (insert_after prev a h rest) <= S (length rest))%nat.
Proof.
  induction rest as [|n rest IH]; intros h; cbn [insert_after].
  - destruct (h =? prev); cbn [length]; lia.
  - destruct (h =? prev); cbn [length]; [lia|].
    specialize (IH n). lia.
Qed.

Lemma pred_of_insert_after (prev a : Z) (rest : list Z) : forall h,
  In prev (h :: rest) -> ~ In a rest ->
  pred_of a h (insert_after prev a h rest) = prev.
Proof.
  induction rest as [|n rest IH]; intros h Hin Hnin; cbn [insert_after].
  - destruct Hin as [<-|[]]. rewrite Z.eqb_refl.
    cbn [pred_of]. rewrite Z.eqb_refl. reflexivity.
  - destruct (Z.eqb_spec h prev) as [->|Hne].
    + cbn [pred_of]. rewrite Z.eqb_refl. reflexivity.
    + destruct Hin as [Heq|Hin]; [contradiction|].
      cbn [pred_of].
      destruct (Z.eqb_spec n a) as [->|_]; [exfalso; apply Hnin; left; reflexivity|].
      apply IH; [exact Hin|]. intros H. apply Hnin. right. exact H.
Qed.

Lemma unlink_insert_after (prev a : Z) (rest : list Z) : forall h,
  In prev (h :: rest) -> ~ In a rest ->
  unlink a (insert_after prev a h rest) = rest.
Proof.
  induction rest as [|n rest IH]; intros h Hin Hnin; cbn [insert_after].
  - destruct Hin as [<-|[]]. rewrite Z.eqb_refl.
    cbn [unlink]. rewrite Z.eqb_refl. reflexivity.
  - destruct (Z.eqb_spec h prev) as [->|Hne].
    + cbn [unlink]. rewrite Z.eqb_refl. reflexivity.
    + destruct Hin as [Heq|Hin]; [contradiction|].
      cbn [unlink].
      destruct (Z.eqb_spec n a) as [->|_]; [exfalso; apply Hnin; left; reflexivity|].
      f_equal. apply IH; [exact Hin|]. intros H. apply Hnin. right. exact H.
Qed.

(** Rewriting the [dsize] of a listed header keeps the list well formed as
    long as the block still ends in front of what follows it. *)
Lemma layout_resize (st st' : state) (k s : Z) :
  heap_start st' = heap_start st ->
  heap_end st <= heap_end st' -> heap_end st' < 2 ^ 64 -> 0 <= s ->
  (forall x, x < k \/ k + 8 <= x -> mem st' x = mem st x) ->
  get_dsize (mem st') k = s ->
  (get_next (mem st) k <> NULL ->
   k + sizeof_header + s <= get_next (mem st) k) ->
  (get_next (mem st) k = NULL -> k + sizeof_header + s <= heap_end st') ->
  forall rest h,
    0 <= h -> layout st h rest = true -> In k (h :: rest) ->
    layout st' h rest = true.
Proof.
  intros Hs He1 He2 Hs0 F1 Fd Hfit Hlast.
  induction rest as [|n rest IH]; intros h Hh Hl Hin.
  - destruct Hin as [<-|[]].
    apply layout_nil in Hl. destruct Hl as [Hn Hle].
    apply layout_nil_intro.
    + rewrite <- Hn. apply get_next_frame. intros x Hx. apply F1. lia.
    + unfold block_end. rewrite Fd. auto.
  - pose proof (layout_block_end_le _ _ _ Hl) as Hle0.
    pose proof (block_end_lower st h) as Hloh.
    pose proof (block_end_lower st n) as Hlon.
    pose proof (layout_cons _ _ _ _ Hl) as (Hn & Hn0 & Hv & Hle & Hl').
    unfold sizeof_header in *.
    destruct (Z.eq_dec h k) as [Heq|Hne].
    + subst h.
      apply layout_cons_intro; auto.
      * rewrite <- Hn. apply get_next_frame. intros x Hx. apply F1. lia.
      * apply (valid_header_frame st st' n Hs);
          [unfold sizeof_header; lia | lia | lia | | exact Hv].
        apply get_magic_frame. intros x Hx. apply F1. lia.
      * unfold block_end, sizeof_header. rewrite Fd.
        rewrite <- Hn. apply Hfit. congruence.
      * apply (layout_above st st'); auto; try lia.
        intros x Hx. apply F1. lia.
    + destruct Hin as [Heq|Hin]; [contradiction|].
      assert (Hkn : k = n \/ n + 24 <= k).
      { destruct Hin as [<-|Hin]; [auto|].
        pose proof (layout_In_above _ _ _ _ Hl' Hin). lia. }
      apply layout_cons_intro; auto.
      * rewrite <- Hn. apply get_next_frame. intros x Hx. apply F1. lia.
      * apply (valid_header_frame st st' n Hs);
          [unfold sizeof_header; lia | lia | lia | | exact Hv].
        apply get_magic_frame. intros x Hx. apply F1. lia.
      * replace (block_end st' h) with (block_end st h); [lia|].
        unfold block_end. f_equal. symmetry.
        apply get_dsize_frame. intros x Hx. apply F1. lia.
      * apply IH; auto; lia.
Qed.

(** ** Allocation and release keep the heap well formed *)

(** X4: a successful [custom_malloc] on an uncorrupted heap leaves an
    uncorrupted heap: the new header, recording [s], is linked where the
    block of some listed header [prev] ends, the block lies inside the
    heap, [heap_start] is kept and [heap_end] has not decreased. *)
Theorem malloc_keeps_heap_uncorrupted (fuel : nat) (s q : Z) (st st' : state)
    (rest : list Z) :
  uncorrupted st rest -> 0 <= s -> heap_end st + sizeof_header + s < 2 ^ 64 ->
  (length rest < fuel)%nat ->
  custom_malloc fuel s st = Done q st' -> q <> NULL ->
  exists prev,
    In prev (heap_start st :: rest) /\
    q - sizeof_header = block_end st prev /\
    get_dsize (mem st') (q - sizeof_header) = s /\
    heap_start st' = heap_start st /\ heap_end st <= heap_end st' /\
    q + s <= heap_end st' /\
    uncorrupted st'
      (insert_after prev (q - sizeof_header) (heap_start st) rest).
Proof.
  intros Hu Hs0 Hb Hf Hm Hq.
  destruct (malloc_links_block fuel s q st st' rest Hu Hs0 Hb Hf Hm Hq)
    as (prev & A & B & _ & C & D & F & G & _ & _ & _ & K).
  exists prev. repeat (split; [first [assumption | lia]|]). exact K.
Qed.

(** What an allocation leaves of a block already listed; the zeroed
    allocation below relies on it as well. *)
Lemma malloc_live_blocks (fuel : nat) (s q k : Z)
    (st st' : state) (rest : list Z) :
  uncorrupted st rest -> 0 <= s -> heap_end st + sizeof_header + s < 2 ^ 64 ->
  (length rest < fuel)%nat ->
  custom_malloc fuel s st = Done q st' -> q <> NULL ->
  In k (heap_start st :: rest) ->
  get_dsize (mem st') k = get_dsize (mem st) k /\
  get_magic (mem st') k = get_magic (mem st) k /\
  (forall x, k + sizeof_header <= x < block_end st k ->
             mem st' x = mem st x) /\
  (block_end st k <= q - sizeof_header \/ q + s <= k).
Proof.
  intros Hu Hs0 Hb Hf Hm Hq Hk. pose proof Hu as (_ & _ & Hl).
  destruct (malloc_links_block fuel s q st st' rest Hu Hs0 Hb Hf Hm Hq)
    as (prev & Hin & Hqa & Hfit & _ & _ & _ & _ & _ & _ & F1 & _).
  pose proof (block_end_lower st k) as Hlo.
  pose proof (block_end_lower st prev) as Hlop.
  assert (Hgap : (k = prev \/ block_end st k <= prev)
                 \/ block_end st prev + (sizeof_header + s) <= k).
  { apply (gap_disjoint st rest (heap_start st) prev k _ Hl Hin Hk).
    intros Hx. specialize (Hfit Hx). lia. }
  unfold sizeof_header in *.
  assert (Hout : forall x, k <= x < block_end st k ->
                   (k = prev -> x < prev + 16 \/ prev + 24 <= x) ->
                   mem st' x = mem st x).
  { intros x Hx Hx'. apply F1.
    - destruct Hgap as [[->|Hg]|Hg]; lia.
    - destruct Hgap as [[Hg|Hg]|Hg]; [auto | lia | lia]. }
  split; [|split; [|split]].
  - apply get_dsize_frame. intros x Hx. apply Hout; lia.
  - apply get_magic_frame. intros x Hx. apply Hout; lia.
  - intros x Hx. apply Hout; lia.
  - destruct Hgap as [[->|Hg]|Hg]; lia.
Qed.

(** X5: a successful [custom_malloc] on an uncorrupted heap does not touch
    the blocks already there: for every listed header its [dsize], its
    magic number and every byte of its data are as before, and the new
    block (header and data) lies wholly below or wholly above it. *)
Theorem malloc_leaves_live_blocks_alone (fuel : nat) (s q k : Z)
    (st st' : state) (rest : list Z) :
  uncorrupted st rest -> 0 <= s -> heap_end st + sizeof_header + s < 2 ^ 64 ->
  (length rest < fuel)%nat ->
  custom_malloc fuel s st = Done q st' -> q <> NULL ->
  In k (heap_start st :: rest) ->
  get_dsize (mem st') k = get_dsize (mem st) k /\
  get_magic (mem st') k = get_magic (mem st) k /\
  (forall x, k + sizeof_header <= x < block_end st k ->
             mem st' x = mem st x) /\
  (block_end st k <= q - sizeof_header \/ q + s <= k).
Proof. apply malloc_live_blocks. Qed.

(** X6: [custom_free] of a listed block of an uncorrupted heap takes
    exactly that header out of the list and leaves the heap uncorrupted;
    it does not call [sbrk] or move the heap bounds, and the [dsize], the
    magic number and the data bytes of every block (the released one
    included) are untouched. *)
Theorem free_unlinks_block (fuel : nat) (target : Z) (st : state)
    (rest : list Z) :
  uncorrupted st rest -> In target rest -> (length rest + 1 < fuel)%nat ->
  exists st',
    custom_free fuel (target + sizeof_header) st = Done tt st' /\
    heap_start st' = heap_start st /\ heap_end st' = heap_end st /\
    env st' = env st /\
    uncorrupted st' (unlink target rest) /\
    ~ In target (unlink target rest) /\
    (forall k x, In k (heap_start st :: rest) ->
                 k <= x < k + 16 \/ k + sizeof_header <= x < block_end st k ->
                 mem st' x = mem st x).
Proof.
  intros Hu Hin Hf. pose proof Hu as (_ & _ & Hl).
  destruct (custom_free_unlinks fuel target st rest Hu Hin Hf)
    as (st' & Hfr & A & B & C & F1 & _ & K).
  exists st'. repeat (split; [assumption|]).
  split; [apply (unlink_not_In st target rest _ Hl)|].
  intros k x Hk Hx. apply F1.
  destruct (pred_of_In st target rest _ Hl Hin) as [Hp _].
  apply (link_field_disjoint st rest (heap_start st) _ k x Hl Hp Hk).
  unfold sizeof_header in Hx. exact Hx.
Qed.

(** X7: releasing the same listed block twice is harmless: the first
    [custom_free] unlinks it, the second finds nothing and leaves the state
    exactly as the first left it. *)
Theorem free_twice_is_noop (fuel : nat) (target : Z) (st : state)
    (rest : list Z) :
  uncorrupted st rest -> In target rest -> (length rest + 1 < fuel)%nat ->
  exists st',
    custom_free fuel (target + sizeof_header) st = Done tt st' /\
    custom_free fuel (target + sizeof_header) st' = Done tt st'.
Proof.
  intros Hu Hin Hf. pose proof Hu as (_ & _ & Hl).
  pose proof (uncorrupted_In _ _ _ Hu Hin) as (A & B & _).
  destruct (custom_free_unlinks fuel target st rest Hu Hin Hf)
    as (st' & Hfr & Hs & He & _ & _ & _ & K).
  exists st'. split; [exact Hfr|].
  apply custom_free_refuses.
  right. right. right. left.
  exists (Some (last_header (heap_start st') (unlink target rest))).
  unfold sizeof_header in *.
  replace (wrap64 (target + 24 - 24)) with target.
  2:{ replace (target + 24 - 24) with target by lia.
      symmetry. apply wrap64_small. destruct Hu as (? & ? & _). lia. }
  assert (Ht : target <> NULL) by (destruct Hu as (? & _); unfold NULL; lia).
  assert (Hf' : (length (unlink target rest) + 1 < fuel)%nat).
  { pose proof (length_unlink target rest). lia. }
  destruct (find_block_uncorrupted fuel target st' (unlink target rest)
              K Ht Hf') as (_ & _ & Hnf).
  apply Hnf.
  - rewrite Hs. lia.
  - apply (unlink_not_In st target rest _ Hl).
Qed.

(** X12: allocating on an uncorrupted heap and releasing the result brings
    back the header list as it was: the heap is uncorrupted with the same
    headers, each with the same [dsize], the same [next] and the same data
    bytes. *)
Theorem malloc_then_free_restores_list (fuel : nat) (s q : Z)
    (st st1 : state) (rest : list Z) :
  uncorrupted st rest -> 0 <= s -> heap_end st + sizeof_header + s < 2 ^ 64 ->
  (length rest + 2 < fuel)%nat ->
  custom_malloc fuel s st = Done q st1 -> q <> NULL ->
  exists st2,
    custom_free fuel q st1 = Done tt st2 /\
    uncorrupted st2 rest /\ heap_start st2 = heap_start st /\
    (forall k, In k (heap_start st :: rest) ->
       get_dsize (mem st2) k = get_dsize (mem st) k /\
       get_next (mem st2) k = get_next (mem st) k /\
       (forall x, k + sizeof_header <= x < block_end st k ->
                  mem st2 x = mem st x)).
Proof.
  intros Hu Hs0 Hb Hf Hm Hq. pose proof Hu as (Hhs & _ & Hl).
  assert (Hf0 : (length rest < fuel)%nat) by lia.
  destruct (malloc_links_block fuel s q st st1 rest Hu Hs0 Hb Hf0 Hm Hq)
    as (prev & Hin & Hqa & Hfit & Hs1 & _ & _ & _ & Hna & Hnp & F1 & K).
  set (a := q - sizeof_header) in *.
  assert (Hq' : q = a + sizeof_header) by (unfold a; lia).
  pose proof (block_end_lower st prev) as Hlop.
  assert (Hgap : forall k, In k (heap_start st :: rest) ->
            (k = prev \/ block_end st k <= prev)
            \/ block_end st prev + (sizeof_header + s) <= k).
  { intros k Hk.
    apply (gap_disjoint st rest (heap_start st) prev k _ Hl Hin Hk).
    intros Hx. specialize (Hfit Hx). lia. }
  assert (Hnin : ~ In a rest).
  { intros Ha. pose proof (block_end_lower st a).
    destruct (Hgap a (or_intror Ha)) as [[Hg|Hg]|Hg];
      unfold sizeof_header in *; lia. }
  assert (HinL : In a (insert_after prev a (heap_start st) rest))
    by (apply In_insert_after; exact Hin).
  assert (HfL : (length (insert_after prev a (heap_start st) rest) + 1
                 < fuel)%nat).
  { pose proof (length_insert_after prev a rest (heap_start st)). lia. }
  destruct (custom_free_unlinks fuel a st1 _ K HinL HfL)
    as (st2 & Hfr & Hs2 & _ & _ & F2 & Hn2 & K2).
  rewrite Hs1 in *.
  rewrite (pred_of_insert_after prev a rest (heap_start st) Hin Hnin) in *.
  rewrite (unlink_insert_after prev a rest (heap_start st) Hin Hnin) in K2.
  exists st2. rewrite Hq'. split; [exact Hfr|]. split; [exact K2|].
  split; [congruence|].
  intros k Hk. pose proof (block_end_lower st k) as Hlo.
  specialize (Hgap k Hk). unfold sizeof_header in *.
  assert (Hout : forall x, k <= x < block_end st k ->
                   x < prev + 16 \/ prev + 24 <= x -> mem st2 x = mem st x).
  { intros x Hx Hx'. rewrite (F2 x Hx'). apply F1; [|exact Hx'].
    destruct Hgap as [[->|Hg]|Hg]; lia. }
  assert (Hlink : forall x, k <= x < k + 16 \/ k + 24 <= x < block_end st k ->
                    x < prev + 16 \/ prev + 24 <= x).
  { intros x Hx.
    apply (link_field_disjoint st rest (heap_start st) prev k x Hl Hin Hk Hx). }
  split; [|split].
  - apply get_dsize_frame. intros x Hx. apply Hout; [lia | apply Hlink; lia].
  - destruct (Z.eq_dec k prev) as [->|Hne].
    + rewrite Hn2. exact Hna.
    + apply get_next_frame. intros x Hx. apply Hout; [lia|].
      destruct Hgap as [[Hg|Hg]|Hg]; [contradiction | lia | lia].
  - intros x Hx. apply Hout; [lia | apply Hlink; lia].
Qed.

(** ** Resizing a listed block *)

Lemma expand_heap_eq (block_start bsize : Z) (st : state) :
  block_start <> NULL -> heap_start st <> NULL ->
  expand_heap block_start bsize st =
  if heap_end st <? wrap64 (block_start + bsize) then
    let (r, w) :=
      sbrk (to_int (wrap64 (wrap64 (block_start + bsize) - heap_end st)))
           (env st) in
    if wrap64 r =? MINUS_ONE
    then Done (-1) (mkState (heap_start st) (heap_end st) (mem st) w)
    else Done 0
           (mkState (heap_start st)
              (wrap64 (heap_end st
                       + wrap64 (wrap64 (block_start + bsize) - heap_end st)))
              (mem st) w)
  else Done 0 st.
Proof.
  intros Hb Hs. unfold expand_heap. mred.
  rewrite (eqb_NULL_false _ Hb); mred.
  rewrite (eqb_NULL_false _ Hs); mred.
  destruct (heap_end st <? wrap64 (block_start + bsize)); [|reflexivity].
  unfold call_sbrk. destruct (sbrk _ (env st)) as [r w]. proj_red.
  destruct (wrap64 r =? MINUS_ONE); reflexivity.
Qed.

Lemma can_expand_eq (block s : Z) (st : state) :
  block <> NULL -> heap_start st <> NULL ->
  can_expand block s st =
  if get_next (mem st) block =? NULL then
    match expand_heap block (wrap64 (s + sizeof_header)) st with
    | Done _ st1 => Done true st1
    | Abort => Abort
    | OutOfFuel => OutOfFuel
    | Fault => Fault
    end
  else Done true st.
Proof.
  intros Hb Hs. unfold can_expand. mred.
  rewrite (eqb_NULL_false _ Hb); mred.
  rewrite (eqb_NULL_false _ Hs); mred.
  destruct (get_next (mem st) block =? NULL); [reflexivity|].
  f_equal. apply Z.leb_le. apply wrap64_range.
Qed.

(** [custom_realloc] of a listed block, in terms of what [can_expand] does
    to the state. *)
Lemma realloc_listed (fuel : nat) (k s : Z) (st : state) (rest : list Z) :
  uncorrupted st rest -> In k rest -> s <> 0 -> (length rest + 1 < fuel)%nat ->
  exists st1,
    can_expand k s st = Done true st1 /\
    custom_realloc fuel (k + sizeof_header) s st
    = Done (k + sizeof_header)
        (mkState (heap_start st1) (heap_end st1)
           (set_dsize (mem st1) k s) (env st1)).
Proof.
  intros Hu Hin Hs Hf.
  pose proof (uncorrupted_In _ _ _ Hu Hin) as (A & B & _).
  pose proof Hu as (Hs0 & He & _).
  assert (Hk : k <> NULL) by (unfold NULL, sizeof_header in *; lia).
  destruct (find_block_uncorrupted fuel k st rest Hu Hk Hf) as (_ & Hfb & _).
  specialize (Hfb Hin).
  assert (Hw : wrap64 (k + sizeof_header - sizeof_header) = k).
  { replace (k + sizeof_header - sizeof_header) with k by lia.
    apply wrap64_small. unfold sizeof_header in *. lia. }
  rewrite <- Hw in Hfb at 1.
  assert (Hm : k <> MINUS_ONE) by (unfold MINUS_ONE, sizeof_header in *; lia).
  assert (Hp : 0 < k + sizeof_header < 2 ^ 64)
    by (unfold sizeof_header in *; lia).
  destruct (realloc_in_place fuel (k + sizeof_header) s k _ st st Hp Hs
              Hfb Hk Hm) as (st1 & Hce & Hre & _).
  exists st1. split; assumption.
Qed.

(** X13: [custom_realloc] of a listed block to a non-zero size that ends
    no later than the next header (for the last block: no later than
    [heap_end]) returns the same pointer, rewrites only the eight bytes of
    the block's [dsize], does not call [sbrk] or move [heap_end], and
    leaves the heap uncorrupted with the same headers. *)
Theorem realloc_within_room_keeps_heap (fuel : nat) (k s : Z) (st : state)
    (rest : list Z) :
  uncorrupted st rest -> In k rest -> 0 < s ->
  (get_next (mem st) k <> NULL ->
   k + sizeof_header + s <= get_next (mem st) k) ->
  (get_next (mem st) k = NULL -> k + sizeof_header + s <= heap_end st) ->
  (length rest + 1 < fuel)%nat ->
  exists st',
    custom_realloc fuel (k + sizeof_header) s st
    = Done (k + sizeof_header) st' /\
    heap_end st' = heap_end st /\ env st' = env st /\
    get_dsize (mem st') k = s /\
    (forall x, x < k \/ k + 8 <= x -> mem st' x = mem st x) /\
    uncorrupted st' rest.
Proof.
  intros Hu Hin Hs Hfit Hlast Hf.
  pose proof (uncorrupted_In _ _ _ Hu Hin) as (A & B & _).
  pose proof Hu as (Hs0 & He & Hl).
  assert (Hk : k <> NULL) by (unfold NULL, sizeof_header in *; lia).
  assert (Hsn : heap_start st <> NULL) by (unfold NULL; lia).
  assert (Hnr : 0 <= get_next (mem st) k < 2 ^ 64) by apply get_next_range.
  assert (Hsb : k + sizeof_header + s < 2 ^ 64).
  { destruct (Z.eq_dec (get_next (mem st) k) NULL) as [Hn|Hn].
    - specialize (Hlast Hn). lia.
    - specialize (Hfit Hn). lia. }
  destruct (realloc_listed fuel k s st rest Hu Hin) as (st1 & Hce & Hre);
    [lia | exact Hf |].
  assert (Hst1 : st1 = st).
  { rewrite (can_expand_eq k s st Hk Hsn) in Hce.
    destruct (Z.eqb_spec (get_next (mem st) k) NULL) as [Hn|Hn];
      [|congruence].
    rewrite (expand_heap_eq _ _ st Hk Hsn) in Hce.
    assert (Hbe : wrap64 (k + wrap64 (s + sizeof_header))
                  = k + sizeof_header + s).
    { rewrite (wrap64_small (s + sizeof_header))
        by (unfold sizeof_header in *; lia).
      rewrite wrap64_small by (unfold sizeof_header in *; lia). lia. }
    rewrite Hbe in Hce. specialize (Hlast Hn).
    destruct (Z.ltb_spec (heap_end st) (k + sizeof_header + s)); [lia|].
    congruence. }
  subst st1. eexists. split; [exact Hre|]. proj_red.
  assert (Hd : get_dsize (set_dsize (mem st) k s) k = s).
  { rewrite get_set_dsize. apply wrap64_small. unfold sizeof_header in *. lia. }
  assert (Hfr : forall x, x < k \/ k + 8 <= x ->
                          set_dsize (mem st) k s x = mem st x).
  { intros x Hx. apply set_dsize_other. exact Hx. }
  split; [reflexivity|]. split; [reflexivity|]. split; [exact Hd|].
  split; [exact Hfr|]. split; [exact Hs0|]. split; [exact He|]. proj_red.
  apply (layout_resize st _ k s); proj_red;
    [reflexivity | lia | exact He | lia | exact Hfr | exact Hd | exact Hfit
    | exact Hlast | lia | exact Hl | right; exact Hin].
Qed.

(** X14: [custom_realloc] of the last listed block to a size that ends
    beyond [heap_end], by less than 2^31 bytes (so that the cast to [int]
    keeps the amount) and below 2^64, asks [sbrk] for exactly the missing
    bytes; when [sbrk] grants them the same pointer is returned,
    [heap_end] is the new end of the block, and the heap is uncorrupted
    with the same headers. *)
Theorem realloc_grows_last_block (fuel : nat) (k s r : Z) (w : world)
    (st : state) (rest : list Z) :
  uncorrupted st rest -> In k rest -> get_next (mem st) k = NULL ->
  heap_end st < k + sizeof_header + s < 2 ^ 64 ->
  k + sizeof_header + s - heap_end st < 2 ^ 31 ->
  sbrk (k + sizeof_header + s - heap_end st) (env st) = (r, w) ->
  wrap64 r <> MINUS_ONE ->
  (length rest + 1 < fuel)%nat ->
  exists st',
    custom_realloc fuel (k + sizeof_header) s st
    = Done (k + sizeof_header) st' /\
    heap_end st' = k + sizeof_header + s /\ env st' = w /\
    get_dsize (mem st') k = s /\
    (forall x, x < k \/ k + 8 <= x -> mem st' x = mem st x) /\
    uncorrupted st' rest.
Proof.
  intros Hu Hin Hn Hsb Hint Hsbrk Hr Hf.
  rewrite <- (to_int_small (k + sizeof_header + s - heap_end st)) in Hsbrk
    by lia.
  pose proof (uncorrupted_In _ _ _ Hu Hin) as (A & B & _).
  pose proof Hu as (Hs0 & He & Hl).
  assert (Hk : k <> NULL) by (unfold NULL, sizeof_header in *; lia).
  assert (Hsn : heap_start st <> NULL) by (unfold NULL; lia).
  assert (Hs : 0 < s) by (unfold sizeof_header in *; lia).
  destruct (realloc_listed fuel k s st rest Hu Hin) as (st1 & Hce & Hre);
    [lia | exact Hf |].
  assert (Hst1 : st1 = mkState (heap_start st) (k + sizeof_header + s)
                         (mem st) w).
  { rewrite (can_expand_eq k s st Hk Hsn), Hn in Hce.
    change (NULL =? NULL) with true in Hce. cbv iota in Hce.
    rewrite (expand_heap_eq _ _ st Hk Hsn) in Hce.
    assert (Hbe : wrap64 (k + wrap64 (s + sizeof_header))
                  = k + sizeof_header + s).
    { rewrite (wrap64_small (s + sizeof_header))
        by (unfold sizeof_header in *; lia).
      rewrite wrap64_small by (unfold sizeof_header in *; lia). lia. }
    rewrite Hbe in Hce.
    destruct (Z.ltb_spec (heap_end st) (k + sizeof_header + s)); [|lia].
    rewrite (wrap64_small (k + sizeof_header + s - heap_end st)) in Hce
      by (unfold sizeof_header in *; lia).
    rewrite Hsbrk in Hce.
    rewrite (proj2 (Z.eqb_neq _ _) Hr) in Hce.
    replace (heap_end st + (k + sizeof_header + s - heap_end st))
      with (k + sizeof_header + s) in Hce by lia.
    rewrite (wrap64_small (k + sizeof_header + s)) in Hce
      by (unfold sizeof_header in *; lia).
    congruence. }
  subst st1. proj_red. eexists. split; [exact Hre|]. proj_red.
  assert (Hd : get_dsize (set_dsize (mem st) k s) k = s).
  { rewrite get_set_dsize. apply wrap64_small. unfold sizeof_header in *. lia. }
  assert (Hfr : forall x, x < k \/ k + 8 <= x ->
                          set_dsize (mem st) k s x = mem st x).
  { intros x Hx. apply set_dsize_other. exact Hx. }
  split; [reflexivity|]. split; [reflexivity|]. split; [exact Hd|].
  split; [exact Hfr|]. split; [exact Hs0|]. split; [proj_red; lia|]. proj_red.
  apply (layout_resize st _ k s); proj_red;
    [reflexivity | lia | lia | lia | exact Hfr | exact Hd
    | intros Hx; contradiction | intros _; lia | lia | exact Hl
    | right; exact Hin].
Qed.

(** ** The first allocation *)

Lemma init_heap_eq (bsize : Z) (st : state) :
  init_heap bsize st =
  let (r, w) := sbrk (to_int (wrap64 (sizeof_header + bsize))) (env st) in
  if wrap64 r =? MINUS_ONE
  then Done tt (mkState NULL (heap_end st) (mem st) w)
  else match insert_block (wrap64 r) 0 NULL NULL
               (mkState (wrap64 r) (heap_end st) (mem st) w) with
       | Done _ st2 =>
           Done tt (mkState (heap_start st2)
                      (wrap64 (wrap64 r + wrap64 (sizeof_header + bsize)))
                      (mem st2) (env st2))
       | Abort => Abort
       | OutOfFuel => OutOfFuel
       | Fault => Fault
       end.
Proof.
  unfold init_heap. cbv zeta.
  unfold bind at 1. unfold call_sbrk.
  destruct (sbrk _ (env st)) as [r w].
  unfold bind at 1. unfold set_heap_start at 1. proj_red.
  destruct (wrap64 r =? MINUS_ONE); [reflexivity|].
  unfold bind at 1.
  destruct (insert_block _ _ _ _ _) as [u st2| | |]; reflexivity.
Qed.

Lemma custom_malloc_uninitialised (fuel : nat) (s : Z) (st : state) :
  heap_start st = NULL ->
  custom_malloc fuel s st =
  match init_heap (wrap64 (sizeof_header + s)) st with
  | Done _ st1 =>
      if heap_start st1 =? NULL then Done NULL st1
      else malloc_place fuel s (wrap64 (sizeof_header + s)) true st1
  | Abort => Abort
  | OutOfFuel => OutOfFuel
  | Fault => Fault
  end.
Proof.
  intros Hs. unfold custom_malloc. cbv zeta.
  unfold bind at 1. unfold read at 1.
  rewrite Hs. change (NULL =? NULL) with true. cbv iota.
  unfold bind at 1.
  destruct (init_heap _ st) as [u st1| | |]; [|reflexivity..].
  unfold bind at 1. unfold read at 1.
  destruct (heap_start st1 =? NULL); reflexivity.
Qed.

Lemma find_opening_loop_last (fuel : nat) (st : state) (bsize curr : Z) :
  get_next (mem st) curr = NULL ->
  find_opening_loop (S fuel) st bsize curr
  = Some (Opening
            (wrap64 (curr + wrap64 (sizeof_header + get_dsize (mem st) curr)))
            curr NULL).
Proof.
  intros H. cbn [find_opening_loop]. cbv zeta. rewrite H. reflexivity.
Qed.

(** The two outcomes of the first allocation, in the form the invariant
    over sequences of calls uses them. *)
Lemma first_malloc_granted (fuel : nat) (s r : Z) (w : world)
    (st : state) :
  heap_start st = NULL -> 0 <= s -> (0 < fuel)%nat ->
  sbrk (to_int (2 * sizeof_header + s)) (env st) = (r, w) ->
  0 < r -> r + 2 * sizeof_header + s < 2 ^ 64 ->
  exists st',
    custom_malloc fuel s st = Done (r + 2 * sizeof_header) st' /\
    heap_start st' = r /\ heap_end st' = r + 2 * sizeof_header + s /\
    env st' = w /\
    get_dsize (mem st') r = 0 /\
    get_dsize (mem st') (r + sizeof_header) = s /\
    (forall x, x < r \/ r + 2 * sizeof_header <= x -> mem st' x = mem st x) /\
    uncorrupted st' [r + sizeof_header].
Proof.
  intros Hs Hs0 Hf Hsbrk Hr Hb.
  destruct fuel as [|fuel]; [lia|].
  assert (Hbs : wrap64 (sizeof_header + s) = sizeof_header + s)
    by (apply wrap64_small; unfold sizeof_header in *; lia).
  assert (Hsz : wrap64 (sizeof_header + (sizeof_header + s))
                = 2 * sizeof_header + s)
    by (rewrite wrap64_small; unfold sizeof_header in *; lia).
  assert (Hwr : wrap64 r = r)
    by (apply wrap64_small; unfold sizeof_header in *; lia).
  assert (Hrn : r <> NULL) by (unfold NULL; lia).
  assert (Hrm : (r =? MINUS_ONE) = false).
  { apply Z.eqb_neq. unfold MINUS_ONE, sizeof_header in *. lia. }
  rewrite (custom_malloc_uninitialised _ _ _ Hs), Hbs, init_heap_eq, Hsz,
    Hsbrk, Hwr, Hrm.
  destruct (insert_block_done r 0 NULL NULL
              (mkState r (heap_end st) (mem st) w) Hrn Hrn)
    as (st1 & Hib1 & _).
  rewrite Hib1. proj_red.
  pose proof (insert_block_inv _ _ _ _ _ _ _ Hib1) as (_ & _ & Hs1 & _ & Hw1 & _).
  destruct (insert_block_header _ _ _ _ _ _ _ Hib1 (or_introl eq_refl))
    as (Hd1 & Hm1 & Hn1 & _).
  pose proof (insert_block_frame _ _ _ _ _ _ _ Hib1) as F1.
  proj_red. rewrite Hs1, (eqb_NULL_false _ Hrn).
  assert (Hend : wrap64 (r + (2 * sizeof_header + s))
                 = r + 2 * sizeof_header + s)
    by (rewrite wrap64_small; unfold sizeof_header in *; lia).
  rewrite Hend.
  change (wrap64 0) with 0 in Hd1. change (wrap64 NULL) with NULL in Hn1.
  set (st2 := mkState r (r + 2 * sizeof_header + s) (mem st1) (env st1)).
  assert (Ha : wrap64 (r + wrap64 (sizeof_header + get_dsize (mem st2) r))
               = r + sizeof_header).
  { unfold st2. proj_red. rewrite Hd1.
    rewrite (wrap64_small (sizeof_header + 0)) by (unfold sizeof_header; lia).
    rewrite wrap64_small; unfold sizeof_header in *; lia. }
  assert (Han : r + sizeof_header <> NULL)
    by (unfold NULL, sizeof_header; lia).
  assert (Hfo : find_opening_loop (S fuel) st2 (sizeof_header + s)
                  (heap_start st2)
                = Some (Opening (r + sizeof_header) r NULL)).
  { unfold st2 at 2. proj_red.
    rewrite find_opening_loop_last by (unfold st2; proj_red; exact Hn1).
    rewrite Ha. reflexivity. }
  rewrite (malloc_place_eq (S fuel) s (sizeof_header + s) (r + sizeof_header)
             r NULL true st2 Hrn Han Hfo).
  change ((NULL =? NULL) && negb true) with false. cbv iota.
  change (0 =? -1) with false. cbv iota.
  destruct (insert_block_done (r + sizeof_header) s r NULL st2 Han Hrn)
    as (st3 & Hib3 & _).
  rewrite Hib3.
  pose proof (insert_block_inv _ _ _ _ _ _ _ Hib3)
    as (_ & _ & Hs3 & He3 & Hw3 & _).
  destruct (insert_block_header _ _ _ _ _ _ _ Hib3)
    as (Hd3 & Hm3 & Hn3 & Hp3); [right; left; lia|].
  specialize (Hp3 Hrn).
  pose proof (insert_block_frame _ _ _ _ _ _ _ Hib3) as F3.
  unfold st2 in Hs3, He3, Hw3, F3. proj_red.
  change (wrap64 NULL) with NULL in Hn3.
  rewrite (wrap64_small s) in Hd3 by (unfold sizeof_header in *; lia).
  rewrite (wrap64_small (r + sizeof_header)) in Hp3
    by (unfold sizeof_header in *; lia).
  assert (Hq : wrap64 (r + sizeof_header + sizeof_header)
               = r + 2 * sizeof_header)
    by (rewrite wrap64_small; unfold sizeof_header in *; lia).
  rewrite Hq. exists st3. split; [reflexivity|].
  assert (Hd3r : get_dsize (mem st3) r = 0).
  { rewrite <- Hd1. apply get_dsize_frame. intros x Hx.
    apply F3; unfold sizeof_header; lia. }
  split; [exact Hs3|]. split; [exact He3|]. split; [congruence|].
  split; [exact Hd3r|]. split; [exact Hd3|]. split.
  - intros x Hx. rewrite F3 by (unfold sizeof_header in *; lia).
    apply F1; [unfold sizeof_header in *; lia | left; reflexivity].
  - split; [lia|]. split; [lia|]. rewrite Hs3.
    apply layout_cons_intro.
    + exact Hp3.
    + exact Han.
    + apply valid_header_intro; rewrite ?Hs3, ?He3;
        [unfold sizeof_header in *; lia | unfold sizeof_header; lia
        | unfold sizeof_header in *; lia | exact Hm3].
    + unfold block_end. rewrite Hd3r. lia.
    + apply layout_nil_intro; [exact Hn3|].
      unfold block_end. rewrite Hd3, He3. lia.
Qed.

Lemma first_malloc_refused_eq (fuel : nat) (s r : Z) (w : world)
    (st : state) :
  heap_start st = NULL ->
  sbrk (to_int (wrap64 (sizeof_header + wrap64 (sizeof_header + s))))
       (env st) = (r, w) ->
  wrap64 r = MINUS_ONE ->
  custom_malloc fuel s st
  = Done NULL (mkState NULL (heap_end st) (mem st) w).
Proof.
  intros Hs Hsbrk Hr.
  rewrite (custom_malloc_uninitialised _ _ _ Hs), init_heap_eq, Hsbrk, Hr.
  change (MINUS_ONE =? MINUS_ONE) with true. cbv iota. proj_red.
  reflexivity.
Qed.

(** X10: the first [custom_malloc], on a heap not yet initialised, for a
    size with two headers plus [s] below 2^31 (so that the cast to [int]
    keeps the amount), asks [sbrk] once, for two headers plus [s] bytes;
    when [sbrk] answers with the address [r], the dummy head of size 0 is
    written at [r], the block's header right behind it, the pointer
    returned is [r + 2 * sizeof(header_t)], and the heap spans exactly
    [r, r + 2 * sizeof(header_t) + s) and is uncorrupted with that one
    block; no byte outside the two headers is written. *)
Theorem first_malloc_initialises_heap (fuel : nat) (s r : Z) (w : world)
    (st : state) :
  heap_start st = NULL -> 0 <= s -> (0 < fuel)%nat ->
  2 * sizeof_header + s < 2 ^ 31 ->
  sbrk (2 * sizeof_header + s) (env st) = (r, w) ->
  0 < r -> r + 2 * sizeof_header + s < 2 ^ 64 ->
  exists st',
    custom_malloc fuel s st = Done (r + 2 * sizeof_header) st' /\
    heap_start st' = r /\ heap_end st' = r + 2 * sizeof_header + s /\
    env st' = w /\
    get_dsize (mem st') r = 0 /\
    get_dsize (mem st') (r + sizeof_header) = s /\
    (forall x, x < r \/ r + 2 * sizeof_header <= x -> mem st' x = mem st x) /\
    uncorrupted st' [r + sizeof_header].
Proof.
  intros Hs Hs0 Hf Hint Hsbrk Hr Hb.
  apply (first_malloc_granted fuel s r w st Hs Hs0 Hf); [|exact Hr|exact Hb].
  rewrite to_int_small by (unfold sizeof_header in *; lia). exact Hsbrk.
Qed.

(** X11: when [sbrk] refuses the first request, [custom_malloc] returns
    null, the heap stays uninitialised and no byte is written, whatever
    the size asked for. *)
Theorem first_malloc_refused (fuel : nat) (s r : Z) (w : world) (st : state) :
  heap_start st = NULL ->
  sbrk (to_int (wrap64 (sizeof_header + wrap64 (sizeof_header + s))))
       (env st) = (r, w) ->
  wrap64 r = MINUS_ONE ->
  custom_malloc fuel s st
  = Done NULL (mkState NULL (heap_end st) (mem st) w).
Proof. apply first_malloc_refused_eq. Qed.

(** ** Zeroed allocation on an uncorrupted heap *)

Lemma layout_headers_frame (st st' : state) :
  heap_start st' = heap_start st ->
  heap_end st <= heap_end st' -> heap_end st' < 2 ^ 64 ->
  forall rest h,
    0 <= h ->
    (forall k x, In k (h :: rest) -> k <= x < k + 24 -> mem st' x = mem st x) ->
    layout st h rest = true -> layout st' h rest = true.
Proof.
  intros Hs He1 He2.
  induction rest as [|n rest IH]; intros h Hh Hm Hl.
  - apply layout_nil in Hl. destruct Hl as [Hn Hle].
    apply layout_nil_intro.
    + rewrite <- Hn. apply get_next_frame. intros x Hx.
      apply (Hm h); [left; reflexivity | lia].
    + unfold block_end in *.
      rewrite (get_dsize_frame (mem st))
        by (intros x Hx; apply (Hm h); [left; reflexivity | lia]).
      lia.
  - pose proof (layout_block_end_le _ _ _ Hl) as Hbe.
    pose proof (block_end_lower st h) as Hlo.
    apply layout_cons in Hl. destruct Hl as (Hn & Hn0 & Hv & Hle & Hl).
    apply layout_cons_intro.
    + rewrite <- Hn. apply get_next_frame. intros x Hx.
      apply (Hm h); [left; reflexivity | lia].
    + exact Hn0.
    + apply (valid_header_frame st st' n Hs);
        [unfold sizeof_header in *; lia | lia | lia | | exact Hv].
      apply get_magic_frame. intros x Hx.
      apply (Hm n); [right; left; reflexivity | lia].
    + unfold block_end in *.
      rewrite (get_dsize_frame (mem st))
        by (intros x Hx; apply (Hm h); [left; reflexivity | lia]).
      exact Hle.
    + apply IH; [unfold sizeof_header in *; lia | | exact Hl].
      intros k x Hk Hx. apply (Hm k); [right; exact Hk | exact Hx].
Qed.

(** Writing into the data of one listed block leaves the list as it is. *)
Lemma layout_data_frame (st st' : state) (a : Z) (rest : list Z) (h : Z) :
  heap_start st' = heap_start st ->
  heap_end st' = heap_end st -> heap_end st < 2 ^ 64 -> 0 <= h ->
  (forall x, x < a + sizeof_header \/ block_end st a <= x ->
             mem st' x = mem st x) ->
  layout st h rest = true -> In a (h :: rest) ->
  layout st' h rest = true.
Proof.
  intros Hs He Hb Hh Hm Hl Ha.
  apply (layout_headers_frame st st' Hs); [lia | lia | exact Hh | | exact Hl].
  intros k x Hk Hx. apply Hm.
  pose proof (block_end_lower st k) as Hlo. unfold sizeof_header in *.
  destruct (Z.lt_trichotomy k a) as [Hlt|[Heq|Hgt]].
  - destruct (layout_succ st rest h k a Hl Hk Ha Hlt) as (_ & A & B). lia.
  - lia.
  - destruct (layout_succ st rest h a k Hl Ha Hk Hgt) as (_ & A & B). lia.
Qed.

(** X15: a successful [custom_calloc] on an uncorrupted heap leaves an
    uncorrupted heap: the zeroing stays inside the data of the block just
    linked, whose [dsize] is the product taken in [size_t]; every byte of
    that block is zero and the data of the blocks already there is
    untouched. *)
Theorem calloc_keeps_heap_uncorrupted (fuel : nat) (nmemb s q : Z)
    (st st' : state) (rest : list Z) :
  uncorrupted st rest -> nmemb <> 0 -> s <> 0 ->
  heap_end st + sizeof_header + wrap64 (nmemb * s) < 2 ^ 64 ->
  (length rest < fuel)%nat ->
  custom_calloc fuel nmemb s st = Done q st' -> q <> NULL ->
  exists prev,
    In prev (heap_start st :: rest) /\
    uncorrupted st'
      (insert_after prev (q - sizeof_header) (heap_start st) rest) /\
    get_dsize (mem st') (q - sizeof_header) = wrap64 (nmemb * s) /\
    (forall x, q <= x < q + wrap64 (nmemb * s) -> mem st' x = 0) /\
    (forall k x, In k (heap_start st :: rest) ->
                 k + sizeof_header <= x < block_end st k ->
                 mem st' x = mem st x).
Proof.
  intros Hu Hn Hs Hb Hf Hc Hq.
  pose proof (wrap64_range (nmemb * s)) as Hsz.
  set (size := wrap64 (nmemb * s)) in *.
  rewrite (custom_calloc_eq fuel nmemb s st Hn Hs) in Hc. fold size in Hc.
  destruct (custom_malloc fuel size st) as [array st1| | |] eqn:Hm;
    try discriminate.
  destruct (Z.eqb_spec array NULL) as [Ha|Ha]; [congruence|].
  destruct ((size =? 0) || accessible (env st1) array size);
    [|discriminate].
  assert (Hqa : q = array) by congruence. subst array.
  assert (Hst : st' = mkState (heap_start st1) (heap_end st1)
                        (filled (mem st1) q 0 size) (env st1))
    by congruence.
  clear Hc.
  assert (Hs0 : 0 <= size) by lia.
  destruct (malloc_links_block fuel size q st st1 rest Hu Hs0 Hb Hf Hm Hq)
    as (prev & Hin & Hqb & _ & Hs1 & _ & _ & Hd & _ & _ & _ & K).
  exists prev. split; [exact Hin|].
  set (a := q - sizeof_header) in *.
  assert (HaL : In a (insert_after prev a (heap_start st) rest))
    by (apply In_insert_after; exact Hin).
  assert (Hbe : block_end st1 a = q + size)
    by (unfold block_end; rewrite Hd; unfold a; lia).
  assert (Hfr : forall x, x < a + sizeof_header \/ block_end st1 a <= x ->
                          mem st' x = mem st1 x).
  { intros x Hx. rewrite Hst. proj_red. apply filled_outside.
    rewrite Hbe in Hx. unfold a in Hx. lia. }
  destruct K as (K1 & K2 & K3).
  split; [|split; [|split]].
  - split; [rewrite Hst; exact K1|]. split; [rewrite Hst; exact K2|].
    replace (heap_start st') with (heap_start st1) by (rewrite Hst; reflexivity).
    apply (layout_data_frame st1 st' a _ _);
      [rewrite Hst; reflexivity | rewrite Hst; reflexivity | exact K2 | lia
      | exact Hfr | exact K3 | right; exact HaL].
  - rewrite <- Hd. apply get_dsize_frame. intros x Hx. apply Hfr.
    unfold sizeof_header. lia.
  - intros x Hx. rewrite Hst. proj_red.
    rewrite filled_inside by exact Hx. reflexivity.
  - intros k x Hk Hx.
    destruct (malloc_live_blocks fuel size q k st st1 rest Hu Hs0 Hb Hf Hm Hq Hk)
      as (_ & _ & F & Hd2).
    rewrite <- (F x Hx). rewrite Hst. proj_red. apply filled_outside.
    pose proof (block_end_lower st k). unfold sizeof_header in *. lia.
Qed.

(** ** When the break is left alone *)

Lemma layout_last_header (st : state) (rest : list Z) : forall h p,
  layout st h rest = true -> In p (h :: rest) ->
  get_next (mem st) p = NULL -> p = last_header h rest.
Proof.
  induction rest as [|n rest IH]; intros h p Hl Hp Hn.
  - destruct Hp as [<-|[]]. reflexivity.
  - apply layout_cons in Hl. destruct Hl as (Hnx & Hn0 & _ & _ & Hl).
    cbn [last_header]. destruct Hp as [<-|Hp]; [congruence|].
    apply (IH n p Hl Hp Hn).
Qed.

(** X16: [custom_malloc] calls [sbrk] only for a block placed behind the
    last header: whenever the pointer returned lies at or below the last
    header of the list, the program break and [heap_end] are as before. *)
Theorem malloc_into_gap_leaves_break (fuel : nat) (s q : Z) (st st' : state)
    (rest : list Z) :
  uncorrupted st rest -> 0 <= s -> heap_end st + sizeof_header + s < 2 ^ 64 ->
  (length rest < fuel)%nat ->
  custom_malloc fuel s st = Done q st' -> q <> NULL ->
  q <= last_header (heap_start st) rest ->
  heap_end st' = heap_end st /\ env st' = env st.
Proof.
  intros Hu Hs0 Hb Hf Hm Hq Hlast. pose proof Hu as (Hs & He & Hl).
  assert (Hsn : heap_start st <> NULL) by (unfold NULL; lia).
  assert (Hbs : wrap64 (sizeof_header + s) = sizeof_header + s).
  { pose proof (layout_block_end_le _ _ _ Hl).
    pose proof (block_end_lower st (heap_start st)).
    apply wrap64_small. unfold sizeof_header in *. lia. }
  rewrite (custom_malloc_initialised _ _ _ Hsn), Hbs in Hm.
  destruct (find_opening_layout st (sizeof_header + s) He rest (heap_start st)
              fuel Hs Hl Hf) as (a & prev & next & Hfo & Ha & _).
  destruct (find_opening_prev st (sizeof_header + s) He rest (heap_start st)
              fuel a prev next Hs Hl Hfo) as (Hin & Hab & Hnx & _).
  assert (Han : a <> NULL) by (unfold NULL; lia).
  pose proof (layout_In_block_end st rest _ _ Hl Hin) as Hle.
  assert (Hqw : wrap64 (a + sizeof_header) = a + sizeof_header).
  { apply wrap64_small. unfold sizeof_header in *. lia. }
  rewrite (malloc_place_eq fuel s (sizeof_header + s) a prev next false st
             Hsn Han Hfo), Hqw in Hm.
  destruct (Z.eqb_spec next NULL) as [Hnn|Hnn].
  - exfalso. cbn [negb andb] in Hm.
    assert (Hp : prev = last_header (heap_start st) rest).
    { apply (layout_last_header st rest _ _ Hl Hin). congruence. }
    assert (Hqv : q = NULL \/ q = a + sizeof_header).
    { destruct (expand_heap a (sizeof_header + s) st) as [r st1| | |];
        try discriminate.
      destruct (r =? -1); [left; congruence|].
      destruct (insert_block a s prev next st1); try discriminate.
      right. congruence. }
    destruct Hqv as [Hqv|Hqv]; [contradiction|].
    pose proof (block_end_lower st prev). unfold sizeof_header in *. lia.
  - cbn [andb] in Hm. change (0 =? -1) with false in Hm. cbv iota in Hm.
    destruct (insert_block a s prev next st) as [u st2| | |] eqn:Hib;
      try discriminate.
    apply insert_block_inv in Hib.
    destruct Hib as (_ & _ & _ & He2 & Hw2 & _).
    assert (st' = st2) by congruence. subst st2. split; assumption.
Qed.

(** ** Sequences of allocations and releases *)

Lemma unlink_absent (target : Z) (rest : list Z) :
  ~ In target rest -> unlink target rest = rest.
Proof.
  induction rest as [|n rest IH]; intros H; [reflexivity|].
  cbn [unlink]. destruct (Z.eqb_spec n target) as [->|Hne].
  - exfalso. apply H. left. reflexivity.
  - f_equal. apply IH. intros Hin. apply H. right. exact Hin.
Qed.

(** A [custom_free] that gets as far as the lookup has a non-null target:
    [find_block] asserts it. *)
Lemma custom_free_target (fuel : nat) (p : Z) (st st' : state) u :
  custom_free fuel p st = Done u st' ->
  p <> NULL -> heap_start st <> NULL ->
  wrap64 (p - sizeof_header) <> heap_start st ->
  wrap64 (p - sizeof_header) <> NULL.
Proof.
  unfold custom_free. intros H Hp Hs Ht.
  rewrite (eqb_NULL_false _ Hp) in H.
  unfold bind at 1 in H. unfold read at 1 in H.
  rewrite (eqb_NULL_false _ Hs) in H.
  rewrite (proj2 (Z.eqb_neq _ _) Ht) in H. cbn [orb] in H.
  cbv zeta in H. unfold bind at 1 in H.
  destruct (find_block fuel (wrap64 (p - sizeof_header)) st)
    as [[block prev] st1| | |] eqn:Hfb; try discriminate.
  apply find_block_inv in Hfb. tauto.
Qed.

Lemma free_unlisted (fuel : nat) (p : Z) (st : state) (rest : list Z) :
  uncorrupted st rest -> (length rest + 1 < fuel)%nat ->
  ~ In (wrap64 (p - sizeof_header)) rest ->
  wrap64 (p - sizeof_header) <> NULL ->
  custom_free fuel p st = Done tt st.
Proof.
  intros Hu Hf Hnin Ht. apply custom_free_refuses.
  destruct (Z.eq_dec (wrap64 (p - sizeof_header)) (heap_start st)) as [He|Hne].
  - right. right. left. exact He.
  - right. right. right. left.
    exists (Some (last_header (heap_start st) rest)).
    destruct (find_block_uncorrupted fuel _ st rest Hu Ht Hf) as (_ & _ & H).
    apply H; assumption.
Qed.

(** X17: on an uncorrupted heap, [custom_free] of a pointer that is not
    the data pointer of a listed block (a null pointer, the dummy head, an
    address inside a block, an address outside the heap) returns and
    changes nothing at all. *)
Theorem free_of_unlisted_pointer_is_noop (fuel : nat) (p : Z) (st : state)
    (rest : list Z) :
  uncorrupted st rest -> (length rest + 1 < fuel)%nat ->
  ~ In (wrap64 (p - sizeof_header)) rest ->
  wrap64 (p - sizeof_header) <> NULL ->
  custom_free fuel p st = Done tt st.
Proof. apply free_unlisted. Qed.

(** Whatever pointer is released, the list afterwards is the list before
    without the pointer's header. *)
Lemma free_step (fuel : nat) (p : Z) (st st' : state) u (rest : list Z) :
  uncorrupted st rest -> (length rest + 1 < fuel)%nat -> 0 <= p < 2 ^ 64 ->
  custom_free fuel p st = Done u st' ->
  uncorrupted st' (unlink (wrap64 (p - sizeof_header)) rest).
Proof.
  intros Hu Hf Hp H. pose proof Hu as (Hs & He & Hl).
  assert (Hsn : heap_start st <> NULL) by (unfold NULL; lia).
  set (target := wrap64 (p - sizeof_header)) in *.
  destruct (in_dec Z.eq_dec target rest) as [Hin|Hnin].
  - pose proof (uncorrupted_In _ _ _ Hu Hin) as (A & B & _).
    assert (Hpt : p = target + sizeof_header).
    { unfold target, wrap64, sizeof_header in *.
      destruct (Z.lt_ge_cases p 24) as [Hlt|Hge].
      - exfalso.
        replace ((p - 24) mod 2 ^ 64) with (p - 24 + 2 ^ 64) in B.
        + lia.
        + apply (Z.mod_unique _ _ (-1)); lia.
      - rewrite Z.mod_small by lia. lia. }
    destruct (custom_free_unlinks fuel target st rest Hu Hin Hf)
      as (st2 & Hfr & _ & _ & _ & _ & _ & K).
    rewrite <- Hpt in Hfr. assert (st' = st2) by congruence. subst st2.
    exact K.
  - rewrite (unlink_absent _ _ Hnin).
    assert (Hst : custom_free fuel p st = Done tt st).
    { destruct (Z.eq_dec p NULL) as [->|Hpn].
      - apply custom_free_refuses. left. reflexivity.
      - destruct (Z.eq_dec target (heap_start st)) as [Ht|Ht].
        + apply custom_free_refuses. right. right. left. exact Ht.
        + apply (free_unlisted fuel p st rest Hu Hf Hnin).
          apply (custom_free_target fuel p st st' u H Hpn Hsn Ht). }
    assert (st' = st) by congruence. subst st'. exact Hu.
Qed.

Lemma uncorrupted_same_heap (st st' : state) (rest : list Z) :
  same_heap st st' -> uncorrupted st rest -> uncorrupted st' rest.
Proof.
  intros (Hs & He & Hm) (H0 & H1 & Hl).
  split; [lia|]. split; [lia|]. rewrite Hs.
  apply (layout_headers_frame st st' Hs); [lia | lia | lia | | exact Hl].
  intros k x _ _. rewrite Hm. reflexivity.
Qed.

Lemma heap_ok_mono (n m : nat) (st : state) :
  (n <= m)%nat -> heap_ok n st -> heap_ok m st.
Proof.
  intros Hnm [H|(rest & Hu & Hlen)]; [left; exact H|].
  right. exists rest. split; [exact Hu | lia].
Qed.

(** One [custom_malloc]: a null result leaves the heap as good as it was,
    any other result is the data pointer of a listed block of [s] bytes. *)
Lemma malloc_step (fuel n : nat) (s q : Z) (st st' : state) :
  heap_ok n st -> room s st -> (n < fuel)%nat ->
  custom_malloc fuel s st = Done q st' ->
  (q = NULL /\ heap_ok n st') \/
  (q <> NULL /\
   exists rest, uncorrupted st' rest /\ (length rest <= S n)%nat /\
                In (q - sizeof_header) rest /\
                get_dsize (mem st') (q - sizeof_header) = s).
Proof.
  intros Hok (Hs0 & Hinit & Hfirst) Hf Hm.
  destruct Hok as [Hn|(rest & Hu & Hlen)].
  - destruct (sbrk (to_int (wrap64 (sizeof_header
                                      + wrap64 (sizeof_header + s))))
                   (env st)) as [r w] eqn:Hsbrk.
    destruct (Hfirst Hn r w eq_refl) as [Hr|[Hr Hb]].
    + rewrite (first_malloc_refused_eq fuel s r w st Hn Hsbrk Hr) in Hm.
      left. split; [congruence|]. left.
      assert (Hst : st' = mkState NULL (heap_end st) (mem st) w)
        by congruence.
      rewrite Hst. reflexivity.
    + assert (Hw : wrap64 (sizeof_header + wrap64 (sizeof_header + s))
                   = 2 * sizeof_header + s).
      { rewrite (wrap64_small (sizeof_header + s))
          by (unfold sizeof_header in *; lia).
        rewrite wrap64_small; unfold sizeof_header in *; lia. }
      rewrite Hw in Hsbrk.
      assert (Hf0 : (0 < fuel)%nat) by lia.
      destruct (first_malloc_granted fuel s r w st Hn Hs0 Hf0 Hsbrk Hr Hb)
        as (st2 & Hm2 & _ & _ & _ & _ & Hd & _ & Hu2).
      assert (Hq : q = r + 2 * sizeof_header) by congruence.
      assert (st' = st2) by congruence. subst st2.
      right. split; [unfold NULL, sizeof_header in *; lia|].
      exists [r + sizeof_header]. split; [exact Hu2|].
      split; [cbn [length]; lia|].
      replace (q - sizeof_header) with (r + sizeof_header) by lia.
      split; [left; reflexivity | exact Hd].
  - pose proof Hu as (H0 & H1 & Hl).
    assert (Hsn : heap_start st <> NULL) by (unfold NULL; lia).
    specialize (Hinit Hsn).
    assert (Hfr : (length rest < fuel)%nat) by lia.
    destruct (Z.eq_dec q NULL) as [Hq|Hq].
    + left. split; [exact Hq|]. right. exists rest. split; [|exact Hlen].
      apply (uncorrupted_same_heap st st'); [|exact Hu].
      apply (malloc_null_guarded fuel s st st'); [congruence|].
      right. split; [exact Hsn|].
      apply (uncorrupted_no_top_opening fuel s st rest Hu); [|exact Hfr].
      unfold sizeof_header in *. lia.
    + right. split; [exact Hq|].
      destruct (malloc_links_block fuel s q st st' rest Hu Hs0 Hinit Hfr Hm Hq)
        as (prev & Hin & _ & _ & _ & _ & _ & Hd & _ & _ & _ & K).
      exists (insert_after prev (q - sizeof_header) (heap_start st) rest).
      split; [exact K|]. split.
      * pose proof (length_insert_after prev (q - sizeof_header) rest
                      (heap_start st)). lia.
      * split; [apply In_insert_after; exact Hin | exact Hd].
Qed.

Lemma calloc_step (fuel n : nat) (nmemb s q : Z) (st st' : state) :
  heap_ok n st -> room (wrap64 (nmemb * s)) st -> (n < fuel)%nat ->
  custom_calloc fuel nmemb s st = Done q st' -> heap_ok (S n) st'.
Proof.
  intros Hok Hroom Hf Hc.
  assert (Hn1 : (n <= S n)%nat) by lia.
  destruct (Z.eq_dec nmemb 0) as [Hn|Hn].
  { unfold custom_calloc in Hc. rewrite Hn in Hc.
    change ((0 =? 0) || (s =? 0)) with true in Hc. cbv iota in Hc.
    unfold ret in Hc. assert (st' = st) by congruence. subst st'.
    apply (heap_ok_mono n); assumption. }
  destruct (Z.eq_dec s 0) as [Hs|Hs].
  { unfold custom_calloc in Hc. rewrite Hs in Hc.
    rewrite orb_true_r in Hc.
    unfold ret in Hc. assert (st' = st) by congruence. subst st'.
    apply (heap_ok_mono n); assumption. }
  rewrite (custom_calloc_eq fuel nmemb s st Hn Hs) in Hc.
  set (size := wrap64 (nmemb * s)) in *.
  destruct (custom_malloc fuel size st) as [array st1| | |] eqn:Hm;
    try discriminate.
  destruct (malloc_step fuel n size array st st1 Hok Hroom Hf Hm)
    as [[Ha Hok1]|(Ha & rest & Hu & Hlen & Hin & Hd)].
  - rewrite Ha in Hc. change (NULL =? NULL) with true in Hc. cbv iota in Hc.
    assert (st' = st1) by congruence. subst st'.
    apply (heap_ok_mono n); assumption.
  - rewrite (eqb_NULL_false _ Ha) in Hc.
    destruct ((size =? 0) || accessible (env st1) array size);
      [|discriminate].
    assert (Hst : st' = mkState (heap_start st1) (heap_end st1)
                          (filled (mem st1) array 0 size) (env st1))
      by congruence.
    right. exists rest. split; [|exact Hlen].
    destruct Hu as (K1 & K2 & K3).
    split; [rewrite Hst; exact K1|]. split; [rewrite Hst; exact K2|].
    replace (heap_start st') with (heap_start st1)
      by (rewrite Hst; reflexivity).
    apply (layout_data_frame st1 st' (array - sizeof_header) _ _);
      [rewrite Hst; reflexivity | rewrite Hst; reflexivity | exact K2 | lia
      | | exact K3 | right; exact Hin].
    intros x Hx. rewrite Hst. proj_red. apply filled_outside.
    unfold block_end in Hx. rewrite Hd in Hx. lia.
Qed.

(** X18: from an uninitialised heap, any sequence of [custom_malloc],
    [custom_calloc] and [custom_free] calls that return, with requests
    that stay inside the address space, leaves the heap uninitialised or
    uncorrupted, whatever pointers are released; the list holds at most as
    many blocks as calls were made. *)
Theorem plain_calls_keep_heap_uncorrupted (fuel n : nat) (st : state) :
  served fuel n st -> (n < fuel)%nat -> heap_ok n st.
Proof.
  intros H. induction H as [st H0|n st o r st' Hsv IH Hcall Hex]; intros Hf.
  - left. exact H0.
  - assert (Hok : heap_ok n st) by (apply IH; lia).
    assert (Hn : (n < fuel)%nat) by lia.
    assert (Hn1 : (n <= S n)%nat) by lia.
    destruct o as [s|p s|nmemb s|p]; cbn [plain_call exec] in Hcall, Hex.
    + destruct (malloc_step fuel n s r st st' Hok Hcall Hn Hex)
        as [[_ Hok']|(_ & rest & Hu & Hlen & _)].
      * apply (heap_ok_mono n); assumption.
      * right. exists rest. split; assumption.
    + contradiction.
    + apply (calloc_step fuel n nmemb s r st st' Hok Hcall Hn Hex).
    + unfold bind in Hex.
      destruct (custom_free fuel p st) as [u st1| | |] eqn:Hfr;
        try discriminate.
      unfold ret in Hex. assert (st' = st1) by congruence. subst st1.
      destruct Hok as [H0|(rest & Hu & Hlen)].
      * left.
        assert (Hst : custom_free fuel p st = Done tt st).
        { apply custom_free_refuses. right. left. exact H0. }
        assert (st' = st) by congruence. subst st'. exact H0.
      * right. exists (unlink (wrap64 (p - sizeof_header)) rest). split.
        -- apply (free_step fuel p st st' u rest Hu); [lia | exact Hcall
                                                      | exact Hfr].
        -- pose proof (length_unlink (wrap64 (p - sizeof_header)) rest). lia.
Qed.

(** ** Resizing: the remaining cases *)

(** X19: [custom_realloc] of a listed block to size 0 is [custom_free] of
    that block followed by a null result: the block leaves the list and
    the heap stays uncorrupted. *)
Theorem realloc_to_zero_releases (fuel : nat) (k : Z) (st : state)
    (rest : list Z) :
  uncorrupted st rest -> In k rest -> (length rest + 1 < fuel)%nat ->
  exists st',
    custom_realloc fuel (k + sizeof_header) 0 st = Done NULL st' /\
    custom_free fuel (k + sizeof_header) st = Done tt st' /\
    uncorrupted st' (unlink k rest) /\ ~ In k (unlink k rest).
Proof.
  intros Hu Hin Hf. pose proof Hu as (Hs & _ & Hl).
  pose proof (uncorrupted_In _ _ _ Hu Hin) as (A & _).
  destruct (custom_free_unlinks fuel k st rest Hu Hin Hf)
    as (st' & Hfr & _ & _ & _ & _ & _ & K).
  exists st'. split; [|split; [exact Hfr|split; [exact K|]]].
  - unfold custom_realloc.
    rewrite (eqb_NULL_false (k + sizeof_header))
      by (unfold NULL, sizeof_header in *; lia).
    change (0 =? 0) with true. cbv iota.
    unfold bind. rewrite Hfr. reflexivity.
  - apply (unlink_not_In st k rest _ Hl).
Qed.

(** X20: on an uncorrupted heap, [custom_realloc] with a non-zero size of
    a pointer that is neither null, nor the dummy head's, nor that of a
    listed block returns null and changes nothing at all. *)
Theorem realloc_of_unlisted_pointer_returns_null (fuel : nat) (p s : Z)
    (st : state) (rest : list Z) :
  uncorrupted st rest -> (length rest + 1 < fuel)%nat ->
  p <> NULL -> s <> 0 ->
  wrap64 (p - sizeof_header) <> NULL ->
  wrap64 (p - sizeof_header) <> heap_start st ->
  ~ In (wrap64 (p - sizeof_header)) rest ->
  custom_realloc fuel p s st = Done NULL st.
Proof.
  intros Hu Hf Hp Hs Ht Hd Hnin.
  destruct (find_block_uncorrupted fuel _ st rest Hu Ht Hf) as (_ & _ & H).
  specialize (H Hd Hnin).
  unfold custom_realloc.
  rewrite (eqb_NULL_false _ Hp), (proj2 (Z.eqb_neq _ _) Hs).
  cbv zeta. unfold bind at 1. rewrite H. cbv beta iota.
  change (fst (NULL, Some (last_header (heap_start st) rest))) with NULL.
  change (NULL =? NULL) with true. cbv iota. reflexivity.
Qed.

(** ** Allocation behind the last block *)

(** When no gap between the blocks of an uncorrupted heap is large enough
    and the block does not fit below [heap_end], [sbrk] is called with the
    missing bytes cast to [int], and its answer decides. *)
Lemma malloc_behind_last_block (fuel : nat) (s r : Z) (w : world)
    (st : state) (rest : list Z) :
  uncorrupted st rest -> 0 <= s -> (length rest < fuel)%nat ->
  (forall b sz, In (b, sz) (gaps st (heap_start st) rest) ->
                sz < sizeof_header + s) ->
  heap_end st < last_end st (heap_start st) rest + sizeof_header + s < 2 ^ 64 ->
  sbrk (to_int (last_end st (heap_start st) rest + sizeof_header + s
                - heap_end st)) (env st) = (r, w) ->
  (wrap64 r = MINUS_ONE ->
   custom_malloc fuel s st
   = Done NULL (mkState (heap_start st) (heap_end st) (mem st) w)) /\
  (wrap64 r <> MINUS_ONE ->
   exists st',
     custom_malloc fuel s st
     = Done (last_end st (heap_start st) rest + sizeof_header) st' /\
     heap_start st' = heap_start st /\
     heap_end st' = last_end st (heap_start st) rest + sizeof_header + s /\
     env st' = w).
Proof.
  intros Hu Hs0 Hf Hsmall Hb Hsbrk. pose proof Hu as (Hs & He & Hl).
  assert (Hsn : heap_start st <> NULL) by (unfold NULL; lia).
  destruct (find_opening_layout st (sizeof_header + s) He rest (heap_start st)
              fuel Hs Hl Hf) as (a & prev & next & Hfo & Ha & _ & Hcase).
  destruct Hcase as [(_ & sz & Hin & Hsz)|(Hnx & Hlast & _)].
  { specialize (Hsmall _ _ Hin). lia. }
  rewrite <- Hlast in *. subst next.
  assert (Hbs : wrap64 (sizeof_header + s) = sizeof_header + s)
    by (apply wrap64_small; unfold sizeof_header in *; lia).
  assert (Han : a <> NULL) by (unfold NULL; lia).
  assert (Hqw : wrap64 (a + sizeof_header) = a + sizeof_header)
    by (apply wrap64_small; unfold sizeof_header in *; lia).
  assert (Hbe : wrap64 (a + (sizeof_header + s)) = a + sizeof_header + s)
    by (rewrite wrap64_small; unfold sizeof_header in *; lia).
  assert (Hex : wrap64 (a + sizeof_header + s - heap_end st)
                = a + sizeof_header + s - heap_end st)
    by (apply wrap64_small; unfold sizeof_header in *; lia).
  assert (Hne : wrap64 (heap_end st + (a + sizeof_header + s - heap_end st))
                = a + sizeof_header + s).
  { replace (heap_end st + (a + sizeof_header + s - heap_end st))
      with (a + sizeof_header + s) by lia.
    apply wrap64_small. unfold sizeof_header in *. lia. }
  rewrite (custom_malloc_initialised _ _ _ Hsn), Hbs.
  rewrite (malloc_place_eq fuel s (sizeof_header + s) a prev NULL false st
             Hsn Han Hfo), Hqw.
  change ((NULL =? NULL) && negb false) with true. cbv iota.
  rewrite (expand_heap_eq a (sizeof_header + s) st Han Hsn), Hbe.
  destruct (Z.ltb_spec (heap_end st) (a + sizeof_header + s)); [|lia].
  rewrite Hex, Hsbrk, Hne.
  split; intros Hr.
  - rewrite Hr. change (MINUS_ONE =? MINUS_ONE) with true. cbv iota.
    change (-1 =? -1) with true. cbv iota. reflexivity.
  - rewrite (proj2 (Z.eqb_neq _ _) Hr).
    change (0 =? -1) with false. cbv iota.
    destruct (insert_block_done a s prev NULL
                (mkState (heap_start st) (a + sizeof_header + s) (mem st) w)
                Han Hsn) as (st' & Hib & _).
    rewrite Hib. exists st'. split; [reflexivity|].
    apply insert_block_inv in Hib.
    destruct Hib as (_ & _ & A & B & C & _). proj_red. auto.
Qed.

(** X21: when no gap between the blocks of an uncorrupted heap is large
    enough for header plus [s] bytes and the block would end beyond
    [heap_end], by less than 2^31 bytes and below 2^64, [custom_malloc]
    asks [sbrk] for exactly the missing bytes; if [sbrk] refuses, null is
    returned and globals and memory are untouched. *)
Theorem malloc_behind_last_block_refused (fuel : nat) (s r : Z) (w : world)
    (st : state) (rest : list Z) :
  uncorrupted st rest -> 0 <= s -> (length rest < fuel)%nat ->
  (forall b sz, In (b, sz) (gaps st (heap_start st) rest) ->
                sz < sizeof_header + s) ->
  heap_end st < last_end st (heap_start st) rest + sizeof_header + s < 2 ^ 64 ->
  last_end st (heap_start st) rest + sizeof_header + s - heap_end st < 2 ^ 31 ->
  sbrk (last_end st (heap_start st) rest + sizeof_header + s - heap_end st)
       (env st) = (r, w) ->
  wrap64 r = MINUS_ONE ->
  custom_malloc fuel s st
  = Done NULL (mkState (heap_start st) (heap_end st) (mem st) w).
Proof.
  intros Hu Hs0 Hf Hsmall Hb Hint Hsbrk Hr.
  rewrite <- (to_int_small (last_end st (heap_start st) rest + sizeof_header
                            + s - heap_end st)) in Hsbrk by lia.
  exact (proj1 (malloc_behind_last_block fuel s r w st rest Hu Hs0 Hf Hsmall
                  Hb Hsbrk) Hr).
Qed.


(** ** First fit *)


(** ** A broken header *)

Lemma find_block_loop_chain (st : state) (target : Z) :
  forall pre h fuel prev0,
    chain st h pre = true -> h <> NULL ->
    ~ In target (h :: pre) ->
    valid_header st (get_next (mem st) (last_header h pre)) = false ->
    (length pre + 1 < fuel)%nat ->
    find_block_loop fuel st target h prev0
    = Some (MINUS_ONE, Some (last_header h pre)).
Proof.
  induction pre as [|n pre IH]; intros h fuel prev0 Hc Hh Hnin Hbad Hf.
  - destruct fuel as [|fuel]; [cbn in Hf; lia|].
    cbn [find_block_loop]. cbv zeta.
    rewrite (eqb_NULL_false _ Hh).
    destruct (Z.eqb_spec h target) as [Heq|_];
      [exfalso; apply Hnin; left; exact Heq|].
    cbn [last_header] in *. rewrite Hbad. reflexivity.
  - destruct fuel as [|fuel]; [cbn in Hf; lia|].
    cbn [chain] in Hc. apply andb_prop in Hc. destruct Hc as [Hc Hc4].
    apply andb_prop in Hc. destruct Hc as [Hc Hc3].
    apply andb_prop in Hc. destruct Hc as [Hc1 Hc2].
    apply Z.eqb_eq in Hc1. apply negb_true_iff in Hc2.
    apply Z.eqb_neq in Hc2.
    cbn [find_block_loop]. cbv zeta.
    rewrite (eqb_NULL_false _ Hh).
    destruct (Z.eqb_spec h target) as [Heq|_];
      [exfalso; apply Hnin; left; exact Heq|].
    rewrite Hc1, Hc3. cbn [negb last_header].
    apply (IH n fuel (Some h) Hc4 Hc2).
    + intros Hin. apply Hnin. right. exact Hin.
    + exact Hbad.
    + cbn in Hf. lia.
Qed.

(** X22: when the walk from the dummy head reaches a header that
    [valid_header] rejects before it reaches the block asked for,
    [find_block] answers [(void * ) -1]; [custom_free] then returns
    without changing anything, and so does [custom_realloc], with a null
    result. *)
Theorem broken_header_is_reported (fuel : nat) (p s : Z) (st : state)
    (pre : list Z) :
  heap_start st <> NULL -> wrap64 (p - sizeof_header) <> NULL ->
  chain st (heap_start st) pre = true ->
  ~ In (wrap64 (p - sizeof_header)) (heap_start st :: pre) ->
  valid_header st (get_next (mem st) (last_header (heap_start st) pre))
  = false ->
  (length pre + 1 < fuel)%nat ->
  find_block fuel (wrap64 (p - sizeof_header)) st
  = Done (MINUS_ONE, Some (last_header (heap_start st) pre)) st /\
  custom_free fuel p st = Done tt st /\
  (p <> NULL -> s <> 0 -> custom_realloc fuel p s st = Done NULL st).
Proof.
  intros Hs Ht Hc Hnin Hbad Hf.
  assert (Hfb : find_block fuel (wrap64 (p - sizeof_header)) st
                = Done (MINUS_ONE, Some (last_header (heap_start st) pre)) st).
  { rewrite (find_block_eq _ _ _ Hs Ht).
    rewrite (find_block_loop_chain st _ pre (heap_start st) fuel None
               Hc Hs Hnin Hbad Hf).
    reflexivity. }
  split; [exact Hfb|]. split.
  - apply custom_free_refuses. right. right. right. right.
    exists (Some (last_header (heap_start st) pre)). exact Hfb.
  - intros Hp Hs0. unfold custom_realloc.
    rewrite (eqb_NULL_false _ Hp), (proj2 (Z.eqb_neq _ _) Hs0).
    cbv zeta. unfold bind at 1. rewrite Hfb. cbv beta iota.
    change (fst (MINUS_ONE, Some (last_header (heap_start st) pre)))
      with MINUS_ONE.
    change (MINUS_ONE =? NULL) with false. cbv iota.
    change (MINUS_ONE =? MINUS_ONE) with true. cbv iota. reflexivity.
Qed.

End Properties.

(** * The properties at work on concrete heaps *)

Lemma heap_ab_shape :
  heap_start heap_ab = 4096 /\ heap_end heap_ab = 4198 /\
  get_next (mem heap_ab) 4096 = 4120 /\
  get_next (mem heap_ab) 4120 = 4154 /\
  get_next (mem heap_ab) 4154 = NULL /\
  get_dsize (mem heap_ab) 4120 = 10 /\ get_dsize (mem heap_ab) 4154 = 20.
Proof. repeat (split; [vm_compute; reflexivity|]). vm_compute; reflexivity. Qed.

(** C1: [a = malloc(10)], [b = malloc(20)], then [realloc(a, 1000)].  Block
    [a] (header 4120, data 4144) has [b]'s header as successor at 4154, ten
    bytes after its data starts, and yet the call keeps the pointer and
    records 1000 bytes in place: the block now runs over its successor. *)
Theorem realloc_overruns_successor :
  get_next (mem heap_ab) 4120 = 4154 /\
  custom_realloc 4 4144 1000 heap_ab
  = Done 4144 (final_state (custom_realloc 4 4144 1000) heap_ab) /\
  get_dsize (mem (final_state (custom_realloc 4 4144 1000) heap_ab)) 4120
  = 1000 /\
  4154 < 4120 + sizeof_header + 1000.
Proof.
  split; [vm_compute; reflexivity|].
  split; [apply run_done; vm_compute; reflexivity|].
  split; vm_compute; reflexivity.
Qed.

(** C3: on the same heap, [realloc(b, 100000)] for the last block [b]
    (header 4154, data 4178) needs the region to grow past the
    collaborator's limit; [expand_heap] reports -1, and the call still
    returns [b] and records 100000 bytes, [heap_end] staying at 4198. *)
Theorem realloc_ignores_failed_growth :
  get_next (mem heap_ab) 4154 = NULL /\
  returned (expand_heap 4154 (100000 + sizeof_header)) heap_ab 0 = -1 /\
  custom_realloc 4 4178 100000 heap_ab
  = Done 4178 (final_state (custom_realloc 4 4178 100000) heap_ab) /\
  heap_end (final_state (custom_realloc 4 4178 100000) heap_ab)
  = heap_end heap_ab /\
  get_dsize (mem heap_ab) 4154 = 20 /\
  get_dsize (mem (final_state (custom_realloc 4 4178 100000) heap_ab)) 4154
  = 100000.
Proof.
  split; [vm_compute; reflexivity|].
  split; [vm_compute; reflexivity|].
  split; [apply run_done; vm_compute; reflexivity|].
  split; [vm_compute; reflexivity|].
  split; vm_compute; reflexivity.
Qed.

(** C2 as stated fails: [realloc(a, 0)] returns null and has unlinked [a]
    (the dummy head's [next] moves from 4120 to 4154). *)
Lemma realloc_zero_returns_null_and_frees :
  custom_realloc 4 4144 0 heap_ab
  = Done NULL (final_state (custom_realloc 4 4144 0) heap_ab) /\
  get_next (mem heap_ab) 4096 = 4120 /\
  get_next (mem (final_state (custom_realloc 4 4144 0) heap_ab)) 4096 = 4154 /\
  ~ same_heap heap_ab (final_state (custom_realloc 4 4144 0) heap_ab).
Proof.
  split; [apply run_done; vm_compute; reflexivity|].
  split; [vm_compute; reflexivity|].
  split; [vm_compute; reflexivity|].
  intros (_ & _ & Hm).
  apply (f_equal (fun m => get_next m 4096)) in Hm.
  vm_compute in Hm. discriminate.
Qed.

(** Why [alloc_guard] asks for more than a null result: with the program
    break 48 bytes below the top of the address space, the first
    [malloc(0)] initialises the heap, puts its block in the last 24 bytes,
    and returns a data pointer that has wrapped around to [NULL]. *)
Remark malloc_null_at_address_space_top :
  let top := @mkState limited NULL NULL (fun a => a mod 251)
               (mkBrk (2 ^ 64 - 48) (2 ^ 64 - 48) (2 ^ 64)) in
  returned (custom_malloc 4 0) top 1 = NULL /\
  is_done (custom_malloc 4 0) top = true /\
  heap_start (final_state (custom_malloc 4 0) top) = 2 ^ 64 - 48.
Proof.
  cbv zeta. split; [|split]; vm_compute; reflexivity.
Qed.

Lemma failure_preserves_heap_witness :
  same_heap heap_ab (final_state (custom_malloc 4 100000) heap_ab).
Proof.
  apply (@failure_preserves_heap limited 4).
  apply (failed_malloc 4 _ _ 100000).
  - apply run_done; vm_compute; reflexivity.
  - right. split; [vm_compute; discriminate|].
    apply (uncorrupted_no_top_opening 4 100000 heap_ab [4120; 4154]).
    + split; [|split]; vm_compute; reflexivity.
    + vm_compute; reflexivity.
    + cbn [length]; lia.
Defined.

(** C4: on the heap of C1, [realloc(a, 1000)] has no room in place (the
    successor header is at 4154, the new data would end at 5144), and yet no
    fresh block is allocated, nothing is copied and [a] is not released:
    the same pointer comes back, [heap_end] has not moved and the list still
    holds exactly the headers of [a] and [b]. *)
Theorem realloc_without_room_does_not_copy :
  get_next (mem heap_ab) 4120 = 4154 /\ 4154 < 4144 + 1000 /\
  returned (custom_realloc 4 4144 1000) heap_ab 0 = 4144 /\
  heap_end (final_state (custom_realloc 4 4144 1000) heap_ab)
  = heap_end heap_ab /\
  get_next (mem (final_state (custom_realloc 4 4144 1000) heap_ab)) 4096
  = 4120 /\
  get_next (mem (final_state (custom_realloc 4 4144 1000) heap_ab)) 4120
  = 4154 /\
  get_next (mem (final_state (custom_realloc 4 4144 1000) heap_ab)) 4154
  = NULL.
Proof.
  split; [vm_compute; reflexivity|].
  split; [lia|].
  repeat (split; [vm_compute; reflexivity|]).
  vm_compute; reflexivity.
Qed.

(** C5: on the uncorrupted heap [heap_tight] (headers 4120 and 4198, one
    gap of 14 bytes at 4184) the request [malloc(2^64 - 20)] has its block
    size [sizeof(header_t) + s] wrap around to 4.  The 14-byte gap passes
    for large enough, the new header is written at 4184 over the first
    bytes of the live header at 4198, whose [dsize] and magic number are
    lost, and 4208 is returned: a pointer inside that header, beyond the
    end of the gap, where first fit has no gap of the size asked for. *)
Theorem malloc_overflowing_size_overwrites_header :
  uncorrupted heap_tight [4120; 4198] /\
  gaps heap_tight 4096 [4120; 4198] = [(4120, 0); (4184, 14)] /\
  wrap64 (sizeof_header + (2 ^ 64 - 20)) = 4 /\
  custom_malloc 4 (2 ^ 64 - 20) heap_tight
  = Done 4208 (final_state (custom_malloc 4 (2 ^ 64 - 20)) heap_tight) /\
  4184 + 14 < 4208 /\
  get_dsize (mem heap_tight) 4198 = 5 /\
  get_magic (mem heap_tight) 4198 = MAGIC /\
  get_dsize (mem (final_state (custom_malloc 4 (2 ^ 64 - 20)) heap_tight))
    4198 = 275120133 /\
  get_magic (mem (final_state (custom_malloc 4 (2 ^ 64 - 20)) heap_tight))
    4198 <> MAGIC /\
  ~ placed_first_fit heap_tight
      (final_state (custom_malloc 4 (2 ^ 64 - 20)) heap_tight)
      [4120; 4198] (2 ^ 64 - 20) 4208.
Proof.
  split; [split; [|split]; vm_compute; reflexivity|].
  split; [vm_compute; reflexivity|].
  split; [vm_compute; reflexivity|].
  split; [apply run_done; vm_compute; reflexivity|].
  split; [lia|].
  split; [vm_compute; reflexivity|].
  split; [vm_compute; reflexivity|].
  split; [vm_compute; reflexivity|].
  split; [vm_compute; discriminate|].
  unfold placed_first_fit. cbv zeta.
  replace (heap_start heap_tight) with 4096 by (vm_compute; reflexivity).
  replace (gaps heap_tight 4096 [4120; 4198]) with [(4120, 0); (4184, 14)]
    by (vm_compute; reflexivity).
  replace (last_end heap_tight 4096 [4120; 4198]) with 4227
    by (vm_compute; reflexivity).
  unfold sizeof_header.
  intros (_ & [(sz & Hin & Hsz)|(Ha & _)]).
  - cbn [In] in Hin. destruct Hin as [Heq|[Heq|[]]]; inversion Heq; subst; lia.
  - lia.
Qed.



Example free_of_unknown_pointer :
  custom_free 5 5000 heap_ab = Done tt heap_ab.
Proof.
  apply (@custom_free_refuses limited 5 5000 heap_ab).
  right. right. right. left. exists (Some 4154).
  vm_compute; reflexivity.
Qed.

(** C8: [free((void * ) 24)] on an initialised heap.  The pointer is not
    null and its candidate header, address 0, is neither the heap start nor
    in the list, so the call should do nothing; [custom_free] hands the
    null target to [find_block], whose [assert(target != NULL)] stops the
    program. *)
Theorem free_of_header_size_pointer_aborts :
  heap_start heap_ab = 4096 /\
  wrap64 (sizeof_header - sizeof_header) = NULL /\
  find_block 4 NULL heap_ab = Abort /\
  custom_free 4 sizeof_header heap_ab = Abort.
Proof.
  repeat (split; [vm_compute; reflexivity|]).
  vm_compute; reflexivity.
Qed.



(** On the fresh heap [calloc(3, 4)] is in the first case: [sbrk] hands
    out 60 bytes from 4096, the twelve bytes from 4144 are accessible, and
    they come back zero. *)
Example calloc_small_block_is_zeroed :
  accessible (env (final_state (custom_malloc 4 12) fresh)) 4144 12 = true /\
  custom_calloc 4 3 4 fresh
  = Done 4144 (final_state (custom_calloc 4 3 4) fresh) /\
  forall i, 0 <= i < 12 ->
            mem (final_state (custom_calloc 4 3 4) fresh) (4144 + i) = 0.
Proof.
  split; [vm_compute; reflexivity|].
  split; [apply run_done; vm_compute; reflexivity|].
  intros i Hi.
  assert (Hc : i = 0 \/ i = 1 \/ i = 2 \/ i = 3 \/ i = 4 \/ i = 5 \/ i = 6
               \/ i = 7 \/ i = 8 \/ i = 9 \/ i = 10 \/ i = 11) by lia.
  repeat (destruct Hc as [->|Hc]; [vm_compute; reflexivity|]).
  subst i. vm_compute; reflexivity.
Qed.


(** ** The further properties on the example heaps *)


Lemma expand_heap_fits_or_refuses_witness :
  exists r st',
    expand_heap 4198 29 heap_ab = Done r st' /\
    heap_start st' = heap_start heap_ab /\ mem st' = mem heap_ab /\
    ((r = 0 /\ heap_end heap_ab <= heap_end st' /\
      wrap64 (4198 + 29) <= heap_end st' /\
      (wrap64 (4198 + 29) <= heap_end heap_ab -> st' = heap_ab)) \/
     (r = -1 /\ heap_end st' = heap_end heap_ab /\
      heap_end heap_ab < wrap64 (4198 + 29))).
Proof.
  apply (@expand_heap_fits_or_refuses limited 4198 29 heap_ab).
  - unfold NULL; lia.
  - vm_compute; discriminate.
  - assert (H : heap_end heap_ab = 4198) by (vm_compute; reflexivity).
    rewrite H. lia.
Defined.

Lemma find_block_is_exact_witness :
  (4154 = heap_start heap_ab ->
   find_block 4 4154 heap_ab = Done (4154, None) heap_ab) /\
  (In 4154 [4120; 4154] ->
   find_block 4 4154 heap_ab
   = Done (4154, Some (pred_of 4154 (heap_start heap_ab) [4120; 4154]))
       heap_ab /\
   In (pred_of 4154 (heap_start heap_ab) [4120; 4154])
      (heap_start heap_ab :: [4120; 4154]) /\
   get_next (mem heap_ab) (pred_of 4154 (heap_start heap_ab) [4120; 4154])
   = 4154) /\
  (4154 <> heap_start heap_ab -> ~ In 4154 [4120; 4154] ->
   find_block 4 4154 heap_ab
   = Done (NULL, Some (last_header (heap_start heap_ab) [4120; 4154]))
       heap_ab).
Proof.
  apply (@find_block_is_exact limited 4 4154 heap_ab [4120; 4154]).
  - split; [|split]; vm_compute; reflexivity.
  - unfold NULL; lia.
  - cbn [length]; lia.
Defined.

Lemma free_writes_one_link_at_most_witness :
  heap_start (final_state (custom_free 4 4144) heap_ab) = heap_start heap_ab /\
  heap_end (final_state (custom_free 4 4144) heap_ab) = heap_end heap_ab /\
  env (final_state (custom_free 4 4144) heap_ab) = env heap_ab /\
  (final_state (custom_free 4 4144) heap_ab = heap_ab \/
   exists prev, forall x, x < prev + 16 \/ prev + 24 <= x ->
     mem (final_state (custom_free 4 4144) heap_ab) x = mem heap_ab x).
Proof.
  apply (@free_writes_one_link_at_most limited 4 4144 heap_ab
           (final_state (custom_free 4 4144) heap_ab) tt).
  apply (run_done (custom_free 4 4144) heap_ab tt); vm_compute; reflexivity.
Defined.


Lemma malloc_keeps_heap_uncorrupted_witness :
  exists prev,
    In prev (heap_start heap_b :: [4154]) /\
    4144 - sizeof_header = block_end heap_b prev /\
    get_dsize (mem (final_state (custom_malloc 4 5) heap_b))
      (4144 - sizeof_header) = 5 /\
    heap_start (final_state (custom_malloc 4 5) heap_b) = heap_start heap_b /\
    heap_end heap_b <= heap_end (final_state (custom_malloc 4 5) heap_b) /\
    4144 + 5 <= heap_end (final_state (custom_malloc 4 5) heap_b) /\
    uncorrupted (final_state (custom_malloc 4 5) heap_b)
      (insert_after prev (4144 - sizeof_header) (heap_start heap_b) [4154]).
Proof.
  apply (@malloc_keeps_heap_uncorrupted limited 4 5 4144 heap_b
           (final_state (custom_malloc 4 5) heap_b) [4154]).
  - split; [|split]; vm_compute; reflexivity.
  - lia.
  - vm_compute; reflexivity.
  - cbn [length]; lia.
  - apply (run_done (custom_malloc 4 5) heap_b 4144); vm_compute; reflexivity.
  - unfold NULL; lia.
Defined.

Lemma malloc_leaves_live_blocks_alone_witness :
  get_dsize (mem (final_state (custom_malloc 4 5) heap_b)) 4154
  = get_dsize (mem heap_b) 4154 /\
  get_magic (mem (final_state (custom_malloc 4 5) heap_b)) 4154
  = get_magic (mem heap_b) 4154 /\
  (forall x, 4154 + sizeof_header <= x < block_end heap_b 4154 ->
             mem (final_state (custom_malloc 4 5) heap_b) x = mem heap_b x) /\
  (block_end heap_b 4154 <= 4144 - sizeof_header \/ 4144 + 5 <= 4154).
Proof.
  apply (@malloc_leaves_live_blocks_alone limited 4 5 4144 4154 heap_b
           (final_state (custom_malloc 4 5) heap_b) [4154]).
  - split; [|split]; vm_compute; reflexivity.
  - lia.
  - vm_compute; reflexivity.
  - cbn [length]; lia.
  - apply (run_done (custom_malloc 4 5) heap_b 4144); vm_compute; reflexivity.
  - unfold NULL; lia.
  - right. left. reflexivity.
Defined.

Lemma free_unlinks_block_witness :
  exists st',
    custom_free 4 (4120 + sizeof_header) heap_ab = Done tt st' /\
    heap_start st' = heap_start heap_ab /\ heap_end st' = heap_end heap_ab /\
    env st' = env heap_ab /\
    uncorrupted st' (unlink 4120 [4120; 4154]) /\
    ~ In 4120 (unlink 4120 [4120; 4154]) /\
    (forall k x, In k (heap_start heap_ab :: [4120; 4154]) ->
                 k <= x < k + 16 \/
                 k + sizeof_header <= x < block_end heap_ab k ->
                 mem st' x = mem heap_ab x).
Proof.
  apply (@free_unlinks_block limited 4 4120 heap_ab [4120; 4154]).
  - split; [|split]; vm_compute; reflexivity.
  - left. reflexivity.
  - cbn [length]; lia.
Defined.

Lemma free_twice_is_noop_witness :
  exists st',
    custom_free 4 (4120 + sizeof_header) heap_ab = Done tt st' /\
    custom_free 4 (4120 + sizeof_header) st' = Done tt st'.
Proof.
  apply (@free_twice_is_noop limited 4 4120 heap_ab [4120; 4154]).
  - split; [|split]; vm_compute; reflexivity.
  - left. reflexivity.
  - cbn [length]; lia.
Defined.

Lemma malloc_then_free_restores_list_witness :
  exists st2,
    custom_free 4 4144 (final_state (custom_malloc 4 5) heap_b)
    = Done tt st2 /\
    uncorrupted st2 [4154] /\ heap_start st2 = heap_start heap_b /\
    (forall k, In k (heap_start heap_b :: [4154]) ->
       get_dsize (mem st2) k = get_dsize (mem heap_b) k /\
       get_next (mem st2) k = get_next (mem heap_b) k /\
       (forall x, k + sizeof_header <= x < block_end heap_b k ->
                  mem st2 x = mem heap_b x)).
Proof.
  apply (@malloc_then_free_restores_list limited 4 5 4144 heap_b
           (final_state (custom_malloc 4 5) heap_b) [4154]).
  - split; [|split]; vm_compute; reflexivity.
  - lia.
  - vm_compute; reflexivity.
  - cbn [length]; lia.
  - apply (run_done (custom_malloc 4 5) heap_b 4144); vm_compute; reflexivity.
  - unfold NULL; lia.
Defined.

Lemma realloc_within_room_keeps_heap_witness :
  exists st',
    custom_realloc 4 (4120 + sizeof_header) 40 heap_ac
    = Done (4120 + sizeof_header) st' /\
    heap_end st' = heap_end heap_ac /\ env st' = env heap_ac /\
    get_dsize (mem st') 4120 = 40 /\
    (forall x, x < 4120 \/ 4120 + 8 <= x -> mem st' x = mem heap_ac x) /\
    uncorrupted st' [4120; 4198].
Proof.
  assert (Hn : get_next (mem heap_ac) 4120 = 4198) by (vm_compute; reflexivity).
  apply (@realloc_within_room_keeps_heap limited 4 4120 40 heap_ac
           [4120; 4198]).
  - split; [|split]; vm_compute; reflexivity.
  - left. reflexivity.
  - lia.
  - intros _. rewrite Hn. unfold sizeof_header. lia.
  - intros H. rewrite Hn in H. discriminate H.
  - cbn [length]; lia.
Defined.

Lemma realloc_grows_last_block_witness :
  exists st',
    custom_realloc 4 (4154 + sizeof_header) 100 heap_ab
    = Done (4154 + sizeof_header) st' /\
    heap_end st' = 4154 + sizeof_header + 100 /\
    env st' = mkBrk 4278 4096 8192 /\
    get_dsize (mem st') 4154 = 100 /\
    (forall x, x < 4154 \/ 4154 + 8 <= x -> mem st' x = mem heap_ab x) /\
    uncorrupted st' [4120; 4154].
Proof.
  assert (He : heap_end heap_ab = 4198) by (vm_compute; reflexivity).
  apply (@realloc_grows_last_block limited 4 4154 100 4198
           (mkBrk 4278 4096 8192) heap_ab [4120; 4154]).
  - split; [|split]; vm_compute; reflexivity.
  - right. left. reflexivity.
  - vm_compute; reflexivity.
  - rewrite He. unfold sizeof_header. lia.
  - rewrite He. unfold sizeof_header. lia.
  - vm_compute; reflexivity.
  - vm_compute; discriminate.
  - cbn [length]; lia.
Defined.

Lemma first_malloc_initialises_heap_witness :
  exists st',
    custom_malloc 4 10 fresh = Done (4096 + 2 * sizeof_header) st' /\
    heap_start st' = 4096 /\ heap_end st' = 4096 + 2 * sizeof_header + 10 /\
    env st' = mkBrk 4154 4096 8192 /\
    get_dsize (mem st') 4096 = 0 /\
    get_dsize (mem st') (4096 + sizeof_header) = 10 /\
    (forall x, x < 4096 \/ 4096 + 2 * sizeof_header <= x ->
               mem st' x = mem fresh x) /\
    uncorrupted st' [4096 + sizeof_header].
Proof.
  apply (@first_malloc_initialises_heap limited 4 10 4096
           (mkBrk 4154 4096 8192) fresh).
  - reflexivity.
  - lia.
  - lia.
  - unfold sizeof_header. lia.
  - vm_compute; reflexivity.
  - lia.
  - unfold sizeof_header. lia.
Defined.

Lemma first_malloc_refused_witness :
  custom_malloc 4 100000 fresh
  = Done NULL (@mkState limited NULL (heap_end fresh) (mem fresh)
                 (mkBrk 4096 4096 8192)).
Proof.
  apply (@first_malloc_refused limited 4 100000 MINUS_ONE
           (mkBrk 4096 4096 8192) fresh).
  - reflexivity.
  - vm_compute; reflexivity.
  - vm_compute; reflexivity.
Defined.

Lemma calloc_keeps_heap_uncorrupted_witness :
  exists prev,
    In prev (heap_start heap_b :: [4154]) /\
    uncorrupted (final_state (custom_calloc 4 1 5) heap_b)
      (insert_after prev (4144 - sizeof_header) (heap_start heap_b) [4154]) /\
    get_dsize (mem (final_state (custom_calloc 4 1 5) heap_b))
      (4144 - sizeof_header) = wrap64 (1 * 5) /\
    (forall x, 4144 <= x < 4144 + wrap64 (1 * 5) ->
               mem (final_state (custom_calloc 4 1 5) heap_b) x = 0) /\
    (forall k x, In k (heap_start heap_b :: [4154]) ->
                 k + sizeof_header <= x < block_end heap_b k ->
                 mem (final_state (custom_calloc 4 1 5) heap_b) x
                 = mem heap_b x).
Proof.
  apply (@calloc_keeps_heap_uncorrupted limited 4 1 5 4144 heap_b
           (final_state (custom_calloc 4 1 5) heap_b) [4154]).
  - split; [|split]; vm_compute; reflexivity.
  - lia.
  - lia.
  - vm_compute; reflexivity.
  - cbn [length]; lia.
  - apply (run_done (custom_calloc 4 1 5) heap_b 4144); vm_compute; reflexivity.
  - unfold NULL; lia.
Defined.

Lemma malloc_into_gap_leaves_break_witness :
  heap_end (final_state (custom_malloc 4 5) heap_b) = heap_end heap_b /\
  env (final_state (custom_malloc 4 5) heap_b) = env heap_b.
Proof.
  apply (@malloc_into_gap_leaves_break limited 4 5 4144 heap_b
           (final_state (custom_malloc 4 5) heap_b) [4154]).
  - split; [|split]; vm_compute; reflexivity.
  - lia.
  - vm_compute; reflexivity.
  - cbn [length]; lia.
  - apply (run_done (custom_malloc 4 5) heap_b 4144); vm_compute; reflexivity.
  - unfold NULL; lia.
  - vm_compute; discriminate.
Defined.

Lemma free_of_unlisted_pointer_is_noop_witness :
  custom_free 4 4150 heap_ab = Done tt heap_ab.
Proof.
  apply (@free_of_unlisted_pointer_is_noop limited 4 4150 heap_ab
           [4120; 4154]).
  - split; [|split]; vm_compute; reflexivity.
  - cbn [length]; lia.
  - vm_compute. intros [H|[H|[]]]; discriminate H.
  - vm_compute; discriminate.
Defined.

Lemma plain_calls_keep_heap_uncorrupted_witness :
  heap_ok 3 (final_state (exec 4 (Free 4144)) heap_ab).
Proof.
  apply (@plain_calls_keep_heap_uncorrupted limited 4 3).
  - apply (served_step 4 2 heap_ab (Free 4144) 0).
    + apply (served_step 4 1 heap_a (Malloc 20) 4178).
      * apply (served_step 4 0 fresh (Malloc 10) 4144).
        -- apply served_initial. reflexivity.
        -- split; [lia|]. split.
           ++ intros H. exfalso. apply H. reflexivity.
           ++ intros _ r w H. vm_compute in H.
              right. injection H as <- _. unfold sizeof_header. lia.
        -- apply (run_done (exec 4 (Malloc 10)) fresh 4144);
             vm_compute; reflexivity.
      * split; [lia|]. split.
        -- intros _. vm_compute; reflexivity.
        -- intros H. vm_compute in H. discriminate H.
      * apply (run_done (exec 4 (Malloc 20)) heap_a 4178);
          vm_compute; reflexivity.
    + cbn [plain_call]. lia.
    + apply (run_done (exec 4 (Free 4144)) heap_ab 0); vm_compute; reflexivity.
  - lia.
Defined.

Lemma realloc_to_zero_releases_witness :
  exists st',
    custom_realloc 4 (4120 + sizeof_header) 0 heap_ab = Done NULL st' /\
    custom_free 4 (4120 + sizeof_header) heap_ab = Done tt st' /\
    uncorrupted st' (unlink 4120 [4120; 4154]) /\
    ~ In 4120 (unlink 4120 [4120; 4154]).
Proof.
  apply (@realloc_to_zero_releases limited 4 4120 heap_ab [4120; 4154]).
  - split; [|split]; vm_compute; reflexivity.
  - left. reflexivity.
  - cbn [length]; lia.
Defined.

Lemma realloc_of_unlisted_pointer_returns_null_witness :
  custom_realloc 4 4150 8 heap_ab = Done NULL heap_ab.
Proof.
  apply (@realloc_of_unlisted_pointer_returns_null limited 4 4150 8 heap_ab
           [4120; 4154]).
  - split; [|split]; vm_compute; reflexivity.
  - cbn [length]; lia.
  - unfold NULL; lia.
  - lia.
  - vm_compute; discriminate.
  - vm_compute; discriminate.
  - vm_compute. intros [H|[H|[]]]; discriminate H.
Defined.

Lemma malloc_behind_last_block_refused_witness :
  custom_malloc 4 100000 heap_ab
  = Done NULL (@mkState limited (heap_start heap_ab) (heap_end heap_ab)
                 (mem heap_ab) (mkBrk 4198 4096 8192)).
Proof.
  assert (He : heap_end heap_ab = 4198) by (vm_compute; reflexivity).
  assert (Hl : last_end heap_ab (heap_start heap_ab) [4120; 4154] = 4198)
    by (vm_compute; reflexivity).
  apply (@malloc_behind_last_block_refused limited 4 100000 MINUS_ONE
           (mkBrk 4198 4096 8192) heap_ab [4120; 4154]).
  - split; [|split]; vm_compute; reflexivity.
  - lia.
  - cbn [length]; lia.
  - intros b sz H. vm_compute in H.
    destruct H as [H|[H|[]]]; injection H as _ <-; unfold sizeof_header; lia.
  - rewrite He, Hl. unfold sizeof_header. lia.
  - rewrite He, Hl. unfold sizeof_header. lia.
  - vm_compute; reflexivity.
  - vm_compute; reflexivity.
Defined.



Lemma broken_header_is_reported_witness :
  find_block 4 (wrap64 (4178 - sizeof_header)) heap_smashed
  = Done (MINUS_ONE, Some (last_header (heap_start heap_smashed) [4120]))
      heap_smashed /\
  custom_free 4 4178 heap_smashed = Done tt heap_smashed /\
  (4178 <> NULL -> 8 <> 0 ->
   custom_realloc 4 4178 8 heap_smashed = Done NULL heap_smashed).
Proof.
  apply (@broken_header_is_reported limited 4 4178 8 heap_smashed [4120]).
  - vm_compute; discriminate.
  - vm_compute; discriminate.
  - vm_compute; reflexivity.
  - vm_compute. intros [H|[H|[]]]; discriminate H.
  - vm_compute; reflexivity.
  - cbn [length]; lia.
Defined.

